(** * cadastro_usuario: a shallow embedding of [SistemaCadastro]

    The registry of [src/cadastro_usuario.py]: record validation, the
    operations on the in-memory list [self.usuarios], the random generator
    and the persistence to the CSV and JSON files.

    Conventions of the embedding.
    - A Python [str] is the list of its code points ([str := list N]).
      String literals of the program are written as Rocq strings and decoded
      from UTF-8 by [utf8].
    - An attribute of a [Usuario] holds [None] or a [str] ([PyVal]): the CSV
      loader can store [None] (the [restval] of [csv.DictReader]).
    - Every [Usuario] of [self.usuarios] is a distinct object referenced from
      the list only, so mutation in place is the replacement of the element
      at its position and [list.remove] (identity comparison, the class has
      no [__eq__]) deletes the element the loop stands on.
    - The world outside the object (files, log, standard output, the random
      generator) is explicit state, and a method gives back its value or the
      exception that leaves it together with the world after the call. *)

From Stdlib Require Import List NArith Bool String Ascii Lia Arith.
Import ListNotations.

Local Open Scope N_scope.
Local Open Scope list_scope.

(* ================================================================= *)
(** ** Python strings *)

Definition str := list N.

Module Str.

Definition bytes_of (s : string) : list N :=
  List.map N_of_ascii (list_ascii_of_string s).

(** Decoding of the UTF-8 bytes of a literal into code points. *)
Fixpoint utf8_decode (bs : list N) : str :=
  match bs with
  | [] => []
  | b :: r =>
      if b <? 128 then b :: utf8_decode r
      else if b <? 224 then
        match r with
        | c1 :: r1 => ((b - 192) * 64 + (c1 - 128)) :: utf8_decode r1
        | [] => []
        end
      else if b <? 240 then
        match r with
        | c1 :: c2 :: r2 =>
            ((b - 224) * 4096 + (c1 - 128) * 64 + (c2 - 128)) :: utf8_decode r2
        | _ => []
        end
      else
        match r with
        | c1 :: c2 :: c3 :: r3 =>
            ((b - 240) * 262144 + (c1 - 128) * 4096 + (c2 - 128) * 64 + (c3 - 128))
              :: utf8_decode r3
        | _ => []
        end
  end.

Definition utf8 (s : string) : str := utf8_decode (bytes_of s).

Definition eqb (a b : str) : bool :=
  if list_eq_dec N.eq_dec a b then true else false.

(** [str.isspace] on one code point: the characters Python treats as
    whitespace (bidirectional type WS, B or S, or category Zs). *)
Definition isspace (c : N) : bool :=
  ((9 <=? c) && (c <=? 13)) || ((28 <=? c) && (c <=? 32))
  || (c =? 133) || (c =? 160) || (c =? 5760)
  || ((8192 <=? c) && (c <=? 8202))
  || (c =? 8232) || (c =? 8233) || (c =? 8239) || (c =? 8287) || (c =? 12288).

Fixpoint lstrip (s : str) : str :=
  match s with
  | c :: r => if isspace c then lstrip r else s
  | [] => []
  end.

Definition rstrip (s : str) : str := rev (lstrip (rev s)).

(** [s.strip()] *)
Definition strip (s : str) : str := rstrip (lstrip s).

(** [str.lower] on one code point, for Basic Latin and Latin-1 Supplement
    (the only characters [lower] is applied to here: the names of
    [gerar_nome_aleatorio]). *)
Definition lower_char (c : N) : N :=
  if (65 <=? c) && (c <=? 90) then c + 32
  else if (192 <=? c) && (c <=? 222) && negb (c =? 215) then c + 32
  else c.

Definition lower (s : str) : str := List.map lower_char s.

(** [s.replace(a, b)] for one-character [a] and [b]. *)
Definition replace_char (a b : N) (s : str) : str :=
  List.map (fun c => if c =? a then b else c) s.

(** Truth value of a string: [bool(s)]. *)
Definition truthy (s : str) : bool :=
  match s with [] => false | _ :: _ => true end.

End Str.

Definition utf8 : string -> str := Str.utf8.

Arguments utf8 : simpl never.

(* ================================================================= *)
(** ** The regular expression of [validar_email]

    [re.match] compiles the pattern to a sequence of operations and runs
    a backtracking matcher from position 0.  The operations the pattern
    uses: the anchors, a literal, and a greedy unbounded repetition of a
    character set. *)

Module Sre.

Inductive op :=
| AT_BEGINNING                                   (* ^ *)
| AT_END                                         (* $ *)
| LITERAL (c : N)
| MAX_REPEAT (min : nat) (ranges : list (N * N)) (* [set]{min,} *).

Definition in_set (ranges : list (N * N)) (c : N) : bool :=
  existsb (fun r => (fst r <=? c) && (c <=? snd r)) ranges.

(** [$] without [re.MULTILINE]: at the end of the string, or just before
    a newline that ends the string. *)
Definition at_end (rest : str) : bool :=
  match rest with
  | [] => true
  | [10] => true
  | _ => false
  end.

Section Repeat.
(** The rest of the pattern, to be run where the repetition stops;
    its first argument says whether the position is still 0. *)
Variable k : bool -> str -> bool.
Variable ranges : list (N * N).

(** Greedy: one more character of the set is tried first, the rest of
    the pattern only once that fails (backtracking). *)
Fixpoint max_repeat (min : nat) (start : bool) (s : str) {struct s} : bool :=
  match min with
  | S m =>
      match s with
      | c :: r => in_set ranges c && max_repeat m false r
      | [] => false
      end
  | O =>
      match s with
      | c :: r => (in_set ranges c && max_repeat O false r) || k start s
      | [] => k start s
      end
  end.
End Repeat.

Fixpoint run (pat : list op) (start : bool) (s : str) {struct pat} : bool :=
  match pat with
  | [] => true
  | AT_BEGINNING :: p => start && run p start s
  | AT_END :: p => at_end s && run p start s
  | LITERAL c :: p =>
      match s with
      | x :: r => (x =? c) && run p false r
      | [] => false
      end
  | MAX_REPEAT min ranges :: p => max_repeat (run p) ranges min start s
  end.

(** [re.match(pat, s) is not None] *)
Definition re_match (pat : list op) (s : str) : bool := run pat true s.

End Sre.

(* ================================================================= *)
(** ** Validation *)

Definition chr (a : ascii) : N := N_of_ascii a.

Definition alnum : list (N * N) :=
  [(chr "a", chr "z"); (chr "A", chr "Z"); (chr "0", chr "9")].

Definition single (a : ascii) : N * N := (chr a, chr a).

(** [[a-zA-Z0-9._%+-]] *)
Definition set_local : list (N * N) :=
  alnum ++ [single "."; single "_"; single "%"; single "+"; single "-"].

(** [[a-zA-Z0-9.-]] *)
Definition set_domain : list (N * N) := alnum ++ [single "."; single "-"].

(** [[a-zA-Z]] *)
Definition set_alpha : list (N * N) := [(chr "a", chr "z"); (chr "A", chr "Z")].

(** [padrao = r'^[a-zA-Z0-9._%+-]+@[a-zA-Z0-9.-]+\.[a-zA-Z]{2,}$'] *)
Definition padrao : list Sre.op :=
  [ Sre.AT_BEGINNING;
    Sre.MAX_REPEAT 1 set_local;
    Sre.LITERAL (chr "@");
    Sre.MAX_REPEAT 1 set_domain;
    Sre.LITERAL (chr ".");
    Sre.MAX_REPEAT 2 set_alpha;
    Sre.AT_END ].

Definition validar_email (email : str) : bool := Sre.re_match padrao email.

Definition validar_nome (nome : str) : bool := Str.truthy (Str.strip nome).


(* ================================================================= *)
(** ** Records and exceptions *)

Inductive PyVal :=
| PyNone
| PyStr (s : str).

(** [class Usuario] *)
Record Usuario := mkUsuario { nome : PyVal; email : PyVal }.

(** A surrogate code point (U+D800 to U+DFFF): the UTF-8 codec refuses it.
    A [str] holds one when undecodable bytes of the input were read with
    the [surrogateescape] handler, or when a JSON text escapes one. *)
Definition surrogate (c : N) : bool := (55296 <=? c) && (c <=? 57343).

(** [s.encode('utf-8')] does not raise: the string holds no surrogate. *)
Definition codificavel (s : str) : bool := forallb (fun c => negb (surrogate c)) s.

(** The position of the first surrogate of a string, and the number of
    surrogates in a row at the start of a string. *)
Fixpoint inicio_do_erro (s : str) : nat :=
  match s with
  | [] => O
  | c :: r => if surrogate c then O else S (inicio_do_erro r)
  end.

Fixpoint surrogates_seguidos (s : str) : nat :=
  match s with
  | [] => O
  | c :: r => if surrogate c then S (surrogates_seguidos r) else O
  end.

(** A digit of a numeral in lower case, and the numeral of [n] in a base,
    most significant digit first. *)
Definition digito (d : N) : N := if d <? 10 then chr "0" + d else chr "a" + (d - 10).

Fixpoint numeral (base : N) (fuel : nat) (n : N) : str :=
  match fuel with
  | O => []
  | S f => if n <? base then [digito n]
           else numeral base f (n / base) ++ [digito (n mod base)]
  end.

(** The formats [%d] of a number and [%04x] of a code point below 65536. *)
Definition decimal (n : N) : str := numeral 10 (S (N.size_nat n)) n.

Definition hex4 (c : N) : str :=
  List.map digito [(c / 4096) mod 16; (c / 256) mod 16; (c / 16) mod 16; c mod 16].

(** The exceptions that the handlers of [carregar_usuarios] and
    [salvar_usuarios] catch or that leave a method; only [str(e)] is
    observed.  [UnicodeEncodeError] carries the string that could not be
    encoded: a row of the CSV file, or the message of a line of the log. *)
Inductive Exn :=
| KeyError (key : str)
| CsvError (msg : str)
| UnicodeEncodeError (objeto : str)
| OtherError (msg : str).

Definition apostrofo : str := utf8 "'".

(** [str(e)]; for a [KeyError] it is [repr(key)], here of the keys
    ['Nome'] and ['Email']; for a [UnicodeEncodeError] of the UTF-8 codec
    it names the first surrogate of the string and its position, or the
    positions of the first run of surrogates when they are several. *)
Definition exn_str (e : Exn) : str :=
  match e with
  | KeyError key => apostrofo ++ key ++ apostrofo
  | CsvError msg => msg
  | UnicodeEncodeError objeto =>
      let i := inicio_do_erro objeto in
      let n := surrogates_seguidos (skipn i objeto) in
      if (n <=? 1)%nat then
        utf8 "'utf-8' codec can't encode character '\u" ++ hex4 (nth i objeto 0)
          ++ utf8 "' in position " ++ decimal (N.of_nat i)
          ++ utf8 ": surrogates not allowed"
      else
        utf8 "'utf-8' codec can't encode characters in position " ++ decimal (N.of_nat i)
          ++ utf8 "-" ++ decimal (N.of_nat (i + n - 1))
          ++ utf8 ": surrogates not allowed"
  | OtherError msg => msg
  end.

(** [f"{v}"] *)
Definition fmt (v : PyVal) : str :=
  match v with
  | PyNone => utf8 "None"
  | PyStr s => s
  end.

(** [v == s] for a string [s] *)
Definition val_eqb (v : PyVal) (s : str) : bool :=
  match v with
  | PyNone => false
  | PyStr x => Str.eqb x s
  end.

(** Sequencing of computations that can raise. *)
Definition bind {A B} (m : Exn + A) (f : A -> Exn + B) : Exn + B :=
  match m with
  | inl e => inl e
  | inr a => f a
  end.

Notation "x <- m ;; k" := (bind m (fun x => k))
  (at level 61, m at next level, right associativity).

(* ================================================================= *)
(** ** The [csv] module, dialect [excel]

    [delimiter=','], [quotechar] the double quote, [doublequote=True],
    [escapechar=None], [skipinitialspace=False], [strict=False],
    [lineterminator='\r\n'], [quoting=QUOTE_MINIMAL]. *)

Module Csv.

Definition delimiter : N := chr ",".
Definition quotechar : N := 34.
Definition CR : N := 13.
Definition LF : N := 10.
Definition lineterminator : str := [CR; LF].

(** *** Writer *)

(** A character that forces the field into quotes. *)
Definition special (c : N) : bool :=
  (c =? delimiter) || (c =? quotechar) || existsb (N.eqb c) lineterminator.

Definition escape (s : str) : str :=
  flat_map (fun c => if c =? quotechar then [quotechar; quotechar] else [c]) s.

Definition write_field (s : str) : str :=
  if existsb special s then quotechar :: escape s ++ [quotechar] else s.

(** [None] is written as the empty string. *)
Definition field_text (v : PyVal) : str :=
  match v with
  | PyNone => []
  | PyStr s => s
  end.

Fixpoint join (fs : list str) : str :=
  match fs with
  | [] => []
  | [f] => f
  | f :: r => f ++ delimiter :: join r
  end.

(** [writer.writerow] for a row of two or more fields. *)
Definition writerow (row : list PyVal) : str :=
  join (List.map (fun v => write_field (field_text v)) row) ++ lineterminator.

(** *** Reader: the state machine of [Reader_iternext] *)

Inductive state :=
| START_RECORD
| START_FIELD
| IN_FIELD
| IN_QUOTED_FIELD
| QUOTE_IN_QUOTED_FIELD
| EAT_CRNL.

Record reader := mkReader { st : state; fields : list str; field : str }.

(** What the machine is fed: a character of the line, or the end of the line. *)
Inductive input :=
| Ch (c : N)
| EOL.

Definition field_limit : N := 131072.

Definition set_state (r : reader) (s : state) : reader :=
  mkReader s (fields r) (field r).

Definition parse_reset : reader := mkReader START_RECORD [] [].

Definition parse_save_field (r : reader) : reader :=
  mkReader (st r) (fields r ++ [field r]) [].

Definition parse_add_char (r : reader) (c : N) : Exn + reader :=
  if field_limit <=? N.of_nat (List.length (field r))
  then inl (CsvError (utf8 "field larger than field limit (131072)"))
  else inr (mkReader (st r) (fields r) (field r ++ [c])).

Definition is_newline (c : input) : bool :=
  match c with
  | Ch x => (x =? LF) || (x =? CR)
  | EOL => false
  end.

Definition is_char (c : input) (x : N) : bool :=
  match c with
  | Ch y => y =? x
  | EOL => false
  end.

Definition end_of_line (r : reader) (c : input) : reader :=
  set_state (parse_save_field r)
    (match c with EOL => START_RECORD | Ch _ => EAT_CRNL end).

Definition start_field (r : reader) (c : input) : Exn + reader :=
  match c with
  | EOL => inr (end_of_line r c)
  | Ch x =>
      if is_newline c then inr (end_of_line r c)
      else if x =? quotechar then inr (set_state r IN_QUOTED_FIELD)
      else if x =? delimiter then inr (parse_save_field r)
      else r' <- parse_add_char r x ;; inr (set_state r' IN_FIELD)
  end.

Definition parse_process_char (r : reader) (c : input) : Exn + reader :=
  match st r with
  | START_RECORD =>
      match c with
      | EOL => inr r
      | Ch _ =>
          if is_newline c then inr (set_state r EAT_CRNL)
          else start_field (set_state r START_FIELD) c
      end
  | START_FIELD => start_field r c
  | IN_FIELD =>
      match c with
      | EOL => inr (end_of_line r c)
      | Ch x =>
          if is_newline c then inr (end_of_line r c)
          else if x =? delimiter then inr (set_state (parse_save_field r) START_FIELD)
          else parse_add_char r x
      end
  | IN_QUOTED_FIELD =>
      match c with
      | EOL => inr r
      | Ch x =>
          if x =? quotechar then inr (set_state r QUOTE_IN_QUOTED_FIELD)
          else parse_add_char r x
      end
  | QUOTE_IN_QUOTED_FIELD =>
      match c with
      | EOL => inr (end_of_line r c)
      | Ch x =>
          if x =? quotechar
          then r' <- parse_add_char r x ;; inr (set_state r' IN_QUOTED_FIELD)
          else if x =? delimiter then inr (set_state (parse_save_field r) START_FIELD)
          else if is_newline c then inr (end_of_line r c)
          else r' <- parse_add_char r x ;; inr (set_state r' IN_FIELD)
      end
  | EAT_CRNL =>
      match c with
      | EOL => inr (set_state r START_RECORD)
      | Ch _ =>
          if is_newline c then inr r
          else inl (CsvError (utf8 "new-line character seen in unquoted field - do you need to open the file with newline=''?"))
      end
  end.

(** The characters of one line, then [EOL]. *)
Fixpoint feed (r : reader) (cs : list input) : Exn + reader :=
  match cs with
  | [] => inr r
  | c :: rest => r' <- parse_process_char r c ;; feed r' rest
  end.

Definition state_eqb (a b : state) : bool :=
  match a, b with
  | START_RECORD, START_RECORD | START_FIELD, START_FIELD | IN_FIELD, IN_FIELD
  | IN_QUOTED_FIELD, IN_QUOTED_FIELD
  | QUOTE_IN_QUOTED_FIELD, QUOTE_IN_QUOTED_FIELD | EAT_CRNL, EAT_CRNL => true
  | _, _ => false
  end.

(** All the rows the reader yields over the lines of the file, and the
    exception that ends the iteration, if one does.  A row is complete
    when the machine is back in [START_RECORD] at the end of a line; at
    the end of the input a pending field is saved as a last row. *)
Fixpoint rows (r : reader) (lines : list str) : list (list str) * option Exn :=
  match lines with
  | [] =>
      if Str.truthy (field r) || state_eqb (st r) IN_QUOTED_FIELD
      then ([fields (parse_save_field r)], None)
      else ([], None)
  | l :: rest =>
      match feed r (List.map Ch l ++ [EOL]) with
      | inl e => ([], Some e)
      | inr r' =>
          if state_eqb (st r') START_RECORD
          then let (rs, e) := rows parse_reset rest in (fields r' :: rs, e)
          else rows r' rest
      end
  end.

(** *** A file opened in text mode without [newline=''] *)

(** Universal newlines: ['\r\n'] and ['\r'] are read as ['\n']. *)
Fixpoint universal_newlines (s : str) : str :=
  match s with
  | [] => []
  | c :: r =>
      if c =? CR then
        LF :: match r with
              | c2 :: r2 => if c2 =? LF then universal_newlines r2 else universal_newlines r
              | [] => []
              end
      else c :: universal_newlines r
  end.

(** Iteration over the file: the lines, each with its ['\n']. *)
Fixpoint readlines (s : str) : list str :=
  match s with
  | [] => []
  | c :: r =>
      if c =? LF then [c] :: readlines r
      else match readlines r with
           | [] => [[c]]
           | l :: ls => (c :: l) :: ls
           end
  end.

(** *** DictReader *)

(** [dict(zip(fieldnames, row))], and [restval = None] under the field
    names the row is too short for.  (The entry under [restkey = None]
    for a row that is too long is never looked up.) *)
Definition dict_row (fieldnames row : list str) : list (str * PyVal) :=
  combine fieldnames (List.map PyStr row)
    ++ List.map (fun k => (k, PyNone)) (skipn (List.length row) fieldnames).

(** [d[key]]: the last value stored under the key. *)
Definition getitem (key : str) (d : list (str * PyVal)) : Exn + PyVal :=
  match fold_left (fun acc kv => if Str.eqb (fst kv) key then Some (snd kv) else acc) d None with
  | Some v => inr v
  | None => inl (KeyError key)
  end.

End Csv.

(* ================================================================= *)
(** ** The world of a [SistemaCadastro]

    [DATA_FILE_CSV] is modelled by its text.  [DATA_FILE_JSON] is modelled
    by what [json.load] and the list comprehension of [carregar_usuarios]
    make of it (the JSON text is not modelled); [json.dump] of attributes
    that are [None] or strings is read back unchanged.  The log file is the
    list of the messages appended to it (the time stamp of a line is not
    modelled) and standard output the list of the printed lines.  The random
    generator is an infinite sequence of raw draws and a cursor into it.

    Standard output is taken to accept every string: its encoding and error
    handler are those of the environment (in the configurations of the
    interpreter where [input] yields surrogates for undecodable bytes,
    [print] writes them back the same way).  The CSV file and the log are
    opened by the program itself with [encoding='utf-8'], which refuses
    surrogates.

    A method returns a pair: what the call gives back and the world after
    it.  What it gives back is [Some e] or [inl e] when the exception [e]
    leaves the method, and [None] or [inr v] when the method returns. *)

Inductive File :=
| Absent                    (* [os.path.isfile] is false *)
| Broken (e : Exn)          (* opening, reading or decoding raises [e] *)
| Text (content : str).

Inductive JsonFile :=
| JAbsent
| JRaises (e : Exn)         (* reading, parsing or the comprehension raises [e] *)
| JLoads (us : list Usuario).

Record Sistema := mkSistema {
  usuarios : list Usuario;        (* self.usuarios *)
  arq_csv : File;                 (* DATA_FILE_CSV *)
  arq_json : JsonFile;            (* DATA_FILE_JSON *)
  escrita_csv : option Exn;       (* [Some e]: opening DATA_FILE_CSV for writing raises [e] *)
  escrita_json : option Exn;      (* the same for DATA_FILE_JSON *)
  escrita_log : option Exn;       (* the same for LOG_FILE, opened for appending *)
  log : list str;                 (* LOG_FILE, oldest line first *)
  saida : list str;               (* printed lines, oldest first *)
  rnd : nat -> nat;               (* raw draws of [random] *)
  cursor : nat                    (* draws consumed so far *)
}.

Definition set_usuarios (us : list Usuario) (w : Sistema) : Sistema :=
  mkSistema us (arq_csv w) (arq_json w) (escrita_csv w) (escrita_json w) (escrita_log w)
            (log w) (saida w) (rnd w) (cursor w).

Definition set_arq_csv (f : File) (w : Sistema) : Sistema :=
  mkSistema (usuarios w) f (arq_json w) (escrita_csv w) (escrita_json w) (escrita_log w)
            (log w) (saida w) (rnd w) (cursor w).

Definition set_arq_json (f : JsonFile) (w : Sistema) : Sistema :=
  mkSistema (usuarios w) (arq_csv w) f (escrita_csv w) (escrita_json w) (escrita_log w)
            (log w) (saida w) (rnd w) (cursor w).

Definition set_log (l : list str) (w : Sistema) : Sistema :=
  mkSistema (usuarios w) (arq_csv w) (arq_json w) (escrita_csv w) (escrita_json w)
            (escrita_log w) l (saida w) (rnd w) (cursor w).

Definition set_cursor (c : nat) (w : Sistema) : Sistema :=
  mkSistema (usuarios w) (arq_csv w) (arq_json w) (escrita_csv w) (escrita_json w)
            (escrita_log w) (log w) (saida w) (rnd w) c.

(** [print(m)] *)
Definition print (m : str) (w : Sistema) : Sistema :=
  mkSistema (usuarios w) (arq_csv w) (arq_json w) (escrita_csv w) (escrita_json w)
            (escrita_log w) (log w) (saida w ++ [m]) (rnd w) (cursor w).

(** A statement that can raise, then the rest of the block. *)
Definition depois (r : option Exn * Sistema) (k : Sistema -> option Exn * Sistema)
  : option Exn * Sistema :=
  match r with
  | (Some e, w) => (Some e, w)
  | (None, w) => k w
  end.

(** [return v] after a block that can raise. *)
Definition retornar {A} (v : A) (r : option Exn * Sistema) : (Exn + A) * Sistema :=
  match r with
  | (Some e, w) => (inl e, w)
  | (None, w) => (inr v, w)
  end.

(** A call whose value is not used. *)
Definition descartar {A} (r : (Exn + A) * Sistema) : option Exn * Sistema :=
  match r with
  | (inl e, w) => (Some e, w)
  | (inr _, w) => (None, w)
  end.

(** [log_event(message)]: the file is opened for appending, and the line
    is encoded as a whole when it is written, so a message that holds a
    surrogate raises and leaves the file as it was.  Nothing in the method
    catches either exception.  (The [UnicodeEncodeError] carries the
    message: the time stamp that precedes it in the line, and that the
    positions of its [str(e)] would count, is not modelled.) *)
Definition log_event (message : str) (w : Sistema) : option Exn * Sistema :=
  match escrita_log w with
  | Some e => (Some e, w)
  | None =>
      if codificavel message then (None, set_log (log w ++ [message]) w)
      else (Some (UnicodeEncodeError message), w)
  end.

Definition mensagem_erro (mensagem : str) (w : Sistema) : Sistema :=
  print (utf8 "Erro: " ++ mensagem) w.

Definition mensagem_sucesso (mensagem : str) (w : Sistema) : Sistema :=
  print (utf8 "Sucesso: " ++ mensagem) w.

(** [SistemaCadastro()] in a given environment, where the three files can
    be opened for writing. *)
Definition novo_sistema (csv : File) (json : JsonFile) (r : nat -> nat) : Sistema :=
  mkSistema [] csv json None None None [] [] r 0%nat.

(* ================================================================= *)
(** ** Persistence *)

Definition Nome : str := utf8 "Nome".
Definition Email : str := utf8 "Email".
Definition formato_csv : str := utf8 "csv".
Definition formato_json : str := utf8 "json".

(** The rows [writer.writeheader()] and [writer.writerows(...)] hand to
    the file, one [write] each. *)
Definition csv_linhas (us : list Usuario) : list str :=
  Csv.writerow [PyStr Nome; PyStr Email]
    :: List.map (fun u => Csv.writerow [nome u; email u]) us.

(** The text of the table of a list: all its rows. *)
Definition csv_dump (us : list Usuario) : str :=
  Csv.writerow [PyStr Nome; PyStr Email]
    ++ flat_map (fun u => Csv.writerow [nome u; email u]) us.

(** [arquivo.write(l)] for each string in turn, on a file opened with
    [encoding='utf-8']: each string is encoded when it is written, so the
    file receives the strings before the first one that holds a surrogate,
    and that one raises. *)
Fixpoint escrever (linhas : list str) : str * option Exn :=
  match linhas with
  | [] => ([], None)
  | l :: resto =>
      if codificavel l then let (t, e) := escrever resto in (l ++ t, e)
      else ([], Some (UnicodeEncodeError l))
  end.

(** [Usuario(linha['Nome'], linha['Email'])] for each row of the
    [DictReader]; blank rows are skipped; [err] is the exception the reader
    raises after the last row, if any. *)
Fixpoint comprehension (fieldnames : list str) (rs : list (list str)) (err : option Exn)
  : Exn + list Usuario :=
  match rs with
  | [] => match err with Some e => inl e | None => inr [] end
  | [] :: rest => comprehension fieldnames rest err
  | row :: rest =>
      let linha := Csv.dict_row fieldnames row in
      n <- Csv.getitem Nome linha ;;
      e <- Csv.getitem Email linha ;;
      us <- comprehension fieldnames rest err ;;
      inr (mkUsuario n e :: us)
  end.

(** The [with open(DATA_FILE_CSV, mode="r", ...)] block on the text of the file. *)
Definition csv_load (content : str) : Exn + list Usuario :=
  match Csv.rows Csv.parse_reset (Csv.readlines (Csv.universal_newlines content)) with
  | ([], Some e) => inl e
  | ([], None) => inr []
  | (fieldnames :: rs, err) => comprehension fieldnames rs err
  end.

Definition erro_ao_carregar (e : Exn) : str :=
  utf8 "Erro ao carregar usuários: " ++ exn_str e.

Definition erro_ao_salvar (e : Exn) : str :=
  utf8 "Erro ao salvar usuários: " ++ exn_str e.

(** The [except Exception as e] handlers: [log_event], which can raise in
    its turn, then [print]. *)
Definition falha_ao_carregar (e : Exn) (w : Sistema) : option Exn * Sistema :=
  depois (log_event (erro_ao_carregar e) w) (fun w1 =>
  (None, print (erro_ao_carregar e) w1)).

Definition falha_ao_salvar (e : Exn) (w : Sistema) : option Exn * Sistema :=
  depois (log_event (erro_ao_salvar e) w) (fun w1 =>
  (None, print (erro_ao_salvar e) w1)).

(** [carregar_usuarios(formato)]: the value returned ([Some []] for
    [return []], [None] for a fall off the end) or the exception raised by
    the handler, and the world after. *)
Definition carregar_usuarios (formato : str) (w : Sistema)
  : (Exn + option (list Usuario)) * Sistema :=
  if Str.eqb formato formato_csv then
    match arq_csv w with
    | Absent => (inr (Some []), w)
    | Broken e => retornar None (falha_ao_carregar e w)
    | Text content =>
        match csv_load content with
        | inr us => (inr None, set_usuarios us w)
        | inl e => retornar None (falha_ao_carregar e w)
        end
    end
  else if Str.eqb formato formato_json then
    match arq_json w with
    | JAbsent => (inr (Some []), w)
    | JRaises e => retornar None (falha_ao_carregar e w)
    | JLoads us => (inr None, set_usuarios us w)
    end
  else (inr None, w).

(** [salvar_usuarios(formato)].  Opening the CSV file for writing empties
    it; the rows are then written one by one, and the file keeps what was
    written before a row that cannot be encoded.  [json.dump] escapes every
    character outside ASCII, so its text can always be encoded. *)
Definition salvar_usuarios (formato : str) (w : Sistema) : option Exn * Sistema :=
  if Str.eqb formato formato_csv then
    match escrita_csv w with
    | Some e => falha_ao_salvar e w
    | None =>
        let (conteudo, erro) := escrever (csv_linhas (usuarios w)) in
        let w1 := set_arq_csv (Text conteudo) w in
        match erro with
        | Some e => falha_ao_salvar e w1
        | None => (None, w1)
        end
    end
  else if Str.eqb formato formato_json then
    match escrita_json w with
    | Some e => falha_ao_salvar e w
    | None => (None, set_arq_json (JLoads (usuarios w)) w)
    end
  else (None, w).

(* ================================================================= *)
(** ** Operations *)

(** [any(usuario.email == email for usuario in self.usuarios)] *)
Definition email_cadastrado (email_ : str) (us : list Usuario) : bool :=
  existsb (fun usuario => val_eqb (email usuario) email_) us.

(** The messages of [cadastrar_usuario]. *)
Definition nome_invalido : str := utf8 "Nome inválido. O nome não pode estar vazio.".
Definition email_invalido : str := utf8 "Email inválido. Tente novamente.".
Definition email_duplicado : str := utf8 "Um usuário com este email já está cadastrado.".

Definition log_cadastrado (nome_ email_ : str) : str :=
  utf8 "Usuário '" ++ nome_ ++ utf8 "' com email '" ++ email_ ++ utf8 "' cadastrado.".

Definition cadastrado_com_sucesso (nome_ : str) : str :=
  utf8 "Usuário '" ++ nome_ ++ utf8 "' cadastrado com sucesso!".

Definition cadastrar_usuario (nome_ email_ : str) (w : Sistema) : (Exn + bool) * Sistema :=
  if negb (validar_nome nome_) then
    (inr false, mensagem_erro nome_invalido w)
  else if negb (validar_email email_) then
    (inr false, mensagem_erro email_invalido w)
  else if email_cadastrado email_ (usuarios w) then
    (inr false, mensagem_erro email_duplicado w)
  else
    let usuario := mkUsuario (PyStr nome_) (PyStr email_) in
    let w1 := set_usuarios (usuarios w ++ [usuario]) w in
    retornar true
      (depois (salvar_usuarios formato_csv w1) (fun w2 =>
       depois (log_event (log_cadastrado nome_ email_) w2) (fun w3 =>
       (None, mensagem_sucesso (cadastrado_com_sucesso nome_) w3)))).

(** The [for] loop up to the first [usuario] with [usuario.email == email]:
    its position and the object. *)
Fixpoint procurar (email_ : str) (us : list Usuario) : option (nat * Usuario) :=
  match us with
  | [] => None
  | usuario :: rest =>
      if val_eqb (email usuario) email_ then Some (O, usuario)
      else match procurar email_ rest with
           | Some (i, u) => Some (S i, u)
           | None => None
           end
  end.

(** [self.usuarios.remove(usuario)] for the object at position [i]. *)
Definition remover (i : nat) (us : list Usuario) : list Usuario :=
  firstn i us ++ skipn (S i) us.

(** Assignment to the attributes of the object at position [i]. *)
Definition substituir (i : nat) (u : Usuario) (us : list Usuario) : list Usuario :=
  firstn i us ++ u :: skipn (S i) us.

(** The messages of [apagar_usuario] and [atualizar_usuario]. *)
Definition nao_encontrado (email_ : str) : str :=
  utf8 "Nenhum usuário encontrado com o email '" ++ email_ ++ utf8 "'.".

Definition log_removido (email_ : str) : str :=
  utf8 "Usuário com email '" ++ email_ ++ utf8 "' removido.".

Definition removido_com_sucesso (email_ : str) : str :=
  utf8 "Usuário com email '" ++ email_ ++ utf8 "' removido com sucesso!".

Definition log_atualizado (email_ : str) (usuario : Usuario) : str :=
  utf8 "Usuário com email '" ++ email_ ++ utf8 "' atualizado para nome '"
    ++ fmt (nome usuario) ++ utf8 "' e email '" ++ fmt (email usuario) ++ utf8 "'.".

Definition atualizado_com_sucesso (email_ : str) : str :=
  utf8 "Usuário com email '" ++ email_ ++ utf8 "' atualizado com sucesso!".

Definition apagar_usuario (email_ : str) (w : Sistema) : option Exn * Sistema :=
  match procurar email_ (usuarios w) with
  | Some (i, _) =>
      let w1 := set_usuarios (remover i (usuarios w)) w in
      depois (salvar_usuarios formato_csv w1) (fun w2 =>
      depois (log_event (log_removido email_) w2) (fun w3 =>
      (None, mensagem_sucesso (removido_com_sucesso email_) w3)))
  | None => (None, mensagem_erro (nao_encontrado email_) w)
  end.

(** [novo and validar(novo)]: the optional argument is given, is not the
    empty string and passes the validation. *)
Definition aceito (validar : str -> bool) (novo : option str) : bool :=
  match novo with
  | None => false
  | Some s => Str.truthy s && validar s
  end.

(** The two conditional assignments to [usuario.nome] and [usuario.email]. *)
Definition atualizado (novo_nome novo_email : option str) (usuario : Usuario) : Usuario :=
  let u1 := match novo_nome with
            | Some s => if aceito validar_nome novo_nome
                        then mkUsuario (PyStr s) (email usuario) else usuario
            | None => usuario
            end in
  match novo_email with
  | Some s => if aceito validar_email novo_email
              then mkUsuario (nome u1) (PyStr s) else u1
  | None => u1
  end.

Definition atualizar_usuario (email_ : str) (novo_nome novo_email : option str) (w : Sistema)
  : option Exn * Sistema :=
  match procurar email_ (usuarios w) with
  | Some (i, usuario) =>
      let usuario' := atualizado novo_nome novo_email usuario in
      let w1 := set_usuarios (substituir i usuario' (usuarios w)) w in
      depois (salvar_usuarios formato_csv w1) (fun w2 =>
      depois (log_event (log_atualizado email_ usuario') w2) (fun w3 =>
      (None, mensagem_sucesso (atualizado_com_sucesso email_) w3)))
  | None => (None, mensagem_erro (nao_encontrado email_) w)
  end.

(* ================================================================= *)
(** ** Random users *)

(** [random.choice(xs)]: the element at a random index below [len(xs)]. *)
Definition random_choice {A} (d : A) (xs : list A) (w : Sistema) : A * Sistema :=
  (nth (Nat.modulo (rnd w (cursor w)) (List.length xs)) xs d, set_cursor (S (cursor w)) w).

(** [random.choices(xs, k=k)] *)
Fixpoint random_choices {A} (d : A) (xs : list A) (k : nat) (w : Sistema) : list A * Sistema :=
  match k with
  | O => ([], w)
  | S k' =>
      let (x, w1) := random_choice d xs w in
      let (r, w2) := random_choices d xs k' w1 in
      (x :: r, w2)
  end.

Definition nomes : list str :=
  List.map utf8 ["Ana"; "João"; "Maria"; "Pedro"; "Lucas"; "Fernanda"; "Juliana"; "Carlos"]%string.

Definition sobrenomes : list str :=
  List.map utf8 ["Silva"; "Souza"; "Oliveira"; "Santos"; "Pereira"; "Lima"; "Eduarda";
                 "Miguel"; "Guilherme"; "Batata"]%string.

(** [string.ascii_lowercase] *)
Definition ascii_lowercase : str := utf8 "abcdefghijklmnopqrstuvwxyz".

Definition gerar_nome_aleatorio (w : Sistema) : str * Sistema :=
  let (n, w1) := random_choice [] nomes w in
  let (s, w2) := random_choice [] sobrenomes w1 in
  (n ++ utf8 " " ++ s, w2).

Definition gerar_email_aleatorio (nome_ : str) (w : Sistema) : str * Sistema :=
  let (letras, w1) := random_choices 0 ascii_lowercase 5 w in
  let dominio := letras ++ utf8 "gmail.com" in
  let nome_usuario := Str.lower (Str.replace_char (chr " ") (chr ".") nome_) in
  (nome_usuario ++ utf8 "@" ++ dominio, w1).

(** The [while] loop of [gerar_usuario_aleatorio], for at most [fuel]
    further draws of an email; [None] when the loop is still running
    after them. *)
Fixpoint sortear_email (fuel : nat) (nome_ email_ : str) (w : Sistema) : option (str * Sistema) :=
  if email_cadastrado email_ (usuarios w) then
    match fuel with
    | O => None
    | S fuel' =>
        let (email', w1) := gerar_email_aleatorio nome_ w in
        sortear_email fuel' nome_ email' w1
    end
  else Some (email_, w).

(** [gerar_usuario_aleatorio()]: [None] when the loop is still running
    after its fuel, and otherwise what the call of [cadastrar_usuario]
    gives, without its value. *)
Definition gerar_usuario_aleatorio (fuel : nat) (w : Sistema) : option (option Exn * Sistema) :=
  let (nome_, w1) := gerar_nome_aleatorio w in
  let (email_, w2) := gerar_email_aleatorio nome_ w1 in
  match sortear_email fuel nome_ email_ w2 with
  | Some (email', w3) => Some (descartar (cadastrar_usuario nome_ email' w3))
  | None => None
  end.

(* ================================================================= *)
(** ** Shape of an accepted email *)

(** [local@domain.tld], then nothing or one final newline. *)
Definition forma_email (s : str) : Prop :=
  exists l d t fim,
    s = l ++ chr "@" :: d ++ chr "." :: t ++ fim
    /\ (1 <= List.length l)%nat /\ forallb (Sre.in_set set_local) l = true
    /\ (1 <= List.length d)%nat /\ forallb (Sre.in_set set_domain) d = true
    /\ (2 <= List.length t)%nat /\ forallb (Sre.in_set set_alpha) t = true
    /\ (fim = [] \/ fim = [10]).

Definition is_nil (s : str) : bool := match s with [] => true | _ => false end.

(** Pairwise-distinct emails. *)
Definition emails (us : list Usuario) : list PyVal := List.map email us.

Definition emails_distintos (us : list Usuario) : Prop := NoDup (emails us).

(** The configured file of the format does not exist. *)
Definition arquivo_ausente (formato : str) (w : Sistema) : Prop :=
  (formato = formato_csv /\ arq_csv w = Absent)
  \/ (formato = formato_json /\ arq_json w = JAbsent).

(** The configured file of the format exists and reading it raises [e]. *)
Definition leitura_falha (formato : str) (w : Sistema) (e : Exn) : Prop :=
  (formato = formato_csv
   /\ (arq_csv w = Broken e \/ exists content, arq_csv w = Text content /\ csv_load content = inl e))
  \/ (formato = formato_json /\ arq_json w = JRaises e).

(** The first record with the email, between the records before and after it. *)
Definition primeiro_com_email (email_ : str) (us antes : list Usuario) (u : Usuario)
           (depois : list Usuario) : Prop :=
  us = antes ++ u :: depois
  /\ (forall x, In x antes -> email x <> PyStr email_)
  /\ email u = PyStr email_.

Definition sem_email (email_ : str) (us : list Usuario) : Prop :=
  forall x, In x us -> email x <> PyStr email_.

(** A field the CSV file gives back as it was written: a string with no
    carriage return, within the field limit of the reader. *)
Definition campo_fiel (v : PyVal) : Prop :=
  exists s, v = PyStr s /\ ~ In Csv.CR s
            /\ (N.of_nat (List.length s) <= Csv.field_limit)%N.

Definition registro_fiel (u : Usuario) : Prop :=
  campo_fiel (nome u) /\ campo_fiel (email u).

(** A record whose row the CSV file accepts: no surrogate in its fields. *)
Definition registro_codificavel (u : Usuario) : Prop :=
  codificavel (Csv.field_text (nome u)) = true
  /\ codificavel (Csv.field_text (email u)) = true.

(** The message of the exception, if there is one, can be written to the log. *)
Definition erro_codificavel (o : option Exn) : Prop :=
  forall e, o = Some e -> codificavel (exn_str e) = true.

(** The three statements that end a registration, a removal and an update:
    [self.salvar_usuarios()], [self.log_event(registro)] and
    [self.mensagem_sucesso(sucesso)]. *)
Definition concluir (registro sucesso : str) (w : Sistema) : option Exn * Sistema :=
  depois (salvar_usuarios formato_csv w) (fun w2 =>
  depois (log_event registro w2) (fun w3 =>
  (None, mensagem_sucesso sucesso w3))).

(** The world after them when nothing fails: the file holds the table of
    the list, the log has one line more and the success is printed. *)
Definition concluido (registro sucesso : str) (w : Sistema) : Sistema :=
  mensagem_sucesso sucesso
    (set_log (log w ++ [registro]) (set_arq_csv (Text (csv_dump (usuarios w))) w)).

(** The reader over a stretch of text inside a record: every character, and
    the end of the line after each line feed; [None] when the machine raises
    or completes a record within the stretch. *)
Fixpoint feed_text (r : Csv.reader) (x : str) : option Csv.reader :=
  match x with
  | [] => Some r
  | c :: x' =>
      match Csv.parse_process_char r (Csv.Ch c) with
      | inl _ => None
      | inr r1 =>
          if c =? Csv.LF then
            match Csv.parse_process_char r1 Csv.EOL with
            | inl _ => None
            | inr r2 =>
                if Csv.state_eqb (Csv.st r2) Csv.START_RECORD then None
                else feed_text r2 x'
            end
          else feed_text r1 x'
      end
  end.

(** The text of a row as the reader sees it, before its line feed. *)
Definition linha (n e : str) : str :=
  Csv.write_field n ++ Csv.delimiter :: Csv.write_field e.

(** The machine after the text of a field [s]: ready for a delimiter or
    the end of the row. *)
Inductive campo_lido (fs : list str) (s : str) : Csv.reader -> Prop :=
| lido_vazio : s = [] -> campo_lido fs s (Csv.mkReader Csv.START_FIELD fs [])
| lido_simples : campo_lido fs s (Csv.mkReader Csv.IN_FIELD fs s)
| lido_aspas : campo_lido fs s (Csv.mkReader Csv.QUOTE_IN_QUOTED_FIELD fs s).

(** The rows of a list as the reader sees them. *)
Definition texto (us : list Usuario) : str :=
  flat_map (fun u => linha (Csv.field_text (nome u)) (Csv.field_text (email u)) ++ [Csv.LF]) us.

(* ================================================================= *)
(** ** Listing and search *)

(** [format(s, '<30')]: the string, padded with spaces on the right up to
    the width; a longer string is left as it is. *)
Definition ljust (width : nat) (s : str) : str :=
  s ++ repeat (chr " ") (width - List.length s).

(** [f"{v:<30}"]; [None] does not take a format specification. *)
Definition formatar (v : PyVal) : Exn + str :=
  match v with
  | PyStr s => inr (ljust 30 s)
  | PyNone => inl (OtherError (utf8 "unsupported format string passed to NoneType.__format__"))
  end.

Definition separador : str := utf8 " | ".

(** [f"{usuario.nome:<30} | {usuario.email:<30}"] *)
Definition linha_tabela (usuario : Usuario) : Exn + str :=
  n <- formatar (nome usuario) ;;
  e <- formatar (email usuario) ;;
  inr (n ++ separador ++ e).

Definition nenhum_cadastrado : str := utf8 "Nenhum usuário cadastrado.".

(** The three lines printed above the rows. *)
Definition cabecalho_tabela : list str :=
  [ [10] ++ utf8 "=== Usuários Cadastrados ===";
    ljust 30 Nome ++ separador ++ ljust 30 Email;
    repeat (chr "-") 62 ].

(** The [for] loop of [listar_usuarios]: a line per record, up to the
    first record whose line cannot be formatted. *)
Fixpoint listar_linhas (us : list Usuario) (w : Sistema) : option Exn * Sistema :=
  match us with
  | [] => (None, w)
  | usuario :: rest =>
      match linha_tabela usuario with
      | inl e => (Some e, w)
      | inr l => listar_linhas rest (print l w)
      end
  end.

(** [listar_usuarios()]: the exception that leaves the method, if one
    does, and the world after. *)
Definition listar_usuarios (w : Sistema) : option Exn * Sistema :=
  match usuarios w with
  | [] => (None, print nenhum_cadastrado w)
  | _ :: _ =>
      listar_linhas (usuarios w) (fold_left (fun w' l => print l w') cabecalho_tabela w)
  end.

(** [a.startswith(b)] and [b in a] on strings. *)
Fixpoint comeca_com (b a : str) : bool :=
  match b, a with
  | [], _ => true
  | x :: b', y :: a' => (x =? y) && comeca_com b' a'
  | _ :: _, [] => false
  end.

Fixpoint contido (b a : str) : bool :=
  comeca_com b a
  || match a with
     | [] => false
     | _ :: a' => contido b a'
     end.

Definition sem_lower : Exn :=
  OtherError (utf8 "'NoneType' object has no attribute 'lower'").

Definition resultados_da_busca (criterio : str) : str :=
  [10] ++ utf8 "=== Resultados da Busca por '" ++ criterio ++ utf8 "' ===".

Definition usuario_encontrado (usuario : Usuario) : str :=
  utf8 "Usuário encontrado: Nome: " ++ fmt (nome usuario)
    ++ utf8 ", Email: " ++ fmt (email usuario).

Definition nao_encontrado_com (criterio : str) : str :=
  utf8 "Nenhum usuário encontrado com '" ++ criterio ++ utf8 "'.".

Section Busca.
(** [str.lower], over all of Unicode, is a parameter of the search. *)
Variable lower : str -> str.

(** [v.lower()] *)
Definition lower_de (v : PyVal) : Exn + str :=
  match v with
  | PyStr s => inr (lower s)
  | PyNone => inl sem_lower
  end.

(** [criterio.lower() in usuario.nome.lower() or
     criterio.lower() in usuario.email.lower()] *)
Definition criterio_casa (criterio : str) (usuario : Usuario) : Exn + bool :=
  n <- lower_de (nome usuario) ;;
  if contido (lower criterio) n then inr true
  else e <- lower_de (email usuario) ;; inr (contido (lower criterio) e).

(** The list comprehension of [buscar_usuario]. *)
Fixpoint encontrados (criterio : str) (us : list Usuario) : Exn + list Usuario :=
  match us with
  | [] => inr []
  | usuario :: rest =>
      b <- criterio_casa criterio usuario ;;
      r <- encontrados criterio rest ;;
      inr (if b then usuario :: r else r)
  end.

Definition buscar_usuario (criterio : str) (w : Sistema) : option Exn * Sistema :=
  match encontrados criterio (usuarios w) with
  | inl e => (Some e, w)
  | inr [] => (None, mensagem_erro (nao_encontrado_com criterio) w)
  | inr achados =>
      (None, fold_left (fun w' u => print (usuario_encontrado u) w') achados
               (print (resultados_da_busca criterio) w))
  end.

End Busca.

(** Both attributes of the record are strings. *)
Definition todos_texto (u : Usuario) : Prop :=
  (exists n, nome u = PyStr n) /\ (exists e, email u = PyStr e).

(** The line of the table for a record whose attributes are strings. *)
Definition linha_de (u : Usuario) : str :=
  ljust 30 (Csv.field_text (nome u)) ++ separador ++ ljust 30 (Csv.field_text (email u)).

(** The world after printing the lines one after the other. *)
Definition imprimir_todas (ls : list str) (w : Sistema) : Sistema :=
  fold_left (fun w' l => print l w') ls w.

(** The test of the search on a record whose attributes are strings. *)
Definition casa_texto (lower : str -> str) (criterio : str) (u : Usuario) : bool :=
  contido (lower criterio) (lower (Csv.field_text (nome u)))
  || contido (lower criterio) (lower (Csv.field_text (email u))).

(* ================================================================= *)
(** ** Sequences of calls *)

(** A call to one of the methods that change the list. *)
Inductive operacao :=
| Cadastrar (nome_ email_ : str)
| Apagar (email_ : str)
| Atualizar (email_ : str) (novo_nome novo_email : option str)
| Gerar (fuel : nat).

(** What the call gives and the world after it; [None] when the loop of
    [gerar_usuario_aleatorio] is still running after its fuel. *)
Definition executar (o : operacao) (w : Sistema) : option (option Exn * Sistema) :=
  match o with
  | Cadastrar nome_ email_ => Some (descartar (cadastrar_usuario nome_ email_ w))
  | Apagar email_ => Some (apagar_usuario email_ w)
  | Atualizar email_ novo_nome novo_email =>
      Some (atualizar_usuario email_ novo_nome novo_email w)
  | Gerar fuel => gerar_usuario_aleatorio fuel w
  end.

(** The calls one after the other, up to the first one that raises (or
    that does not end). *)
Fixpoint executar_todas (os : list operacao) (w : Sistema) : option (option Exn * Sistema) :=
  match os with
  | [] => Some (None, w)
  | o :: rest =>
      match executar o w with
      | Some (None, w') => executar_todas rest w'
      | Some (Some e, w') => Some (Some e, w')
      | None => None
      end
  end.

(** The CSV file holds the table of the list in memory. *)
Definition sincronizado (w : Sistema) : Prop :=
  arq_csv w = Text (csv_dump (usuarios w)).

(** A call that leaves every email as it is or registers a new record:
    any call but an update that assigns an email. *)
Definition sem_novo_email (o : operacao) : Prop :=
  match o with
  | Atualizar _ _ novo_email => aceito validar_email novo_email = false
  | _ => True
  end.

(** A call whose name, if it has one, holds no surrogate. *)
Definition operacao_codificavel (o : operacao) : Prop :=
  match o with
  | Cadastrar nome_ _ => codificavel nome_ = true
  | Atualizar _ (Some novo_nome) _ => codificavel novo_nome = true
  | _ => True
  end.

(* ================================================================= *)
(** ** The menu

    Standard input is the list of the lines still to be read; [input]
    writes its prompt (recorded in [saida] like a printed line) and takes
    the first line, or raises [EOFError] when there is none. *)

Definition EOFError : Exn := OtherError (utf8 "EOF when reading a line").

(** How a run of the menu ends: option 7, an exception that nothing
    catches, or the loop of [gerar_usuario_aleatorio] still running after
    its fuel. *)
Inductive Fim :=
| Saiu (w : Sistema)
| Levantou (e : Exn) (w : Sistema)
| EmLaco (w : Sistema).

Definition fim_mundo (f : Fim) : Sistema :=
  match f with
  | Saiu w => w
  | Levantou _ w => w
  | EmLaco w => w
  end.

(** [x = input(prompt)], then the rest [k]. *)
Definition ler {A} (prompt : str) (entrada : list str) (w : Sistema)
           (k : str -> list str -> Sistema -> Fim + A) : Fim + A :=
  match entrada with
  | [] => inl (Levantou EOFError (print prompt w))
  | linha_ :: resto => k linha_ resto (print prompt w)
  end.

(** [s.strip() or None] *)
Definition strip_ou_none (s : str) : option str :=
  match Str.strip s with
  | [] => None
  | t => Some t
  end.

Definition titulo_menu : str := [10] ++ utf8 "=== Sistema de Cadastro ===".

(** [f"{key}. {value}"] for the entries of [options], in their order. *)
Definition opcoes : list str :=
  List.map utf8 ["1. Cadastrar usuário"; "2. Listar usuários"; "3. Apagar usuário";
                 "4. Buscar usuário"; "5. Atualizar usuário";
                 "6. Gerar um usuário aleatório"; "7. Sair"]%string.

Definition pede_opcao : str := utf8 "Escolha uma opção: ".
Definition pede_nome : str := utf8 "Digite o seu nome: ".
Definition pede_email : str := utf8 "Digite o seu email: ".
Definition pede_email_remover : str := utf8 "Digite o email do usuário a ser removido: ".
Definition pede_criterio : str := utf8 "Digite o nome ou email para buscar: ".
Definition pede_email_atualizar : str := utf8 "Digite o email do usuário a ser atualizado: ".
Definition pede_novo_nome : str := utf8 "Digite o novo nome (deixe vazio para não alterar): ".
Definition pede_novo_email : str := utf8 "Digite o novo email (deixe vazio para não alterar): ".
Definition saindo : str := utf8 "Saindo do sistema...".
Definition opcao_invalida : str := utf8 "Erro: Opção inválida! Tente novamente.".

(** A call of the loop: an exception that leaves it ends the run. *)
Definition chamar (r : option Exn * Sistema) (resto : list str) : Fim + (list str * Sistema) :=
  match r with
  | (Some e, w) => inl (Levantou e w)
  | (None, w) => inr (resto, w)
  end.

Section Menu.
Variable lower : str -> str.
(** The fuel of each call to [gerar_usuario_aleatorio]. *)
Variable fuel : nat.

(** One turn of the [while True] loop: the end of the run, or the input
    left and the world for the next turn. *)
Definition menu_passo (entrada : list str) (w : Sistema) : Fim + (list str * Sistema) :=
  ler pede_opcao entrada (imprimir_todas (titulo_menu :: opcoes) w)
    (fun escolha r1 w1 =>
       if Str.eqb escolha (utf8 "1") then
         ler pede_nome r1 w1 (fun nome_ r2 w2 =>
         ler pede_email r2 w2 (fun email_ r3 w3 =>
         chamar (descartar (cadastrar_usuario nome_ email_ w3)) r3))
       else if Str.eqb escolha (utf8 "2") then
         chamar (depois (descartar (carregar_usuarios formato_csv w1)) listar_usuarios) r1
       else if Str.eqb escolha (utf8 "3") then
         ler pede_email_remover r1 w1 (fun email_ r2 w2 =>
         chamar (apagar_usuario email_ w2) r2)
       else if Str.eqb escolha (utf8 "4") then
         ler pede_criterio r1 w1 (fun criterio r2 w2 =>
         chamar (buscar_usuario lower criterio w2) r2)
       else if Str.eqb escolha (utf8 "5") then
         ler pede_email_atualizar r1 w1 (fun email_ r2 w2 =>
         ler pede_novo_nome r2 w2 (fun novo_nome r3 w3 =>
         ler pede_novo_email r3 w3 (fun novo_email r4 w4 =>
         chamar (atualizar_usuario email_ (strip_ou_none novo_nome)
                   (strip_ou_none novo_email) w4) r4)))
       else if Str.eqb escolha (utf8 "6") then
         match gerar_usuario_aleatorio fuel w1 with
         | Some r => chamar r r1
         | None => inl (EmLaco w1)
         end
       else if Str.eqb escolha (utf8 "7") then
         inl (Saiu (print saindo w1))
       else inr (r1, print opcao_invalida w1)).

(** The loop, for at most [passos] turns. *)
Fixpoint menu_laco (passos : nat) (entrada : list str) (w : Sistema) : Fim :=
  match passos with
  | O => EmLaco w
  | S p =>
      match menu_passo entrada w with
      | inl f => f
      | inr (entrada', w') => menu_laco p entrada' w'
      end
  end.

(** [menu(sistema)]: every turn reads a line, so one turn more than the
    lines of the input is enough. *)
Definition menu (entrada : list str) (w : Sistema) : Fim :=
  menu_laco (S (List.length entrada)) entrada w.

(** The main program: a new [SistemaCadastro], [carregar_usuarios()], the menu. *)
Definition principal (entrada : list str) (w : Sistema) : Fim :=
  match carregar_usuarios formato_csv (set_usuarios [] w) with
  | (inl e, w1) => Levantou e w1
  | (inr _, w1) => menu entrada w1
  end.

End Menu.

(** A line of input the CSV file gives back as typed: no carriage return
    and no surrogate, within the field limit of the reader. *)
Definition entrada_fiel (l : str) : Prop :=
  campo_fiel (PyStr l) /\ codificavel l = true.

(** The state a run starts from and keeps: the CSV file and the log can be
    written, the fields of the list can be encoded and come back as
    written, and the file holds the table of the list or does not exist yet
    while the list is empty. *)
Definition estado_fiel (w : Sistema) : Prop :=
  escrita_csv w = None /\ escrita_log w = None
  /\ Forall registro_fiel (usuarios w)
  /\ Forall registro_codificavel (usuarios w)
  /\ (sincronizado w \/ (arq_csv w = Absent /\ usuarios w = [])).

(** The run did not end by an exception other than the end of the input. *)
Definition so_fim_da_entrada (f : Fim) : Prop :=
  match f with
  | Levantou e _ => e = EOFError
  | _ => True
  end.

(** The worlds agree on the list, the CSV file and what can be written. *)
Definition mesmo_estado (w w' : Sistema) : Prop :=
  usuarios w' = usuarios w /\ arq_csv w' = arq_csv w
  /\ escrita_csv w' = escrita_csv w /\ escrita_log w' = escrita_log w.

(** The exception of the reader for a field beyond its limit. *)
Definition campo_grande : Exn :=
  CsvError (utf8 "field larger than field limit (131072)").

(** A line as the iteration over a text file yields it: no carriage
    return, and no line feed but a last one. *)
Definition linha_de_arquivo (l : str) : Prop :=
  exists corpo,
    (l = corpo ++ [Csv.LF] \/ l = corpo)
    /\ Forall (fun c => Csv.is_newline (Csv.Ch c) = false) corpo.

(* ================================================================= *)
(** * Properties *)

(** Literals are compared as they are written, or evaluated by [vm_compute]. *)
Opaque utf8.
Opaque nome_invalido email_invalido email_duplicado.

(** ** Strings *)

Lemma Str_eqb_eq (a b : str) : Str.eqb a b = true <-> a = b.
Proof.
  unfold Str.eqb. destruct (list_eq_dec N.eq_dec a b); split; congruence.
Qed.

Lemma Str_eqb_neq (a b : str) : Str.eqb a b = false <-> a <> b.
Proof.
  unfold Str.eqb. destruct (list_eq_dec N.eq_dec a b); split; congruence.
Qed.

Lemma Str_eqb_refl (a : str) : Str.eqb a a = true.
Proof. now apply Str_eqb_eq. Qed.

Lemma val_eqb_eq (v : PyVal) (s : str) : val_eqb v s = true <-> v = PyStr s.
Proof.
  destruct v as [|x]; simpl.
  - split; discriminate.
  - rewrite Str_eqb_eq. split; congruence.
Qed.

Lemma val_eqb_neq (v : PyVal) (s : str) : val_eqb v s = false <-> v <> PyStr s.
Proof.
  rewrite <- val_eqb_eq. destruct (val_eqb v s); split; congruence.
Qed.

(** ** The matcher *)

Section RepeatFacts.
Variable k : bool -> str -> bool.
Variable ranges : list (N * N).

(** A repetition succeeds when the input splits into a run of the set,
    long enough, and a rest the continuation accepts. *)
Lemma max_repeat_complete (pre : str) :
  forall min start post,
    forallb (Sre.in_set ranges) pre = true ->
    (min <= List.length pre)%nat ->
    k (start && is_nil pre) post = true ->
    Sre.max_repeat k ranges min start (pre ++ post) = true.
Proof.
  induction pre as [|c pre IH]; intros min start post Hall Hlen Hk; simpl in *.
  - assert (min = O) by lia. subst min.
    rewrite andb_true_r in Hk.
    destruct post; simpl; [assumption|]. rewrite Hk. apply orb_true_r.
  - apply andb_true_iff in Hall as [Hc Hall].
    rewrite andb_false_r in Hk.
    destruct min as [|m]; rewrite Hc; simpl.
    + rewrite (IH O false post); auto with arith.
    + apply IH; auto with arith.
Qed.

Lemma max_repeat_sound (s : str) :
  forall min start,
    Sre.max_repeat k ranges min start s = true ->
    exists pre post,
      s = pre ++ post
      /\ forallb (Sre.in_set ranges) pre = true
      /\ (min <= List.length pre)%nat
      /\ k (start && is_nil pre) post = true.
Proof.
  induction s as [|c r IH]; intros min start H; simpl in H.
  - destruct min; [|discriminate].
    exists [], []. rewrite andb_true_r. repeat split; auto.
  - destruct min as [|m].
    + apply orb_true_iff in H as [H|H].
      * apply andb_true_iff in H as [Hc H].
        destruct (IH _ _ H) as (pre & post & -> & Hall & Hlen & Hk).
        exists (c :: pre), post. simpl. rewrite Hc, andb_false_r.
        repeat split; auto with arith.
      * exists [], (c :: r). rewrite andb_true_r. repeat split; auto.
    + apply andb_true_iff in H as [Hc H].
      destruct (IH _ _ H) as (pre & post & -> & Hall & Hlen & Hk).
      exists (c :: pre), post. simpl. rewrite Hc, andb_false_r.
      repeat split; auto with arith.
Qed.
End RepeatFacts.

Lemma at_end_spec (s : str) : Sre.at_end s = true <-> s = [] \/ s = [10].
Proof.
  split.
  - destruct s as [|c [|c' r]]; simpl; auto.
    + destruct c as [|p]; [discriminate|].
      do 4 (destruct p; try discriminate). auto.
    + destruct c as [|p]; [discriminate|].
      do 4 (destruct p; try discriminate).
  - intros [->| ->]; reflexivity.
Qed.

(** The pattern accepts exactly the strings of the shape [forma_email]. *)
Lemma validar_email_spec (s : str) : validar_email s = true <-> forma_email s.
Proof.
  unfold validar_email, Sre.re_match, padrao, forma_email. simpl Sre.run. split.
  - intros H.
    apply max_repeat_sound in H as (l & r1 & -> & Hl & Hll & H).
    destruct r1 as [|x r1]; [discriminate|].
    apply andb_true_iff in H as [Hx H]. apply N.eqb_eq in Hx. subst x.
    apply max_repeat_sound in H as (d & r2 & -> & Hd & Hld & H).
    destruct r2 as [|x r2]; [discriminate|].
    apply andb_true_iff in H as [Hx H]. apply N.eqb_eq in Hx. subst x.
    apply max_repeat_sound in H as (t & fim & -> & Ht & Hlt & H).
    rewrite andb_true_r in H. apply at_end_spec in H.
    exists l, d, t, fim. repeat split; auto.
  - intros (l & d & t & fim & -> & Hll & Hl & Hld & Hd & Hlt & Ht & Hfim).
    apply max_repeat_complete; auto.
    rewrite N.eqb_refl. simpl.
    apply max_repeat_complete; auto.
    rewrite N.eqb_refl. simpl.
    apply max_repeat_complete; auto.
    rewrite andb_true_r. apply at_end_spec. assumption.
Qed.

(** A string accepted by the pattern ends with a letter or with a newline. *)
Lemma validar_email_ultimo (s : str) (c : N) :
  validar_email (s ++ [c]) = true -> c = 10 \/ Sre.in_set set_alpha c = true.
Proof.
  intros H. apply validar_email_spec in H.
  destruct H as (l & d & t & fim & E & _ & _ & _ & _ & Hlt & Ht & [-> | ->]).
  - right. destruct (exists_last (l := t)) as (t' & x & ->).
    { intros ->. simpl in Hlt. lia. }
    rewrite app_nil_r in E.
    change (s ++ [c] = l ++ (chr "@" :: d) ++ (chr "." :: t') ++ [x]) in E.
    rewrite !app_assoc in E. apply app_inj_tail in E as [_ ->].
    rewrite forallb_app in Ht. apply andb_true_iff in Ht as [_ Ht].
    simpl in Ht. now rewrite andb_true_r in Ht.
  - left.
    change (s ++ [c] = l ++ (chr "@" :: d) ++ (chr "." :: t) ++ [10]) in E.
    rewrite !app_assoc in E. now apply app_inj_tail in E as [_ ->].
Qed.

(** Every character of an accepted email is the at sign, a final newline or
    a character of the class of the local part. *)
Lemma validar_email_caracteres (s : str) :
  validar_email s = true ->
  forall c, In c s -> c = 10 \/ c = chr "@" \/ Sre.in_set set_local c = true.
Proof.
  intros H c Hc. apply validar_email_spec in H.
  destruct H as (l & d & t & fim & -> & _ & Hl & _ & Hd & _ & Ht & Hf).
  assert (D : forall x, Sre.in_set set_domain x = true -> Sre.in_set set_local x = true).
  { intros x. unfold Sre.in_set, set_local, set_domain. rewrite !existsb_app.
    intros K. apply orb_true_iff in K as [K|K]; [now rewrite K|].
    cbn [existsb] in *. rewrite !orb_true_iff in K. rewrite !orb_true_iff.
    right. destruct K as [K|[K|K]]; [tauto| |discriminate K]. do 4 right. now left. }
  assert (A : forall x, Sre.in_set set_alpha x = true -> Sre.in_set set_local x = true).
  { intros x. unfold Sre.in_set, set_local, set_alpha, alnum. cbn [existsb app].
    rewrite !orb_true_iff. intros [K|[K|K]]; [tauto|tauto|discriminate K]. }
  rewrite forallb_forall in Hl, Hd, Ht.
  apply in_app_iff in Hc as [Hc|[<-|Hc]]; [auto|auto|].
  apply in_app_iff in Hc as [Hc|[<-|Hc]]; [auto| |].
  - right. right. vm_compute. reflexivity.
  - apply in_app_iff in Hc as [Hc|Hc]; [auto|].
    destruct Hf as [-> | ->]; [destruct Hc|]. destruct Hc as [<-|[]]. now left.
Qed.

Lemma validar_email_sem_cr (s : str) : validar_email s = true -> ~ In Csv.CR s.
Proof.
  intros H Hin. destruct (validar_email_caracteres s H _ Hin) as [E|[E|E]];
    vm_compute in E; discriminate E.
Qed.

(** ** Encoding *)

Lemma codificavel_app (a b : str) :
  codificavel (a ++ b) = codificavel a && codificavel b.
Proof. apply forallb_app. Qed.

Lemma codificavel_cons (c : N) (s : str) :
  codificavel (c :: s) = negb (surrogate c) && codificavel s.
Proof. reflexivity. Qed.

(** A string of characters below 128 can be encoded. *)
Lemma ascii_codificavel (s : str) :
  forallb (fun c => c <? 128) s = true -> codificavel s = true.
Proof.
  intros H. apply forallb_forall. intros c Hc.
  rewrite forallb_forall in H. specialize (H c Hc). apply N.ltb_lt in H.
  unfold surrogate. replace (55296 <=? c) with false; [reflexivity|].
  symmetry. apply N.leb_gt. lia.
Qed.

Lemma digito_ascii (d : N) : d < 16 -> (digito d <? 128) = true.
Proof.
  intros H. unfold digito. apply N.ltb_lt.
  change (chr "0") with 48. change (chr "a") with 97.
  destruct (d <? 10); lia.
Qed.

Lemma numeral_ascii (base : N) (fuel : nat) :
  0 < base -> base <= 16 ->
  forall n, forallb (fun c => c <? 128) (numeral base fuel n) = true.
Proof.
  intros B0 B16. induction fuel as [|f IH]; intros n; [reflexivity|].
  cbn [numeral]. destruct (n <? base) eqn:E.
  - cbn [forallb]. rewrite digito_ascii; [reflexivity|]. apply N.ltb_lt in E. lia.
  - rewrite forallb_app, IH. cbn [forallb]. rewrite digito_ascii; [reflexivity|].
    pose proof (N.mod_upper_bound n base). lia.
Qed.

Lemma decimal_codificavel (n : N) : codificavel (decimal n) = true.
Proof. apply ascii_codificavel. apply numeral_ascii; lia. Qed.

Lemma hex4_codificavel (c : N) : codificavel (hex4 c) = true.
Proof.
  apply ascii_codificavel. unfold hex4. cbn [List.map forallb].
  rewrite !digito_ascii; try reflexivity; apply N.mod_upper_bound; discriminate.
Qed.

(** The message of a [UnicodeEncodeError] can itself be encoded: it shows
    the surrogate by its escape. *)
Lemma unicode_encode_error_codificavel (s : str) :
  codificavel (exn_str (UnicodeEncodeError s)) = true.
Proof.
  cbn [exn_str].
  destruct (surrogates_seguidos (skipn (inicio_do_erro s) s) <=? 1)%nat;
    rewrite !codificavel_app, ?decimal_codificavel, ?hex4_codificavel;
    vm_compute; reflexivity.
Qed.

Lemma set_local_ascii (c : N) : Sre.in_set set_local c = true -> c < 128.
Proof.
  unfold Sre.in_set, set_local, alnum, single. cbn [app existsb fst snd].
  rewrite !orb_true_iff, !andb_true_iff, !N.leb_le.
  change (chr "a") with 97. change (chr "z") with 122.
  change (chr "A") with 65. change (chr "Z") with 90.
  change (chr "0") with 48. change (chr "9") with 57.
  change (chr ".") with 46. change (chr "_") with 95. change (chr "%") with 37.
  change (chr "+") with 43. change (chr "-") with 45.
  lia.
Qed.

(** An accepted email holds no surrogate. *)
Lemma validar_email_codificavel (s : str) :
  validar_email s = true -> codificavel s = true.
Proof.
  intros H. apply ascii_codificavel, forallb_forall. intros c Hc. apply N.ltb_lt.
  destruct (validar_email_caracteres s H c Hc) as [->|[->|E]].
  - reflexivity.
  - reflexivity.
  - now apply set_local_ascii.
Qed.

Lemma codificavel_escape (s : str) : codificavel (Csv.escape s) = codificavel s.
Proof.
  induction s as [|c s IH]; [reflexivity|].
  unfold Csv.escape. cbn [flat_map]. fold (Csv.escape s).
  rewrite codificavel_app, IH, codificavel_cons.
  destruct (c =? Csv.quotechar) eqn:E.
  - apply N.eqb_eq in E. subst c. reflexivity.
  - cbn [codificavel forallb]. now rewrite andb_true_r.
Qed.

Lemma codificavel_write_field (s : str) :
  codificavel (Csv.write_field s) = codificavel s.
Proof.
  unfold Csv.write_field. destruct (existsb Csv.special s); [|reflexivity].
  rewrite codificavel_cons, codificavel_app, codificavel_escape.
  cbn [codificavel forallb]. replace (negb (surrogate Csv.quotechar)) with true by reflexivity.
  cbn [andb]. now rewrite andb_true_r.
Qed.

(** A row can be written exactly when its two fields can be encoded. *)
Lemma codificavel_writerow (a b : PyVal) :
  codificavel (Csv.writerow [a; b])
  = codificavel (Csv.field_text a) && codificavel (Csv.field_text b).
Proof.
  unfold Csv.writerow. cbn [List.map Csv.join].
  rewrite !codificavel_app, codificavel_cons, !codificavel_write_field.
  replace (negb (surrogate Csv.delimiter)) with true by reflexivity.
  replace (codificavel Csv.lineterminator) with true by reflexivity.
  cbn [andb]. now rewrite andb_true_r.
Qed.

Lemma registro_codificavel_writerow (u : Usuario) :
  registro_codificavel u <-> codificavel (Csv.writerow [nome u; email u]) = true.
Proof.
  unfold registro_codificavel. rewrite codificavel_writerow, andb_true_iff. tauto.
Qed.

(** ** Validation of emails *)

(** C3 (as amended).  The pattern is anchored at the start and, by its [$],
    at the end: ["a@b.co"] passes, ["not-an-email"] and ["a@b"] fail, and
    a valid address followed by other text, as ["a@b.com extra"], fails;
    a string passes exactly when it is [local@domain.tld], alone or
    followed by one final newline. *)
Theorem validar_email_ancorado :
  validar_email (utf8 "a@b.co") = true
  /\ validar_email (utf8 "not-an-email") = false
  /\ validar_email (utf8 "a@b") = false
  /\ validar_email (utf8 "a@b.com extra") = false
  /\ (forall s, validar_email s = true <-> forma_email s).
Proof.
  repeat split; try (vm_compute; reflexivity); apply validar_email_spec.
Qed.

Lemma validar_email_ancorado_witness : forma_email (utf8 "a@b.co").
Proof.
  apply (proj2 (proj2 (proj2 (proj2 validar_email_ancorado)))). vm_compute. reflexivity.
Defined.

(** C3 (as stated) fails: the valid prefix ["a@b.com"] is accepted, the
    same prefix followed by [" extra"] is not. *)
Lemma validar_email_rejeita_sufixo :
  validar_email (utf8 "a@b.com") = true
  /\ validar_email (utf8 "a@b.com" ++ utf8 " extra") = false.
Proof. split; vm_compute; reflexivity. Qed.

(** C10 (as amended).  ["a@b.co"] followed by one newline passes; followed
    by any other character it passes exactly when that character is a
    letter (which extends the last label); and no string that ends with a
    character other than a newline or a letter passes. *)
Theorem validar_email_newline_final :
  validar_email (utf8 "a@b.co" ++ [10]) = true
  /\ (forall c, c <> 10 ->
        validar_email (utf8 "a@b.co" ++ [c]) = Sre.in_set set_alpha c)
  /\ (forall s c, c <> 10 -> Sre.in_set set_alpha c = false ->
        validar_email (s ++ [c]) = false).
Proof.
  assert (G : forall s c, c <> 10 -> Sre.in_set set_alpha c = false ->
                          validar_email (s ++ [c]) = false).
  { intros s c Hc Ha. destruct (validar_email (s ++ [c])) eqn:E; [|reflexivity].
    apply validar_email_ultimo in E as [E|E]; congruence. }
  split; [vm_compute; reflexivity|]. split; [|exact G].
  intros c Hc. destruct (Sre.in_set set_alpha c) eqn:Ha.
  - apply validar_email_spec.
    exists (utf8 "a"), (utf8 "b"), (utf8 "co" ++ [c]), [].
    split; [vm_compute; reflexivity|].
    split; [vm_compute; lia|]. split; [vm_compute; reflexivity|].
    split; [vm_compute; lia|]. split; [vm_compute; reflexivity|].
    split.
    { rewrite length_app.
      replace (List.length (utf8 "co")) with 2%nat by (vm_compute; reflexivity).
      cbn [List.length]. lia. }
    split; [|now left].
    rewrite forallb_app. apply andb_true_iff. split; [vm_compute; reflexivity|].
    cbn [forallb]. now rewrite Ha.
  - now apply G.
Qed.

Lemma validar_email_newline_final_witness :
  validar_email (utf8 "a@b.co" ++ [chr "!"]) = false.
Proof.
  apply (proj2 (proj2 validar_email_newline_final) (utf8 "a@b.co") (chr "!"));
    [vm_compute; discriminate | vm_compute; reflexivity].
Defined.

(** C10 (as stated) fails: ["a@b.co"] followed by the letter ["m"], which is
    not a newline, is accepted. *)
Lemma validar_email_aceita_letra_final :
  utf8 "m" <> [10] /\ validar_email (utf8 "a@b.co" ++ utf8 "m") = true.
Proof. split; [vm_compute; discriminate | vm_compute; reflexivity]. Qed.

(** ** The list of users *)

Lemma email_cadastrado_spec (email_ : str) (us : list Usuario) :
  email_cadastrado email_ us = true <-> exists u, In u us /\ email u = PyStr email_.
Proof.
  unfold email_cadastrado. rewrite existsb_exists.
  split; intros (u & Hin & H); exists u; split; auto; now apply val_eqb_eq.
Qed.

Lemma email_cadastrado_false (email_ : str) (us : list Usuario) :
  email_cadastrado email_ us = false <-> sem_email email_ us.
Proof.
  unfold sem_email. split.
  - intros H x Hin E.
    assert (email_cadastrado email_ us = true) by (apply email_cadastrado_spec; eauto).
    congruence.
  - intros H. destruct (email_cadastrado email_ us) eqn:E; [|reflexivity].
    apply email_cadastrado_spec in E as (u & Hin & E). now apply H in Hin.
Qed.

Lemma procurar_primeiro (email_ : str) (antes : list Usuario) :
  forall u depois,
    sem_email email_ antes -> email u = PyStr email_ ->
    procurar email_ (antes ++ u :: depois) = Some (List.length antes, u).
Proof.
  induction antes as [|x antes IH]; intros u depois Hno Hu; simpl.
  - apply val_eqb_eq in Hu. now rewrite Hu.
  - assert (Hx : val_eqb (email x) email_ = false).
    { apply val_eqb_neq. apply Hno. now left. }
    rewrite Hx, IH; auto.
    intros y Hy. apply Hno. now right.
Qed.

Lemma procurar_nenhum (email_ : str) (us : list Usuario) :
  sem_email email_ us -> procurar email_ us = None.
Proof.
  induction us as [|x us IH]; intros Hno; simpl; [reflexivity|].
  assert (Hx : val_eqb (email x) email_ = false).
  { apply val_eqb_neq. apply Hno. now left. }
  rewrite Hx, IH; auto.
  intros y Hy. apply Hno. now right.
Qed.

(** What the loop finds is the first record with the email. *)
Lemma procurar_Some (email_ : str) (us : list Usuario) :
  forall i u, procurar email_ us = Some (i, u) ->
    exists antes depois,
      primeiro_com_email email_ us antes u depois /\ List.length antes = i.
Proof.
  induction us as [|x us IH]; intros i u H; simpl in H; [discriminate|].
  destruct (val_eqb (email x) email_) eqn:Hx.
  - injection H as <- <-. exists [], us.
    split; [|reflexivity]. split; [reflexivity|]. split.
    + intros y [].
    + now apply val_eqb_eq.
  - destruct (procurar email_ us) as [[j v]|] eqn:Hp; [|discriminate].
    injection H as <- <-.
    destruct (IH _ _ eq_refl) as (antes & depois & (-> & Hno & Hu) & <-).
    exists (x :: antes), depois.
    split; [|reflexivity]. split; [reflexivity|]. split; [|assumption].
    intros y [<-|Hy]; [now apply val_eqb_neq | now apply Hno].
Qed.

Lemma procurar_None (email_ : str) (us : list Usuario) :
  procurar email_ us = None -> sem_email email_ us.
Proof.
  induction us as [|x us IH]; intros H y Hy; simpl in *; [contradiction|].
  destruct (val_eqb (email x) email_) eqn:Hx; [discriminate|].
  destruct (procurar email_ us) as [[j v]|] eqn:Hp; [discriminate|].
  destruct Hy as [<-|Hy]; [now apply val_eqb_neq | now apply IH].
Qed.

Lemma remover_meio (antes : list Usuario) (u : Usuario) (depois : list Usuario) :
  remover (List.length antes) (antes ++ u :: depois) = antes ++ depois.
Proof.
  unfold remover.
  induction antes as [|x antes IH]; simpl; [reflexivity|]. now f_equal.
Qed.

Lemma substituir_meio (antes : list Usuario) (u v : Usuario) (depois : list Usuario) :
  substituir (List.length antes) v (antes ++ u :: depois) = antes ++ v :: depois.
Proof.
  unfold substituir.
  induction antes as [|x antes IH]; simpl; [reflexivity|]. now f_equal.
Qed.

(** ** Logging *)

Lemma log_event_ok (message : str) (w : Sistema) :
  escrita_log w = None -> codificavel message = true ->
  log_event message w = (None, set_log (log w ++ [message]) w).
Proof. intros H C. unfold log_event. now rewrite H, C. Qed.

(** [log_event] appends the line, or raises and changes nothing. *)
Lemma log_event_casos (message : str) (w : Sistema) :
  (escrita_log w = None /\ codificavel message = true
   /\ log_event message w = (None, set_log (log w ++ [message]) w))
  \/ (exists e, log_event message w = (Some e, w)
                /\ (escrita_log w = None -> codificavel message = false)).
Proof.
  unfold log_event. destruct (escrita_log w) as [e|] eqn:E.
  - right. exists e. split; [reflexivity|discriminate].
  - destruct (codificavel message) eqn:C.
    + left. auto.
    + right. eexists. split; [reflexivity|auto].
Qed.

(** ** Saving *)

Lemma escrever_linhas (us : list Usuario) :
  Forall registro_codificavel us ->
  escrever (List.map (fun u => Csv.writerow [nome u; email u]) us)
  = (flat_map (fun u => Csv.writerow [nome u; email u]) us, None).
Proof.
  induction 1 as [|u us Hu _ IH]; [reflexivity|].
  cbn [List.map escrever flat_map].
  apply registro_codificavel_writerow in Hu. now rewrite Hu, IH.
Qed.

Lemma cabecalho_codificavel : codificavel (Csv.writerow [PyStr Nome; PyStr Email]) = true.
Proof. vm_compute. reflexivity. Qed.

(** When every record can be encoded, the file receives the whole table. *)
Lemma escrever_tabela (us : list Usuario) :
  Forall registro_codificavel us -> escrever (csv_linhas us) = (csv_dump us, None).
Proof.
  intros H. unfold csv_linhas, csv_dump. cbn [escrever].
  now rewrite cabecalho_codificavel, escrever_linhas.
Qed.

(** What is written is made of rows that can be encoded, and the row that
    stops the writing cannot. *)
Lemma escrever_erro (linhas : list str) (t : str) (e : Exn) :
  escrever linhas = (t, Some e) ->
  exists l, e = UnicodeEncodeError l /\ In l linhas /\ codificavel l = false.
Proof.
  revert t. induction linhas as [|l r IH]; intros t H; cbn [escrever] in H; [discriminate|].
  destruct (codificavel l) eqn:C.
  - destruct (escrever r) as [t' e'] eqn:E. injection H as _ ->.
    destruct (IH _ eq_refl) as (x & -> & Hin & Hx). exists x. repeat split; auto. now right.
  - injection H as _ <-. exists l. repeat split; auto. now left.
Qed.

Lemma salvar_csv (w : Sistema) :
  salvar_usuarios formato_csv w =
  match escrita_csv w with
  | Some e => falha_ao_salvar e w
  | None =>
      let (conteudo, erro) := escrever (csv_linhas (usuarios w)) in
      match erro with
      | Some e => falha_ao_salvar e (set_arq_csv (Text conteudo) w)
      | None => (None, set_arq_csv (Text conteudo) w)
      end
  end.
Proof.
  unfold salvar_usuarios. rewrite Str_eqb_refl.
  destruct (escrita_csv w); [reflexivity|].
  destruct (escrever (csv_linhas (usuarios w))) as [t e]. reflexivity.
Qed.

(** When the file can be written and every record encoded, saving leaves
    the table of the list in the file and does nothing else. *)
Lemma salvar_ok (w : Sistema) :
  escrita_csv w = None -> Forall registro_codificavel (usuarios w) ->
  salvar_usuarios formato_csv w = (None, set_arq_csv (Text (csv_dump (usuarios w))) w).
Proof. intros H C. rewrite salvar_csv, H, escrever_tabela by assumption. reflexivity. Qed.

(** When it cannot be opened, the handler runs and the file is as before. *)
Lemma salvar_falha (w : Sistema) (e : Exn) :
  escrita_csv w = Some e -> salvar_usuarios formato_csv w = falha_ao_salvar e w.
Proof. intros H. rewrite salvar_csv, H. reflexivity. Qed.

(** The handler of [salvar_usuarios] logs and prints, or raises from
    [log_event] and changes nothing. *)
Lemma falha_ao_salvar_casos (e : Exn) (w : Sistema) :
  (escrita_log w = None /\ codificavel (erro_ao_salvar e) = true
   /\ falha_ao_salvar e w
      = (None, print (erro_ao_salvar e) (set_log (log w ++ [erro_ao_salvar e]) w)))
  \/ (exists e', falha_ao_salvar e w = (Some e', w)
                 /\ (escrita_log w = None -> codificavel (erro_ao_salvar e) = false)).
Proof.
  unfold falha_ao_salvar.
  destruct (log_event_casos (erro_ao_salvar e) w) as [(L & C & ->)|(e' & -> & N)].
  - left. auto.
  - right. exists e'. auto.
Qed.

Lemma erro_ao_salvar_codificavel (e : Exn) :
  codificavel (erro_ao_salvar e) = codificavel (exn_str e).
Proof.
  unfold erro_ao_salvar. rewrite codificavel_app.
  replace (codificavel (utf8 "Erro ao salvar usuários: ")) with true by (vm_compute; reflexivity).
  reflexivity.
Qed.

Lemma erro_ao_carregar_codificavel (e : Exn) :
  codificavel (erro_ao_carregar e) = codificavel (exn_str e).
Proof.
  unfold erro_ao_carregar. rewrite codificavel_app.
  replace (codificavel (utf8 "Erro ao carregar usuários: ")) with true
    by (vm_compute; reflexivity).
  reflexivity.
Qed.

(** What saving in the CSV format changes: the file, and the log and the
    output when it fails.  It never touches the list in memory, and what
    can be written stays as it is. *)
Lemma salvar_geral (w : Sistema) :
  let r := salvar_usuarios formato_csv w in
  usuarios (snd r) = usuarios w
  /\ escrita_csv (snd r) = escrita_csv w
  /\ escrita_log (snd r) = escrita_log w
  /\ (log (snd r) = log w \/ exists m, log (snd r) = log w ++ [m] /\ fst r = None)
  /\ (log (snd r) = log w -> fst r = None -> saida (snd r) = saida w)
  /\ (escrita_log w = None -> erro_codificavel (escrita_csv w) -> fst r = None).
Proof.
  cbv zeta. rewrite salvar_csv.
  destruct (escrita_csv w) as [e|] eqn:E.
  - destruct (falha_ao_salvar_casos e w) as [(L & C & ->)|(e' & -> & N)]; cbn [fst snd].
    + cbn [usuarios escrita_csv escrita_log log saida print set_log].
      repeat split; auto.
      * right. eexists. split; reflexivity.
      * intros K. exfalso. apply (f_equal (@List.length str)) in K.
        rewrite length_app in K. cbn [List.length] in K. lia.
    + repeat split; auto. intros L C. specialize (N L).
      rewrite erro_ao_salvar_codificavel, (C e eq_refl) in N. discriminate N.
  - destruct (escrever (csv_linhas (usuarios w))) as [t [e|]] eqn:W.
    + destruct (falha_ao_salvar_casos e (set_arq_csv (Text t) w))
        as [(L & C & ->)|(e' & -> & N)]; cbn [fst snd].
      * cbn [usuarios escrita_csv escrita_log log saida print set_log set_arq_csv].
        repeat split; auto.
        -- right. eexists. split; reflexivity.
        -- intros K. exfalso. apply (f_equal (@List.length str)) in K.
           rewrite length_app in K. cbn [List.length] in K. lia.
      * cbn [usuarios escrita_csv escrita_log log saida set_arq_csv].
        repeat split; auto. intros L _. specialize (N L).
        apply escrever_erro in W as (l & -> & _ & _).
        rewrite erro_ao_salvar_codificavel, unicode_encode_error_codificavel in N.
        discriminate N.
    + cbn [fst snd usuarios escrita_csv escrita_log log saida set_arq_csv].
      repeat split; auto.
Qed.

(** Saving never touches the list in memory. *)
Lemma usuarios_salvar (w : Sistema) :
  usuarios (snd (salvar_usuarios formato_csv w)) = usuarios w.
Proof. apply salvar_geral. Qed.

(** ** The end of a registration, a removal and an update *)

(** When the file and the log can be written and the records and the
    message encoded, the three statements raise nothing: the file holds the
    table, the log has the line and the success is printed. *)
Lemma concluir_ok (registro sucesso : str) (w : Sistema) :
  escrita_csv w = None -> escrita_log w = None ->
  Forall registro_codificavel (usuarios w) -> codificavel registro = true ->
  concluir registro sucesso w = (None, concluido registro sucesso w).
Proof.
  intros Hc Hl Hu Hr. unfold concluir. rewrite salvar_ok by assumption. cbn [depois].
  rewrite log_event_ok by assumption. reflexivity.
Qed.

(** In every case the list in memory and what can be written are as before,
    and the log grows by two lines at most. *)
Lemma concluir_geral (registro sucesso : str) (w : Sistema) :
  let r := concluir registro sucesso w in
  usuarios (snd r) = usuarios w
  /\ escrita_csv (snd r) = escrita_csv w
  /\ escrita_log (snd r) = escrita_log w
  /\ exists l, log (snd r) = log w ++ l /\ (List.length l <= 2)%nat.
Proof.
  cbv zeta. unfold concluir.
  destruct (salvar_geral w) as (U & C & L & G & _).
  destruct (salvar_usuarios formato_csv w) as [[e|] w2]; cbn [fst snd depois] in *.
  - repeat split; auto.
    destruct G as [G|(m & G & _)]; rewrite G; eexists; split;
      [symmetry; apply app_nil_r|cbn [List.length]; lia|reflexivity|cbn [List.length]; lia].
  - destruct (log_event_casos registro w2) as [(_ & _ & ->)|(e & -> & _)];
      cbn [fst snd depois usuarios escrita_csv escrita_log log mensagem_sucesso print set_log].
    + repeat split; auto.
      destruct G as [G|(m & G & _)]; rewrite G, <- ?app_assoc; eexists; split;
        try reflexivity; cbn [List.length app]; lia.
    + repeat split; auto.
      destruct G as [G|(m & G & _)]; rewrite G; eexists; split;
        [symmetry; apply app_nil_r|cbn [List.length]; lia|reflexivity|cbn [List.length]; lia].
Qed.

(** When the file can be written and the records encoded, the file holds
    the table of the list whether or not the log can be written, and the
    log grows by one line at most. *)
Lemma concluir_salva (registro sucesso : str) (w : Sistema) :
  escrita_csv w = None -> Forall registro_codificavel (usuarios w) ->
  let r := concluir registro sucesso w in
  arq_csv (snd r) = Text (csv_dump (usuarios w))
  /\ exists l, log (snd r) = log w ++ l /\ (List.length l <= 1)%nat.
Proof.
  intros Hc Hu. cbv zeta. unfold concluir. rewrite salvar_ok by assumption. cbn [depois].
  destruct (log_event_casos registro (set_arq_csv (Text (csv_dump (usuarios w))) w))
    as [(_ & _ & ->)|(e & -> & _)];
    cbn [fst snd depois arq_csv log mensagem_sucesso print set_log set_arq_csv].
  - split; [reflexivity|]. eexists. split; [reflexivity|cbn [List.length]; lia].
  - split; [reflexivity|]. exists []. split; [symmetry; apply app_nil_r|cbn [List.length]; lia].
Qed.

(** When the log can be written and its lines encoded, the three statements
    return and the last line printed is the success message. *)
Lemma concluir_retorna (registro sucesso : str) (w : Sistema) :
  escrita_log w = None -> erro_codificavel (escrita_csv w) -> codificavel registro = true ->
  let r := concluir registro sucesso w in
  fst r = None
  /\ exists s, saida (snd r) = saida w ++ s ++ [utf8 "Sucesso: " ++ sucesso].
Proof.
  intros Hl He Hr. cbv zeta. unfold concluir.
  destruct (salvar_geral w) as (_ & _ & L & G & S & F). specialize (F Hl He).
  assert (P : exists s, saida (snd (salvar_usuarios formato_csv w)) = saida w ++ s).
  { clear - w. rewrite salvar_csv.
    assert (K : forall e w0, exists s, saida (snd (falha_ao_salvar e w0)) = saida w0 ++ s).
    { intros e w0.
      destruct (falha_ao_salvar_casos e w0) as [(_ & _ & ->)|(e' & -> & _)]; cbn [snd].
      - eexists. reflexivity.
      - exists []. symmetry. apply app_nil_r. }
    destruct (escrita_csv w) as [e|]; [apply K|].
    destruct (escrever (csv_linhas (usuarios w))) as [t [e|]].
    - apply (K e (set_arq_csv (Text t) w)).
    - exists []. symmetry. apply app_nil_r. }
  destruct (salvar_usuarios formato_csv w) as [[e|] w2]; cbn [fst snd depois] in *;
    [discriminate F|].
  rewrite log_event_ok by (try assumption; congruence). cbn [depois fst snd].
  split; [reflexivity|]. destruct P as (s & P). exists s.
  cbn [saida mensagem_sucesso print set_log]. now rewrite P, <- app_assoc.
Qed.

(** When the three statements return, the line was written to the log. *)
Lemma concluir_registrou (registro sucesso : str) (w : Sistema) :
  fst (concluir registro sucesso w) = None ->
  escrita_log w = None /\ codificavel registro = true.
Proof.
  unfold concluir. destruct (salvar_geral w) as (_ & _ & L & _).
  destruct (salvar_usuarios formato_csv w) as [[e|] w2]; cbn [fst snd depois] in *;
    [discriminate|].
  destruct (log_event_casos registro w2) as [(A & B & ->)|(e & -> & _)]; cbn [fst depois].
  - intros _. split; congruence.
  - discriminate.
Qed.

(** The three statements return exactly when the log can be written and
    the line, and the message of a failure to open the CSV file, encoded. *)
Lemma concluir_retorna_sse (registro sucesso : str) (w : Sistema) :
  fst (concluir registro sucesso w) = None
  <-> escrita_log w = None /\ codificavel registro = true
      /\ erro_codificavel (escrita_csv w).
Proof.
  split.
  - intros F. destruct (concluir_registrou _ _ _ F) as [L R].
    split; [exact L|]. split; [exact R|]. intros e E.
    unfold concluir in F. rewrite (salvar_falha w e E) in F.
    destruct (falha_ao_salvar_casos e w) as [(_ & C & _)|(e' & K & _)].
    + now rewrite erro_ao_salvar_codificavel in C.
    + rewrite K in F. cbn [depois fst] in F. discriminate F.
  - intros (L & R & C). exact (proj1 (concluir_retorna registro sucesso w L C R)).
Qed.

(** A block either returns or raises. *)
Lemma retornar_ou_levantar {A} (v : A) (r : option Exn * Sistema) :
  fst (retornar v r) = inr v \/ exists e, fst (retornar v r) = inl e.
Proof. destruct r as [[e|] w]; [right; now exists e|left; reflexivity]. Qed.

(** ** Messages *)

Lemma mensagem_erro_inj (m1 m2 : str) (w : Sistema) :
  mensagem_erro m1 w = mensagem_erro m2 w -> m1 = m2.
Proof.
  intros H. apply (f_equal saida) in H. simpl in H.
  apply app_inv_head in H. injection H as H. exact H.
Qed.

Lemma usuarios_mensagem_erro (m : str) (w : Sistema) :
  usuarios (mensagem_erro m w) = usuarios w.
Proof. reflexivity. Qed.

Lemma log_cadastrado_codificavel (nome_ email_ : str) :
  codificavel (log_cadastrado nome_ email_) = codificavel nome_ && codificavel email_.
Proof.
  unfold log_cadastrado. rewrite !codificavel_app.
  replace (codificavel (utf8 "Usuário '")) with true by (vm_compute; reflexivity).
  replace (codificavel (utf8 "' com email '")) with true by (vm_compute; reflexivity).
  replace (codificavel (utf8 "' cadastrado.")) with true by (vm_compute; reflexivity).
  cbn [andb]. now rewrite andb_true_r.
Qed.

Lemma log_removido_codificavel (email_ : str) :
  codificavel (log_removido email_) = codificavel email_.
Proof.
  unfold log_removido. rewrite !codificavel_app.
  replace (codificavel (utf8 "Usuário com email '")) with true by (vm_compute; reflexivity).
  replace (codificavel (utf8 "' removido.")) with true by (vm_compute; reflexivity).
  cbn [andb]. now rewrite andb_true_r.
Qed.

Lemma fmt_codificavel (v : PyVal) :
  codificavel (Csv.field_text v) = true -> codificavel (fmt v) = true.
Proof. destruct v as [|s]; [intros _; vm_compute; reflexivity|exact (fun H => H)]. Qed.

Lemma log_atualizado_codificavel_eq (email_ : str) (u : Usuario) :
  codificavel (log_atualizado email_ u)
  = codificavel email_ && (codificavel (fmt (nome u)) && codificavel (fmt (email u))).
Proof.
  unfold log_atualizado. rewrite !codificavel_app.
  replace (codificavel (utf8 "Usuário com email '")) with true by (vm_compute; reflexivity).
  replace (codificavel (utf8 "' atualizado para nome '")) with true
    by (vm_compute; reflexivity).
  replace (codificavel (utf8 "' e email '")) with true by (vm_compute; reflexivity).
  replace (codificavel (utf8 "'.")) with true by (vm_compute; reflexivity).
  cbn [andb]. now rewrite andb_true_r.
Qed.

Lemma log_atualizado_codificavel (email_ : str) (u : Usuario) :
  codificavel email_ = true -> registro_codificavel u ->
  codificavel (log_atualizado email_ u) = true.
Proof.
  intros He [Hn Hm]. rewrite log_atualizado_codificavel_eq.
  now rewrite He, (fmt_codificavel _ Hn), (fmt_codificavel _ Hm).
Qed.

(** ** create *)

Lemma snd_retornar {A} (v : A) (r : option Exn * Sistema) : snd (retornar v r) = snd r.
Proof. destruct r as [[e|] w]; reflexivity. Qed.

Lemma fst_retornar {A} (v v' : A) (r : option Exn * Sistema) :
  fst (retornar v r) = inr v' <-> fst r = None /\ v = v'.
Proof.
  destruct r as [[e|] w]; cbn [retornar fst]; split.
  - discriminate.
  - intros [H _]. discriminate H.
  - intros H. injection H as <-. auto.
  - intros [_ ->]. reflexivity.
Qed.

Lemma cadastrar_nome_invalido (nome_ email_ : str) (w : Sistema) :
  validar_nome nome_ = false ->
  cadastrar_usuario nome_ email_ w = (inr false, mensagem_erro nome_invalido w).
Proof. intros H. unfold cadastrar_usuario. rewrite H. reflexivity. Qed.

Lemma cadastrar_email_invalido (nome_ email_ : str) (w : Sistema) :
  validar_nome nome_ = true -> validar_email email_ = false ->
  cadastrar_usuario nome_ email_ w = (inr false, mensagem_erro email_invalido w).
Proof. intros H1 H2. unfold cadastrar_usuario. rewrite H1, H2. reflexivity. Qed.

Lemma cadastrar_email_duplicado (nome_ email_ : str) (w : Sistema) :
  validar_nome nome_ = true -> validar_email email_ = true ->
  email_cadastrado email_ (usuarios w) = true ->
  cadastrar_usuario nome_ email_ w = (inr false, mensagem_erro email_duplicado w).
Proof. intros H1 H2 H3. unfold cadastrar_usuario. rewrite H1, H2, H3. reflexivity. Qed.

(** After the three checks the record is appended and the method ends by
    saving, logging and reporting success. *)
Lemma cadastrar_sucesso (nome_ email_ : str) (w : Sistema) :
  validar_nome nome_ = true -> validar_email email_ = true ->
  email_cadastrado email_ (usuarios w) = false ->
  cadastrar_usuario nome_ email_ w =
  retornar true
    (concluir (log_cadastrado nome_ email_) (cadastrado_com_sucesso nome_)
       (set_usuarios (usuarios w ++ [mkUsuario (PyStr nome_) (PyStr email_)]) w)).
Proof. intros H1 H2 H3. unfold cadastrar_usuario. rewrite H1, H2, H3. reflexivity. Qed.

(** The four ways through [cadastrar_usuario]. *)
Lemma cadastrar_casos (nome_ email_ : str) (w : Sistema) :
  (validar_nome nome_ = false
   /\ cadastrar_usuario nome_ email_ w = (inr false, mensagem_erro nome_invalido w))
  \/ (validar_nome nome_ = true /\ validar_email email_ = false
      /\ cadastrar_usuario nome_ email_ w = (inr false, mensagem_erro email_invalido w))
  \/ (validar_nome nome_ = true /\ validar_email email_ = true
      /\ email_cadastrado email_ (usuarios w) = true
      /\ cadastrar_usuario nome_ email_ w = (inr false, mensagem_erro email_duplicado w))
  \/ (validar_nome nome_ = true /\ validar_email email_ = true
      /\ email_cadastrado email_ (usuarios w) = false
      /\ fst (cadastrar_usuario nome_ email_ w) <> inr false
      /\ usuarios (snd (cadastrar_usuario nome_ email_ w))
         = usuarios w ++ [mkUsuario (PyStr nome_) (PyStr email_)]).
Proof.
  destruct (validar_nome nome_) eqn:H1.
  2:{ left. split; auto. now apply cadastrar_nome_invalido. }
  destruct (validar_email email_) eqn:H2.
  2:{ right. left. repeat split; auto. now apply cadastrar_email_invalido. }
  destruct (email_cadastrado email_ (usuarios w)) eqn:H3.
  { right. right. left. repeat split; auto. now apply cadastrar_email_duplicado. }
  right. right. right. rewrite cadastrar_sucesso by assumption.
  repeat split; auto.
  - intros F. apply fst_retornar in F as [_ F]. discriminate F.
  - rewrite snd_retornar. apply concluir_geral.
Qed.

Lemma usuarios_cadastrar_sucesso (nome_ email_ : str) (w : Sistema) :
  validar_nome nome_ = true -> validar_email email_ = true ->
  sem_email email_ (usuarios w) ->
  usuarios (snd (cadastrar_usuario nome_ email_ w))
  = usuarios w ++ [mkUsuario (PyStr nome_) (PyStr email_)].
Proof.
  intros Hn He Hs. apply email_cadastrado_false in Hs.
  rewrite cadastrar_sucesso by assumption. rewrite snd_retornar.
  exact (proj1 (concluir_geral _ _ (set_usuarios _ w))).
Qed.

(** A valid registration returns [True] when the log can be written and
    the name, and the message of a failure to open the CSV file, encoded. *)
Lemma cadastrar_retorna (nome_ email_ : str) (w : Sistema) :
  validar_nome nome_ = true -> validar_email email_ = true ->
  sem_email email_ (usuarios w) ->
  escrita_log w = None -> erro_codificavel (escrita_csv w) -> codificavel nome_ = true ->
  fst (cadastrar_usuario nome_ email_ w) = inr true.
Proof.
  intros Hn He Hs Hl Hc Hcod. apply email_cadastrado_false in Hs.
  rewrite cadastrar_sucesso by assumption.
  apply fst_retornar. split; [|reflexivity].
  refine (proj1 (concluir_retorna _ _ (set_usuarios _ w) Hl Hc _)).
  rewrite log_cadastrado_codificavel, Hcod. now apply validar_email_codificavel.
Qed.

Lemma mensagens_distintas :
  nome_invalido <> email_invalido
  /\ nome_invalido <> email_duplicado
  /\ email_invalido <> email_duplicado.
Proof. repeat split; intros H; vm_compute in H; discriminate H. Qed.

(** C4 (as amended).  [cadastrar_usuario] fails with the invalid-name
    message iff [validar_nome] fails; otherwise with the invalid-email
    message iff [validar_email] fails; otherwise with the duplicate-email
    message iff a record of the list has the email; a failure changes
    nothing but the printed line.  Otherwise the record [(nome, email)] is
    appended at the end of the list in memory, in every case, and the call
    returns [True] or raises: it returns [True] exactly when the log can be
    written and the name (and the message of a failure to open the CSV
    file) can be encoded; when it returns [True], and the CSV file can be
    written and the records that were in the list can be encoded, the file
    holds the table of the new list.  A second registration with the email
    of ["Ana Silva"] fails and leaves exactly one record. *)
Theorem cadastrar_usuario_contrato (nome_ email_ : str) (w : Sistema) :
  let r := cadastrar_usuario nome_ email_ w in
  let novo := mkUsuario (PyStr nome_) (PyStr email_) in
  (validar_nome nome_ = false <-> r = (inr false, mensagem_erro nome_invalido w))
  /\ (validar_nome nome_ = true ->
      (validar_email email_ = false <-> r = (inr false, mensagem_erro email_invalido w)))
  /\ (validar_nome nome_ = true -> validar_email email_ = true ->
      ((exists u, In u (usuarios w) /\ email u = PyStr email_) <->
         r = (inr false, mensagem_erro email_duplicado w)))
  /\ (fst r = inr false -> exists m, snd r = print m w)
  /\ (validar_nome nome_ = true -> validar_email email_ = true ->
      sem_email email_ (usuarios w) ->
      usuarios (snd r) = usuarios w ++ [novo]
      /\ (fst r = inr true \/ exists e, fst r = inl e)
      /\ (fst r = inr true <->
          escrita_log w = None /\ codificavel nome_ = true
          /\ erro_codificavel (escrita_csv w))
      /\ (escrita_csv w = None -> escrita_log w = None ->
          Forall registro_codificavel (usuarios w) -> codificavel nome_ = true ->
          r = (inr true,
               concluido (log_cadastrado nome_ email_) (cadastrado_com_sucesso nome_)
                 (set_usuarios (usuarios w ++ [novo]) w))))
  /\ (fst r = inr true ->
      usuarios (snd r) = usuarios w ++ [novo]
      /\ (escrita_csv w = None -> Forall registro_codificavel (usuarios w) ->
          arq_csv (snd r) = Text (csv_dump (usuarios w ++ [novo]))))
  /\ (usuarios w = [] ->
      let ana := utf8 "ana@example.com" in
      let w1 := snd (cadastrar_usuario (utf8 "Ana Silva") ana w) in
      cadastrar_usuario (utf8 "Outro") ana w1 = (inr false, mensagem_erro email_duplicado w1)
      /\ usuarios (snd (cadastrar_usuario (utf8 "Outro") ana w1))
         = [mkUsuario (PyStr (utf8 "Ana Silva")) (PyStr ana)]).
Proof.
  intros r novo. subst r novo.
  destruct mensagens_distintas as (D1 & D2 & D3).
  pose proof (cadastrar_casos nome_ email_ w) as C.
  assert (S : validar_nome nome_ = true -> validar_email email_ = true ->
              sem_email email_ (usuarios w) ->
              cadastrar_usuario nome_ email_ w
              = retornar true
                  (concluir (log_cadastrado nome_ email_) (cadastrado_com_sucesso nome_)
                     (set_usuarios (usuarios w ++ [mkUsuario (PyStr nome_) (PyStr email_)]) w))).
  { intros Hn He Hs. apply cadastrar_sucesso; auto. now apply email_cadastrado_false. }
  split; [|split; [|split; [|split; [|split; [|split]]]]].
  - split; [apply cadastrar_nome_invalido|].
    intros E.
    destruct C as [(H & _)|[(_ & _ & C)|[(_ & _ & _ & C)|(_ & _ & _ & C & _)]]];
      [assumption| | |]; rewrite E in C.
    + apply (f_equal snd) in C. cbn [snd] in C.
      apply mensagem_erro_inj in C. destruct (D1 C).
    + apply (f_equal snd) in C. cbn [snd] in C.
      apply mensagem_erro_inj in C. destruct (D2 C).
    + cbn [fst] in C. destruct (C eq_refl).
  - intros Hn. split; [now apply cadastrar_email_invalido|].
    intros E.
    destruct C as [(H & _)|[(_ & H & _)|[(_ & _ & _ & C)|(_ & _ & _ & C & _)]]];
      [rewrite Hn in H; discriminate H|assumption| |]; rewrite E in C.
    + apply (f_equal snd) in C. cbn [snd] in C.
      apply mensagem_erro_inj in C. destruct (D3 C).
    + cbn [fst] in C. destruct (C eq_refl).
  - intros Hn He. rewrite <- email_cadastrado_spec.
    split; [now apply cadastrar_email_duplicado|].
    intros E.
    destruct C as [(H & _)|[(_ & H & _)|[(_ & _ & H & _)|(_ & _ & _ & C & _)]]];
      [rewrite Hn in H; discriminate H|rewrite He in H; discriminate H|assumption|].
    rewrite E in C. cbn [fst] in C. destruct (C eq_refl).
  - intros F.
    destruct C as [(_ & C)|[(_ & _ & C)|[(_ & _ & _ & C)|(_ & _ & _ & C & _)]]];
      [| | |destruct (C F)];
      rewrite C; cbn [snd]; eexists; reflexivity.
  - intros Hn He Hs. split; [now apply usuarios_cadastrar_sucesso|].
    split; [rewrite (S Hn He Hs); apply retornar_ou_levantar|]. split.
    + split.
      * intros F. rewrite (S Hn He Hs) in F. apply fst_retornar in F as [F _].
        apply concluir_retorna_sse in F as (Hl & Hr & Hc).
        rewrite log_cadastrado_codificavel in Hr.
        apply andb_true_iff in Hr as [Hr _].
        split; [exact Hl|]. split; [exact Hr|exact Hc].
      * intros (Hl & Hr & Hc). now apply cadastrar_retorna.
    + intros Hc Hl Hu Hcod. rewrite (S Hn He Hs). rewrite (concluir_ok _ _ (set_usuarios _ w) Hc Hl); [reflexivity| |].
      * cbn [usuarios set_usuarios]. apply Forall_app. split; [exact Hu|].
        constructor; [|constructor]. split; [exact Hcod|].
        now apply validar_email_codificavel.
      * rewrite log_cadastrado_codificavel, Hcod. now apply validar_email_codificavel.
  - intros F.
    destruct C as [(_ & C)|[(_ & _ & C)|[(_ & _ & _ & C)|(Hn & He & Hd & _ & U)]]];
      [rewrite C in F; cbn [fst] in F; discriminate F ..|].
    split; [exact U|]. intros Hc Hu.
    rewrite cadastrar_sucesso in * by assumption.
    apply fst_retornar in F as [F _]. apply concluir_registrou in F as [_ F].
    rewrite log_cadastrado_codificavel in F. apply andb_true_iff in F as [Fn Fe].
    rewrite snd_retornar.
    refine (proj1 (concluir_salva _ _ (set_usuarios _ w) Hc _)).
    cbn [usuarios set_usuarios]. apply Forall_app. split; [exact Hu|].
    constructor; [|constructor]. now split.
  - intros Hvazio ana w1.
    assert (U1 : usuarios w1 = [mkUsuario (PyStr (utf8 "Ana Silva")) (PyStr ana)]).
    { subst w1. rewrite cadastrar_sucesso.
      - rewrite snd_retornar.
        rewrite (proj1 (concluir_geral _ _ _)). cbn [usuarios set_usuarios].
        rewrite Hvazio. reflexivity.
      - vm_compute. reflexivity.
      - vm_compute. reflexivity.
      - rewrite Hvazio. reflexivity. }
    assert (E : cadastrar_usuario (utf8 "Outro") ana w1
                = (inr false, mensagem_erro email_duplicado w1)).
    { apply cadastrar_email_duplicado.
      - vm_compute. reflexivity.
      - vm_compute. reflexivity.
      - apply email_cadastrado_spec. eexists. split; [rewrite U1; left; reflexivity|].
        reflexivity. }
    split; [exact E|]. rewrite E. exact U1.
Qed.

Lemma cadastrar_usuario_contrato_witness :
  usuarios (snd (cadastrar_usuario (utf8 "Ana Silva") (utf8 "ana@example.com")
                   (novo_sistema Absent JAbsent (fun _ => O))))
  = [mkUsuario (PyStr (utf8 "Ana Silva")) (PyStr (utf8 "ana@example.com"))].
Proof.
  destruct (cadastrar_usuario_contrato (utf8 "Ana Silva") (utf8 "ana@example.com")
              (novo_sistema Absent JAbsent (fun _ => O))) as (_ & _ & _ & _ & _ & H & _).
  apply H. vm_compute. reflexivity.
Defined.

(** C4 (as stated) fails: the name made of the surrogate U+DCFF passes
    [validar_nome], the email passes [validar_email] and the list is empty,
    so none of the three failures applies; the record is appended in
    memory, but writing its row raises, the file is left with the header
    only, and the [log_event] of the registration raises in its turn: the
    call neither fails with one of the three errors nor succeeds, the list
    in memory is changed and it is not persisted.  A second registration,
    with a name and an email of letters, then returns [True], and the list
    is not persisted either: the row of the first record still stops the
    writing. *)
Lemma cadastrar_usuario_surrogate :
  let w := novo_sistema Absent JAbsent (fun _ => O) in
  let nome_ := [56575] in
  let email_ := utf8 "a@b.co" in
  let r := cadastrar_usuario nome_ email_ w in
  let r' := cadastrar_usuario (utf8 "Bia") (utf8 "b@x.co") (snd r) in
  validar_nome nome_ = true /\ validar_email email_ = true
  /\ sem_email email_ (usuarios w)
  /\ fst r = inl (UnicodeEncodeError (log_cadastrado nome_ email_))
  /\ usuarios (snd r) = [mkUsuario (PyStr nome_) (PyStr email_)]
  /\ arq_csv (snd r) = Text (Csv.writerow [PyStr Nome; PyStr Email])
  /\ arq_csv (snd r) <> Text (csv_dump (usuarios (snd r)))
  /\ fst r' = inr true
  /\ usuarios (snd r')
     = [mkUsuario (PyStr nome_) (PyStr email_);
        mkUsuario (PyStr (utf8 "Bia")) (PyStr (utf8 "b@x.co"))]
  /\ arq_csv (snd r') = Text (Csv.writerow [PyStr Nome; PyStr Email])
  /\ arq_csv (snd r') <> Text (csv_dump (usuarios (snd r'))).
Proof.
  intros w nome_ email_ r r'.
  split; [vm_compute; reflexivity|]. split; [vm_compute; reflexivity|].
  split; [intros x []|]. split; [vm_compute; reflexivity|].
  split; [vm_compute; reflexivity|]. split; [vm_compute; reflexivity|].
  split; [intros H; vm_compute in H; discriminate H|].
  split; [vm_compute; reflexivity|]. split; [vm_compute; reflexivity|].
  split; [vm_compute; reflexivity|].
  intros H. vm_compute in H. discriminate H.
Qed.

(** ** delete *)

Lemma apagar_primeiro (email_ : str) (w : Sistema)
      (antes : list Usuario) (u : Usuario) (depois_ : list Usuario) :
  primeiro_com_email email_ (usuarios w) antes u depois_ ->
  apagar_usuario email_ w
  = concluir (log_removido email_) (removido_com_sucesso email_)
      (set_usuarios (antes ++ depois_) w).
Proof.
  intros (E & Hno & Hu). unfold apagar_usuario.
  rewrite E, procurar_primeiro by assumption. rewrite remover_meio. reflexivity.
Qed.

Lemma apagar_nenhum (email_ : str) (w : Sistema) :
  sem_email email_ (usuarios w) ->
  apagar_usuario email_ w = (None, mensagem_erro (nao_encontrado email_) w).
Proof.
  intros H. unfold apagar_usuario. rewrite procurar_nenhum by assumption. reflexivity.
Qed.

(** The email of a record that can be encoded can be encoded. *)
Lemma email_codificavel (email_ : str) (u : Usuario) :
  registro_codificavel u -> email u = PyStr email_ -> codificavel email_ = true.
Proof. intros [_ H] E. rewrite E in H. exact H. Qed.

(** C9 (as amended).  [apagar_usuario] removes from the list in memory
    exactly the first record whose email is the given one (exact
    comparison) and keeps the others in their order, then saves, logs and
    reports success: the call returns exactly when the log can be written
    and the email (and the message of a failure to open the CSV file) can
    be encoded, and then the success message is the last line printed; the
    file holds the table of the remaining records when it can be written
    and they can be encoded; when the files can be written and every record
    encoded, nothing else happens.  When no record has the email only the
    not-found message is printed. *)
Theorem apagar_usuario_contrato (email_ : str) (w : Sistema) :
  let r := apagar_usuario email_ w in
  (forall antes u depois_,
      primeiro_com_email email_ (usuarios w) antes u depois_ ->
      r = concluir (log_removido email_) (removido_com_sucesso email_)
            (set_usuarios (antes ++ depois_) w)
      /\ usuarios (snd r) = antes ++ depois_
      /\ (fst r = None <->
          escrita_log w = None /\ codificavel email_ = true
          /\ erro_codificavel (escrita_csv w))
      /\ (fst r = None ->
          exists s, saida (snd r)
                    = saida w ++ s ++ [utf8 "Sucesso: " ++ removido_com_sucesso email_])
      /\ (escrita_csv w = None -> Forall registro_codificavel (antes ++ depois_) ->
          arq_csv (snd r) = Text (csv_dump (antes ++ depois_)))
      /\ (escrita_csv w = None -> escrita_log w = None ->
          Forall registro_codificavel (usuarios w) ->
          r = (None,
               concluido (log_removido email_) (removido_com_sucesso email_)
                 (set_usuarios (antes ++ depois_) w))))
  /\ (sem_email email_ (usuarios w) ->
      r = (None, mensagem_erro (nao_encontrado email_) w)
      /\ usuarios (snd r) = usuarios w).
Proof.
  intros r. subst r. split.
  - intros antes u depois_ Hp. pose proof Hp as (E & Hno & Hu).
    rewrite (apagar_primeiro _ _ _ _ _ Hp).
    split; [reflexivity|]. split; [apply concluir_geral|]. split; [|split; [|split]].
    + rewrite (concluir_retorna_sse _ _ (set_usuarios _ w)), log_removido_codificavel.
      reflexivity.
    + intros F. apply (concluir_retorna_sse _ _ (set_usuarios _ w)) in F as (Hl & Hr & Hc).
      exact (proj2 (concluir_retorna _ _ (set_usuarios _ w) Hl Hc Hr)).
    + intros Hc Hcod. exact (proj1 (concluir_salva _ _ (set_usuarios _ w) Hc Hcod)).
    + intros Hc Hl Hcod. rewrite E in Hcod. apply (concluir_ok _ _ (set_usuarios _ w) Hc Hl).
      * cbn [usuarios set_usuarios]. apply Forall_app in Hcod as [Ha Hd].
        apply Forall_app. split; [exact Ha|]. now inversion Hd.
      * rewrite log_removido_codificavel.
        apply Forall_app in Hcod as [_ Hd]. apply Forall_cons_iff in Hd as [Hd _].
        exact (email_codificavel email_ u Hd Hu).
  - intros Hno. rewrite apagar_nenhum by assumption. split; reflexivity.
Qed.

Lemma apagar_usuario_contrato_witness :
  usuarios (snd (apagar_usuario (utf8 "b@x.co")
              (set_usuarios [mkUsuario (PyStr (utf8 "A")) (PyStr (utf8 "a@x.co"));
                             mkUsuario (PyStr (utf8 "B")) (PyStr (utf8 "b@x.co"));
                             mkUsuario (PyStr (utf8 "C")) (PyStr (utf8 "b@x.co"))]
                 (novo_sistema Absent JAbsent (fun _ => O)))))
  = [mkUsuario (PyStr (utf8 "A")) (PyStr (utf8 "a@x.co"))]
      ++ [mkUsuario (PyStr (utf8 "C")) (PyStr (utf8 "b@x.co"))].
Proof.
  apply (proj1 (apagar_usuario_contrato _ _)
           [mkUsuario (PyStr (utf8 "A")) (PyStr (utf8 "a@x.co"))]
           (mkUsuario (PyStr (utf8 "B")) (PyStr (utf8 "b@x.co")))).
  split; [reflexivity|]. split; [|reflexivity].
  intros x [<-|[]]. vm_compute. discriminate.
Defined.

(** C9 (as stated) fails.  With a first record whose name is the surrogate
    U+DCFF, removing the second record returns and reports success, but
    writing the row of the first record raises: the file is left with the
    header only, not with the table of the remaining record, and the
    failure is logged and printed before the removal.  And when the log
    file cannot be opened, removing the only record of a list changes the
    list and the file, then raises from [log_event]: no success is
    reported. *)
Lemma apagar_usuario_surrogate :
  let a := mkUsuario (PyStr [56575]) (PyStr (utf8 "a@b.co")) in
  let b := mkUsuario (PyStr (utf8 "B")) (PyStr (utf8 "b@x.co")) in
  let w := set_usuarios [a; b] (novo_sistema (Text (csv_dump [])) JAbsent (fun _ => O)) in
  let r := apagar_usuario (utf8 "b@x.co") w in
  let e := UnicodeEncodeError (Csv.writerow [nome a; email a]) in
  let negado := OtherError (utf8 "[Errno 13] Permission denied: 'log.txt'") in
  let w' := mkSistema [b] (Text (csv_dump [b])) JAbsent None None (Some negado) [] []
                      (fun _ => O) O in
  let r' := apagar_usuario (utf8 "b@x.co") w' in
  primeiro_com_email (utf8 "b@x.co") (usuarios w) [a] b []
  /\ fst r = None
  /\ usuarios (snd r) = [a]
  /\ arq_csv (snd r) = Text (Csv.writerow [PyStr Nome; PyStr Email])
  /\ arq_csv (snd r) <> Text (csv_dump (usuarios (snd r)))
  /\ log (snd r) = [erro_ao_salvar e; log_removido (utf8 "b@x.co")]
  /\ saida (snd r) = [erro_ao_salvar e;
                      utf8 "Sucesso: " ++ removido_com_sucesso (utf8 "b@x.co")]
  /\ primeiro_com_email (utf8 "b@x.co") (usuarios w') [] b []
  /\ fst r' = Some negado
  /\ usuarios (snd r') = []
  /\ arq_csv (snd r') = Text (csv_dump [])
  /\ saida (snd r') = [].
Proof.
  intros a b w r e negado w' r'. split.
  { split; [reflexivity|]. split; [|reflexivity].
    intros x [<-|[]]. vm_compute. discriminate. }
  split; [vm_compute; reflexivity|]. split; [vm_compute; reflexivity|].
  split; [vm_compute; reflexivity|].
  split; [intros H; vm_compute in H; discriminate H|].
  split; [vm_compute; reflexivity|]. split; [vm_compute; reflexivity|].
  split.
  { split; [reflexivity|]. split; [intros x []|reflexivity]. }
  split; [vm_compute; reflexivity|]. split; [vm_compute; reflexivity|].
  split; vm_compute; reflexivity.
Qed.

(** ** update *)

Lemma atualizar_primeiro (email_ : str) (novo_nome novo_email : option str) (w : Sistema)
      (antes : list Usuario) (u : Usuario) (depois_ : list Usuario) :
  primeiro_com_email email_ (usuarios w) antes u depois_ ->
  atualizar_usuario email_ novo_nome novo_email w
  = concluir (log_atualizado email_ (atualizado novo_nome novo_email u))
      (atualizado_com_sucesso email_)
      (set_usuarios (antes ++ atualizado novo_nome novo_email u :: depois_) w).
Proof.
  intros (E & Hno & Hu). unfold atualizar_usuario.
  rewrite E, procurar_primeiro by assumption. rewrite substituir_meio. reflexivity.
Qed.

Lemma atualizar_nenhum (email_ : str) (novo_nome novo_email : option str) (w : Sistema) :
  sem_email email_ (usuarios w) ->
  atualizar_usuario email_ novo_nome novo_email w
  = (None, mensagem_erro (nao_encontrado email_) w).
Proof.
  intros H. unfold atualizar_usuario. rewrite procurar_nenhum by assumption. reflexivity.
Qed.

(** The record after an update can be encoded when the record before and
    the new name can. *)
Lemma atualizado_codificavel (novo_nome novo_email : option str) (u : Usuario) :
  registro_codificavel u ->
  (forall s, novo_nome = Some s -> codificavel s = true) ->
  registro_codificavel (atualizado novo_nome novo_email u).
Proof.
  intros [Hn He] Fn. unfold atualizado, registro_codificavel.
  assert (Fe : forall t, aceito validar_email (Some t) = true -> codificavel t = true).
  { intros t H. apply andb_true_iff in H as [_ H]. now apply validar_email_codificavel. }
  destruct novo_nome as [s|]; [destruct (aceito validar_nome (Some s))|];
    (destruct novo_email as [t|]; [destruct (aceito validar_email (Some t)) eqn:A|]);
    cbn [nome email Csv.field_text]; split;
    first [exact Hn | exact He | now apply Fn | now apply Fe].
Qed.

(** C5 (as amended).  [atualizar_usuario] works on the first record whose
    email is the given one; without such a record it prints the not-found
    message and changes nothing else.  Otherwise the name becomes the new
    name iff one is given, is not empty and passes [validar_nome], and
    stays as it was if not; independently the email becomes the new email
    iff one is given, is not empty and passes [validar_email]; the list in
    memory holds the record so changed, then the method saves, logs and
    reports success, whether or not a field changed: it returns exactly
    when the log can be written and the email given, the name and the email
    of the record (and the message of a failure to open the CSV file) can
    be encoded, and then the success message is the last line printed; the
    file holds the table of the list when it can be written and the records
    can be encoded.  With [novo_nome = ""] and [novo_email = "novo@x.com"]
    only the email changes. *)
Theorem atualizar_usuario_contrato
        (email_ : str) (novo_nome novo_email : option str) (w : Sistema) :
  let r := atualizar_usuario email_ novo_nome novo_email w in
  (sem_email email_ (usuarios w) ->
   r = (None, mensagem_erro (nao_encontrado email_) w)
   /\ usuarios (snd r) = usuarios w)
  /\ (forall antes u depois_,
         primeiro_com_email email_ (usuarios w) antes u depois_ ->
         exists u',
           (forall s, novo_nome = Some s -> aceito validar_nome novo_nome = true ->
                      nome u' = PyStr s)
           /\ (aceito validar_nome novo_nome = false -> nome u' = nome u)
           /\ (forall s, novo_email = Some s -> aceito validar_email novo_email = true ->
                         email u' = PyStr s)
           /\ (aceito validar_email novo_email = false -> email u' = email u)
           /\ r = concluir (log_atualizado email_ u') (atualizado_com_sucesso email_)
                    (set_usuarios (antes ++ u' :: depois_) w)
           /\ usuarios (snd r) = antes ++ u' :: depois_
           /\ (fst r = None <->
               escrita_log w = None
               /\ (codificavel email_ = true /\ codificavel (fmt (nome u')) = true
                   /\ codificavel (fmt (email u')) = true)
               /\ erro_codificavel (escrita_csv w))
           /\ (fst r = None ->
               exists s, saida (snd r)
                         = saida w ++ s
                             ++ [utf8 "Sucesso: " ++ atualizado_com_sucesso email_])
           /\ (escrita_csv w = None -> Forall registro_codificavel (antes ++ u' :: depois_) ->
               arq_csv (snd r) = Text (csv_dump (antes ++ u' :: depois_)))
           /\ (escrita_csv w = None -> escrita_log w = None ->
               Forall registro_codificavel (usuarios w) ->
               (forall s, novo_nome = Some s -> codificavel s = true) ->
               r = (None,
                    concluido (log_atualizado email_ u') (atualizado_com_sucesso email_)
                      (set_usuarios (antes ++ u' :: depois_) w)))
           /\ (novo_nome = Some [] -> novo_email = Some (utf8 "novo@x.com") ->
               u' = mkUsuario (nome u) (PyStr (utf8 "novo@x.com")))).
Proof.
  intros r. subst r. split.
  - intros Hno. rewrite atualizar_nenhum by assumption. split; reflexivity.
  - intros antes u depois_ Hp. pose proof Hp as (E & Hno & Hu).
    exists (atualizado novo_nome novo_email u).
    rewrite (atualizar_primeiro _ _ _ _ _ _ _ Hp).
    split; [|split; [|split; [|split; [|split; [|split; [|split; [|split; [|split; [|split]]]]]]]]].
    + intros s -> Ha. unfold atualizado. rewrite Ha.
      destruct novo_email as [t|]; [destruct (aceito validar_email (Some t))|]; reflexivity.
    + intros Ha. unfold atualizado.
      destruct novo_nome as [s|]; [rewrite Ha|];
        (destruct novo_email as [t|]; [destruct (aceito validar_email (Some t))|]; reflexivity).
    + intros s -> Ha. unfold atualizado. rewrite Ha.
      destruct novo_nome as [t|]; [destruct (aceito validar_nome (Some t))|]; reflexivity.
    + intros Ha. unfold atualizado.
      destruct novo_email as [s|]; [rewrite Ha|];
        (destruct novo_nome as [t|]; [destruct (aceito validar_nome (Some t))|]; reflexivity).
    + reflexivity.
    + apply concluir_geral.
    + rewrite (concluir_retorna_sse _ _ (set_usuarios _ w)), log_atualizado_codificavel_eq.
      rewrite !andb_true_iff. reflexivity.
    + intros F. apply (concluir_retorna_sse _ _ (set_usuarios _ w)) in F as (Hl & Hr & Hc).
      exact (proj2 (concluir_retorna _ _ (set_usuarios _ w) Hl Hc Hr)).
    + intros Hc Hcod. exact (proj1 (concluir_salva _ _ (set_usuarios _ w) Hc Hcod)).
    + intros Hc Hl Hcod Hnn. rewrite E in Hcod.
      apply Forall_app in Hcod as [Ha Hd]. apply Forall_cons_iff in Hd as [Hcu Hd].
      assert (Hu' : registro_codificavel (atualizado novo_nome novo_email u))
        by (now apply atualizado_codificavel).
      apply (concluir_ok _ _ (set_usuarios _ w) Hc Hl).
      * cbn [usuarios set_usuarios]. apply Forall_app. split; [exact Ha|].
        now constructor.
      * apply log_atualizado_codificavel; [|exact Hu'].
        exact (email_codificavel email_ u Hcu Hu).
    + intros -> ->. unfold atualizado.
      replace (aceito validar_nome (Some [])) with false by reflexivity.
      replace (aceito validar_email (Some (utf8 "novo@x.com"))) with true
        by (vm_compute; reflexivity).
      reflexivity.
Qed.

Lemma atualizar_usuario_contrato_witness :
  usuarios (snd (atualizar_usuario (utf8 "a@x.co") (Some []) (Some (utf8 "novo@x.com"))
              (set_usuarios [mkUsuario (PyStr (utf8 "A")) (PyStr (utf8 "a@x.co"))]
                 (novo_sistema Absent JAbsent (fun _ => O)))))
  = [mkUsuario (PyStr (utf8 "A")) (PyStr (utf8 "novo@x.com"))].
Proof.
  destruct (proj2 (atualizar_usuario_contrato (utf8 "a@x.co") (Some [])
                     (Some (utf8 "novo@x.com"))
                     (set_usuarios [mkUsuario (PyStr (utf8 "A")) (PyStr (utf8 "a@x.co"))]
                        (novo_sistema Absent JAbsent (fun _ => O))))
              [] (mkUsuario (PyStr (utf8 "A")) (PyStr (utf8 "a@x.co"))) [])
    as (u' & _ & _ & _ & _ & _ & U & _ & _ & _ & _ & P).
  - split; [reflexivity|]. split; [intros x []|reflexivity].
  - rewrite U, (P eq_refl eq_refl). reflexivity.
Defined.

(** C5 (as stated) fails: a new name made of the surrogate U+DCFF is not
    empty and passes [validar_nome], so it replaces the name in memory; but
    writing the row raises, so the list is not persisted (the file is left
    with the header only), and the [log_event] of the update raises in its
    turn, so no success is reported. *)
Lemma atualizar_usuario_surrogate :
  let a := mkUsuario (PyStr (utf8 "A")) (PyStr (utf8 "a@x.co")) in
  let a' := mkUsuario (PyStr [56575]) (PyStr (utf8 "a@x.co")) in
  let w := set_usuarios [a] (novo_sistema (Text (csv_dump [a])) JAbsent (fun _ => O)) in
  let r := atualizar_usuario (utf8 "a@x.co") (Some [56575]) None w in
  primeiro_com_email (utf8 "a@x.co") (usuarios w) [] a []
  /\ aceito validar_nome (Some [56575]) = true
  /\ usuarios (snd r) = [a']
  /\ fst r = Some (UnicodeEncodeError (log_atualizado (utf8 "a@x.co") a'))
  /\ arq_csv (snd r) = Text (Csv.writerow [PyStr Nome; PyStr Email])
  /\ arq_csv (snd r) <> Text (csv_dump (usuarios (snd r)))
  /\ saida (snd r)
     = [erro_ao_salvar (UnicodeEncodeError (Csv.writerow [nome a'; email a']))].
Proof.
  intros a a' w r. split.
  { split; [reflexivity|]. split; [intros x []|reflexivity]. }
  split; [vm_compute; reflexivity|]. split; [vm_compute; reflexivity|].
  split; [vm_compute; reflexivity|]. split; [vm_compute; reflexivity|].
  split; [intros H; vm_compute in H; discriminate H|].
  vm_compute. reflexivity.
Qed.

(** ** Distinct emails *)

Lemma emails_app (a b : list Usuario) : emails (a ++ b) = emails a ++ emails b.
Proof. apply map_app. Qed.

Lemma sem_email_emails (email_ : str) (us : list Usuario) :
  sem_email email_ us <-> ~ In (PyStr email_) (emails us).
Proof.
  unfold sem_email, emails. rewrite in_map_iff. split.
  - intros H (x & E & Hin). now apply (H x).
  - intros H x Hin E. apply H. now exists x.
Qed.

Lemma NoDup_snoc {A} (l : list A) (x : A) :
  NoDup l -> ~ In x l -> NoDup (l ++ [x]).
Proof.
  induction l as [|y l IH]; intros Hl Hx; simpl.
  - constructor; [intros []|constructor].
  - inversion Hl as [|? ? Hy Hl']; subst. constructor.
    + rewrite in_app_iff. intros [Hin|[->|[]]]; [now apply Hy|].
      apply Hx. now left.
    + apply IH; [assumption|]. intros Hin. apply Hx. now right.
Qed.

(** Registration keeps the emails pairwise distinct. *)
Lemma cadastrar_preserva_distintos (nome_ email_ : str) (w : Sistema) :
  emails_distintos (usuarios w) ->
  emails_distintos (usuarios (snd (cadastrar_usuario nome_ email_ w))).
Proof.
  intros H.
  destruct (cadastrar_casos nome_ email_ w)
    as [(_ & C)|[(_ & _ & C)|[(_ & _ & _ & C)|(_ & _ & Hd & _ & U)]]];
    try (rewrite C; exact H).
  rewrite U. unfold emails_distintos. rewrite emails_app.
  apply email_cadastrado_false, sem_email_emails in Hd.
  now apply NoDup_snoc.
Qed.

Lemma usuarios_apagar_primeiro (email_ : str) (w : Sistema)
      (antes : list Usuario) (u : Usuario) (depois_ : list Usuario) :
  primeiro_com_email email_ (usuarios w) antes u depois_ ->
  usuarios (snd (apagar_usuario email_ w)) = antes ++ depois_.
Proof.
  intros Hp. rewrite (apagar_primeiro _ _ _ _ _ Hp).
  exact (proj1 (concluir_geral _ _ (set_usuarios _ w))).
Qed.

Lemma usuarios_apagar_nenhum (email_ : str) (w : Sistema) :
  sem_email email_ (usuarios w) ->
  usuarios (snd (apagar_usuario email_ w)) = usuarios w.
Proof. intros H. rewrite apagar_nenhum by assumption. reflexivity. Qed.

(** The first record with the email, or none. *)
Lemma primeiro_ou_nenhum (email_ : str) (us : list Usuario) :
  sem_email email_ us
  \/ exists antes u depois_, primeiro_com_email email_ us antes u depois_.
Proof.
  destruct (procurar email_ us) as [[i u]|] eqn:P.
  - right. apply procurar_Some in P as (antes & depois_ & Hp & _). eauto.
  - left. now apply procurar_None.
Qed.

(** Removal keeps the emails pairwise distinct. *)
Lemma apagar_preserva_distintos (email_ : str) (w : Sistema) :
  emails_distintos (usuarios w) ->
  emails_distintos (usuarios (snd (apagar_usuario email_ w))).
Proof.
  intros H.
  destruct (primeiro_ou_nenhum email_ (usuarios w)) as [Hno|(antes & u & depois_ & Hp)].
  - now rewrite usuarios_apagar_nenhum.
  - rewrite (usuarios_apagar_primeiro _ _ _ _ _ Hp). destruct Hp as (E & _ & _).
    unfold emails_distintos in *.
    rewrite E, emails_app in H. simpl in H. apply NoDup_remove_1 in H.
    now rewrite emails_app.
Qed.

(** C1, on the failing input.  From the empty list two registrations give
    two records with distinct emails; updating the second with the email of
    the first is accepted and leaves two records with the same email. *)
Theorem atualizar_usuario_duplica_email :
  let w0 := novo_sistema Absent JAbsent (fun _ => O) in
  let w1 := snd (cadastrar_usuario (utf8 "Ana") (utf8 "a@x.co") w0) in
  let w2 := snd (cadastrar_usuario (utf8 "Bia") (utf8 "b@x.co") w1) in
  let w3 := snd (atualizar_usuario (utf8 "b@x.co") None (Some (utf8 "a@x.co")) w2) in
  emails_distintos (usuarios w2)
  /\ usuarios w3 = [mkUsuario (PyStr (utf8 "Ana")) (PyStr (utf8 "a@x.co"));
                    mkUsuario (PyStr (utf8 "Bia")) (PyStr (utf8 "a@x.co"))]
  /\ ~ emails_distintos (usuarios w3).
Proof.
  intros w0 w1 w2 w3.
  assert (U3 : usuarios w3 = [mkUsuario (PyStr (utf8 "Ana")) (PyStr (utf8 "a@x.co"));
                              mkUsuario (PyStr (utf8 "Bia")) (PyStr (utf8 "a@x.co"))])
    by (vm_compute; reflexivity).
  split; [|split; [exact U3|]].
  - subst w2 w1. do 2 apply cadastrar_preserva_distintos. constructor.
  - rewrite U3. unfold emails_distintos. cbn [emails List.map email].
    intros H. inversion H as [|x l Hin _]. apply Hin. now left.
Qed.

(** ** Random users *)

Lemma usuarios_random_choices {A} (d : A) (xs : list A) (k : nat) :
  forall w, usuarios (snd (random_choices d xs k w)) = usuarios w.
Proof.
  induction k as [|k IH]; intros w; simpl; [reflexivity|].
  destruct (random_choices d xs k (set_cursor (S (cursor w)) w)) as [r w2] eqn:E.
  simpl. specialize (IH (set_cursor (S (cursor w)) w)). now rewrite E in IH.
Qed.

Lemma usuarios_gerar_nome (w : Sistema) :
  usuarios (snd (gerar_nome_aleatorio w)) = usuarios w.
Proof. reflexivity. Qed.

Lemma usuarios_gerar_email (nome_ : str) (w : Sistema) :
  usuarios (snd (gerar_email_aleatorio nome_ w)) = usuarios w.
Proof.
  unfold gerar_email_aleatorio.
  pose proof (usuarios_random_choices 0 ascii_lowercase 5 w) as H.
  destruct (random_choices 0 ascii_lowercase 5 w) as [letras w1]. exact H.
Qed.

(** The loop hands over an email that no record of the list has; the list
    is as it was, and the email is the first one or one drawn by
    [gerar_email_aleatorio]. *)
Lemma sortear_email_spec (P : str -> Prop) (nome_ : str) (fuel : nat) :
  (forall w, P (fst (gerar_email_aleatorio nome_ w))) ->
  forall email_ w email' w',
    P email_ ->
    sortear_email fuel nome_ email_ w = Some (email', w') ->
    P email' /\ usuarios w' = usuarios w /\ sem_email email' (usuarios w').
Proof.
  intros HP. induction fuel as [|fuel IH]; intros email_ w email' w' H0 H;
    cbn [sortear_email] in H.
  - destruct (email_cadastrado email_ (usuarios w)) eqn:E; [discriminate|].
    injection H as <- <-. repeat split; auto. now apply email_cadastrado_false.
  - destruct (email_cadastrado email_ (usuarios w)) eqn:E.
    + pose proof (HP w) as H1. pose proof (usuarios_gerar_email nome_ w) as H2.
      destruct (gerar_email_aleatorio nome_ w) as [e1 w1]. simpl in H1, H2.
      destruct (IH _ _ _ _ H1 H) as (Q1 & Q2 & Q3). rewrite <- H2. auto.
    + injection H as <- <-. repeat split; auto. now apply email_cadastrado_false.
Qed.

(** More fuel does not change a result. *)
Lemma sortear_email_mono (nome_ : str) (fuel : nat) :
  forall email_ w r,
    sortear_email fuel nome_ email_ w = Some r ->
    sortear_email (S fuel) nome_ email_ w = Some r.
Proof.
  induction fuel as [|fuel IH]; intros email_ w r H.
  - cbn [sortear_email] in *.
    destruct (email_cadastrado email_ (usuarios w)); [discriminate|exact H].
  - cbn [sortear_email] in H. cbn [sortear_email].
    destruct (email_cadastrado email_ (usuarios w)); [|exact H].
    destruct (gerar_email_aleatorio nome_ w) as [e1 w1]. now apply IH.
Qed.

(** C8.  When the loop of [gerar_usuario_aleatorio] ends, the email handed
    to [cadastrar_usuario] is the email of no record of the list at that
    moment, and the list is still the one the operation started with. *)
Theorem gerar_usuario_sem_colisao (fuel : nat) (w : Sistema) (r : option Exn * Sistema) :
  gerar_usuario_aleatorio fuel w = Some r ->
  exists nome_ email_ w3,
    usuarios w3 = usuarios w
    /\ sem_email email_ (usuarios w3)
    /\ r = descartar (cadastrar_usuario nome_ email_ w3).
Proof.
  unfold gerar_usuario_aleatorio. intros H.
  pose proof (usuarios_gerar_nome w) as U1.
  destruct (gerar_nome_aleatorio w) as [nome_ w1]. cbn [snd] in U1.
  pose proof (usuarios_gerar_email nome_ w1) as U2.
  destruct (gerar_email_aleatorio nome_ w1) as [email_ w2]. simpl in U2.
  destruct (sortear_email fuel nome_ email_ w2) as [[email' w3]|] eqn:S; [|discriminate].
  injection H as <-.
  destruct (sortear_email_spec (fun _ => True) nome_ fuel (fun _ => I) _ _ _ _ I S)
    as (_ & U3 & Hno).
  exists nome_, email', w3. repeat split; auto.
  now rewrite U3, U2.
Qed.

Lemma gerar_usuario_sem_colisao_witness :
  let w := set_usuarios [mkUsuario (PyStr (utf8 "Ana Silva"))
                                   (PyStr (utf8 "ana.silva@aaaaagmail.com"))]
             (novo_sistema Absent JAbsent (fun n => if Nat.ltb n 7 then 0%nat else 1%nat)) in
  exists nome_ email_ w3,
    usuarios w3 = usuarios w
    /\ sem_email email_ (usuarios w3)
    /\ gerar_usuario_aleatorio 1 w = Some (descartar (cadastrar_usuario nome_ email_ w3)).
Proof.
  intros w.
  destruct (gerar_usuario_aleatorio 1 w) as [r|] eqn:E.
  - destruct (gerar_usuario_sem_colisao 1 w r E) as (n & e & w3 & H1 & H2 & ->).
    now exists n, e, w3.
  - vm_compute in E. discriminate E.
Defined.

Lemma snd_descartar {A} (r : (Exn + A) * Sistema) : snd (descartar r) = snd r.
Proof. destruct r as [[e|v] w]; reflexivity. Qed.

(** Random registration keeps the emails pairwise distinct. *)
Lemma gerar_preserva_distintos (fuel : nat) (w : Sistema) (r : option Exn * Sistema) :
  emails_distintos (usuarios w) ->
  gerar_usuario_aleatorio fuel w = Some r ->
  emails_distintos (usuarios (snd r)).
Proof.
  intros D H. unfold gerar_usuario_aleatorio in H.
  pose proof (usuarios_gerar_nome w) as U1.
  destruct (gerar_nome_aleatorio w) as [nome_ w1]. cbn [snd] in U1.
  pose proof (usuarios_gerar_email nome_ w1) as U2.
  destruct (gerar_email_aleatorio nome_ w1) as [email_ w2]. cbn [snd] in U2.
  destruct (sortear_email fuel nome_ email_ w2) as [[email' w3]|] eqn:S; [|discriminate].
  injection H as <-.
  destruct (sortear_email_spec (fun _ => True) nome_ fuel (fun _ => I) _ _ _ _ I S)
    as (_ & U3 & _).
  rewrite snd_descartar. apply cadastrar_preserva_distintos. now rewrite U3, U2, U1.
Qed.

(** No string that starts with ["joã"] passes [validar_email]. *)
Lemma validar_email_joao (resto : str) :
  validar_email (106 :: 111 :: 227 :: resto) = false.
Proof. vm_compute. reflexivity. Qed.

Lemma gerar_nome_joao (w : Sistema) :
  Nat.modulo (rnd w (cursor w)) 8 = 1%nat ->
  exists s, fst (gerar_nome_aleatorio w) = utf8 "João" ++ utf8 " " ++ s.
Proof.
  intros H. unfold gerar_nome_aleatorio, random_choice. cbv beta iota.
  match goal with
  | |- context [@List.length ?A nomes] =>
      replace (@List.length A nomes) with 8%nat by (vm_compute; reflexivity)
  end.
  rewrite H.
  match goal with
  | |- context [@nth ?A 1 nomes ?d] =>
      replace (@nth A 1 nomes d) with (utf8 "João") by (vm_compute; reflexivity)
  end.
  eexists. reflexivity.
Qed.

Lemma gerar_email_joao (s : str) (w : Sistema) :
  validar_email (fst (gerar_email_aleatorio (utf8 "João" ++ utf8 " " ++ s) w)) = false.
Proof.
  unfold gerar_email_aleatorio.
  destruct (random_choices 0 ascii_lowercase 5 w) as [letras w1]. cbn [fst].
  unfold Str.lower, Str.replace_char. rewrite !map_app.
  match goal with
  | |- context [List.map ?f (List.map ?g (utf8 "João"))] =>
      replace (List.map f (List.map g (utf8 "João"))) with [106; 111; 227; 111]
        by (vm_compute; reflexivity)
  end.
  cbn [app]. apply validar_email_joao.
Qed.

(** Whenever the first name drawn is ["João"], nothing is registered. *)
Lemma gerar_usuario_joao_geral (fuel : nat) (w : Sistema) (r : option Exn * Sistema) :
  Nat.modulo (rnd w (cursor w)) 8 = 1%nat ->
  gerar_usuario_aleatorio fuel w = Some r ->
  usuarios (snd r) = usuarios w.
Proof.
  intros Hj H. unfold gerar_usuario_aleatorio in H.
  destruct (gerar_nome_joao w Hj) as (s & N).
  pose proof (usuarios_gerar_nome w) as U1.
  destruct (gerar_nome_aleatorio w) as [nome_ w1]. cbn [fst snd] in N, U1. subst nome_.
  pose proof (usuarios_gerar_email (utf8 "João" ++ utf8 " " ++ s) w1) as U2.
  pose proof (gerar_email_joao s w1) as V.
  destruct (gerar_email_aleatorio (utf8 "João" ++ utf8 " " ++ s) w1) as [email_ w2].
  cbn [fst snd] in U2, V.
  destruct (sortear_email fuel _ email_ w2) as [[email' w3]|] eqn:S; [|discriminate].
  injection H as <-.
  destruct (sortear_email_spec (fun e => validar_email e = false) _ fuel
              (gerar_email_joao s) _ _ _ _ V S) as (V' & U3 & _).
  rewrite snd_descartar.
  destruct (cadastrar_casos (utf8 "João" ++ utf8 " " ++ s) email' w3)
    as [(_ & C)|[(_ & _ & C)|[(_ & He & _)|(_ & He & _)]]];
    try (rewrite He in V'; discriminate V');
    rewrite C; cbn [snd]; rewrite usuarios_mensagem_erro; congruence.
Qed.

(** For every other first name the operation registers one record. *)

Lemma nomes_ascii_ok :
  forallb (fun n =>
    forallb (fun s =>
      let nome_ := n ++ utf8 " " ++ s in
      validar_nome nome_
      && forallb (Sre.in_set set_local) (Str.lower (Str.replace_char (chr " ") (chr ".") nome_)))
      sobrenomes)
    (List.filter (fun n => negb (Str.eqb n (utf8 "João"))) nomes) = true.
Proof. vm_compute. reflexivity. Qed.

Lemma random_choice_In {A} (d : A) (xs : list A) (w : Sistema) :
  xs <> [] -> In (fst (random_choice d xs w)) xs.
Proof.
  intros H. unfold random_choice. cbn [fst]. apply nth_In.
  apply Nat.mod_upper_bound. destruct xs; [contradiction|discriminate].
Qed.

Lemma random_choices_In {A} (d : A) (xs : list A) (k : nat) :
  xs <> [] ->
  forall w, List.length (fst (random_choices d xs k w)) = k
            /\ forall x, In x (fst (random_choices d xs k w)) -> In x xs.
Proof.
  intros H. induction k as [|k IH]; intros w; cbn [random_choices].
  - split; [reflexivity|intros x []].
  - pose proof (random_choice_In d xs w H) as H1.
    destruct (random_choice d xs w) as [x w1]. cbn [fst] in H1.
    specialize (IH w1). destruct (random_choices d xs k w1) as [r w2]. cbn [fst] in *.
    destruct IH as [L I]. split; [cbn [List.length]; now rewrite L|].
    intros y [<-|Hy]; auto.
Qed.

Lemma ascii_lowercase_dominio :
  forallb (Sre.in_set set_domain) ascii_lowercase = true.
Proof. vm_compute. reflexivity. Qed.

Lemma gerar_email_valido (nome_ : str) (w : Sistema) :
  forallb (Sre.in_set set_local) (Str.lower (Str.replace_char (chr " ") (chr ".") nome_)) = true ->
  nome_ <> [] ->
  validar_email (fst (gerar_email_aleatorio nome_ w)) = true.
Proof.
  intros Hl Hn. unfold gerar_email_aleatorio.
  assert (Hxs : ascii_lowercase <> []) by (intros E; vm_compute in E; discriminate E).
  destruct (random_choices_In 0 ascii_lowercase 5 Hxs w) as [L I].
  destruct (random_choices 0 ascii_lowercase 5 w) as [letras w1]. cbn [fst] in *.
  apply validar_email_spec.
  exists (Str.lower (Str.replace_char (chr " ") (chr ".") nome_)),
         (letras ++ utf8 "gmail"), (utf8 "com"), [].
  split.
  { rewrite app_nil_r. f_equal.
    replace (utf8 "@") with [chr "@"] by (vm_compute; reflexivity).
    replace (utf8 "gmail.com") with (utf8 "gmail" ++ chr "." :: utf8 "com")
      by (vm_compute; reflexivity).
    cbn [app]. now rewrite app_assoc. }
  split.
  { unfold Str.lower, Str.replace_char. rewrite !length_map.
    destruct nome_; [contradiction|simpl; lia]. }
  split; [exact Hl|].
  split; [rewrite length_app, L; lia|].
  split.
  { rewrite forallb_app. apply andb_true_iff. split; [|vm_compute; reflexivity].
    apply forallb_forall. intros x Hx.
    exact (proj1 (forallb_forall _ _) ascii_lowercase_dominio x (I x Hx)). }
  split; [vm_compute; lia|]. split; [vm_compute; reflexivity|now left].
Qed.

Lemma gerar_nome_ascii (w : Sistema) :
  Nat.modulo (rnd w (cursor w)) 8 <> 1%nat ->
  let nome_ := fst (gerar_nome_aleatorio w) in
  validar_nome nome_ = true
  /\ forallb (Sre.in_set set_local) (Str.lower (Str.replace_char (chr " ") (chr ".") nome_)) = true.
Proof.
  intros H nome_. subst nome_. unfold gerar_nome_aleatorio.
  assert (Hs : sobrenomes <> []) by (intros E; vm_compute in E; discriminate E).
  assert (Hn : In (fst (random_choice [] nomes w))
                  (List.filter (fun n => negb (Str.eqb n (utf8 "João"))) nomes)).
  { unfold random_choice. cbn [fst].
    match goal with
    | |- context [@List.length ?A nomes] =>
        replace (@List.length A nomes) with 8%nat by (vm_compute; reflexivity)
    end.
    pose proof (Nat.mod_upper_bound (rnd w (cursor w)) 8 ltac:(discriminate)) as B.
    destruct (Nat.modulo (rnd w (cursor w)) 8) as [|[|[|[|[|[|[|[|k]]]]]]]];
      first [ exfalso; apply H; reflexivity
            | exfalso; lia
            | vm_compute; repeat (first [left; reflexivity | right]) ]. }
  destruct (random_choice [] nomes w) as [n w1]. cbn [fst] in Hn.
  pose proof (random_choice_In [] sobrenomes w1 Hs) as Hin.
  destruct (random_choice [] sobrenomes w1) as [s w2]. cbn [fst] in *.
  pose proof (proj1 (forallb_forall _ _) nomes_ascii_ok n Hn) as H1. cbv beta in H1.
  pose proof (proj1 (forallb_forall _ _) H1 s Hin) as H2. cbv beta zeta in H2.
  now apply andb_true_iff in H2.
Qed.

(** With a first name other than ["João"], when the loop ends the list has
    exactly one record more, at its end. *)
Lemma gerar_usuario_cadastra (fuel : nat) (w : Sistema) (r : option Exn * Sistema) :
  Nat.modulo (rnd w (cursor w)) 8 <> 1%nat ->
  gerar_usuario_aleatorio fuel w = Some r ->
  exists nome_ email_,
    usuarios (snd r) = usuarios w ++ [mkUsuario (PyStr nome_) (PyStr email_)].
Proof.
  intros Hj H. unfold gerar_usuario_aleatorio in H.
  destruct (gerar_nome_ascii w Hj) as (Vn & Hl).
  pose proof (usuarios_gerar_nome w) as U1.
  destruct (gerar_nome_aleatorio w) as [nome_ w1]. cbn [fst snd] in Vn, Hl, U1.
  assert (Hne : nome_ <> []) by (intros ->; vm_compute in Vn; discriminate Vn).
  pose proof (usuarios_gerar_email nome_ w1) as U2.
  pose proof (gerar_email_valido nome_ w1 Hl Hne) as V.
  destruct (gerar_email_aleatorio nome_ w1) as [email_ w2]. cbn [fst snd] in U2, V.
  destruct (sortear_email fuel nome_ email_ w2) as [[email' w3]|] eqn:S; [|discriminate].
  injection H as <-.
  destruct (sortear_email_spec (fun e => validar_email e = true) nome_ fuel
              (fun w => gerar_email_valido nome_ w Hl Hne) _ _ _ _ V S) as (V' & U3 & Hno).
  exists nome_, email'.
  rewrite snd_descartar, usuarios_cadastrar_sucesso by assumption. congruence.
Qed.

(** C7, on the failing input.  When [random.choice(nomes)] returns
    ["João"] the derived email is ["joão.silva@aaaaagmail.com"], which
    [validar_email] rejects: the operation prints the invalid-email message
    and the list has no record more than before. *)
Theorem gerar_usuario_joao :
  let w := novo_sistema Absent JAbsent (fun n => match n with O => 1%nat | _ => O end) in
  fst (gerar_email_aleatorio (fst (gerar_nome_aleatorio w)) (snd (gerar_nome_aleatorio w)))
  = utf8 "joão.silva@aaaaagmail.com"
  /\ (exists w', gerar_usuario_aleatorio 0 w = Some (None, w')
                 /\ usuarios w' = []
                 /\ saida w' = [utf8 "Erro: " ++ email_invalido])
  /\ (forall fuel w r,
         Nat.modulo (rnd w (cursor w)) 8 = 1%nat ->
         gerar_usuario_aleatorio fuel w = Some r ->
         usuarios (snd r) = usuarios w).
Proof.
  intros w. split; [vm_compute; reflexivity|]. split; [|exact gerar_usuario_joao_geral].
  eexists. split; [vm_compute; reflexivity|]. split; vm_compute; reflexivity.
Qed.

Lemma gerar_usuario_joao_witness :
  option_map (fun r => usuarios (snd r))
    (gerar_usuario_aleatorio 3 (novo_sistema Absent JAbsent (fun _ => 1%nat)))
  = Some [].
Proof.
  destruct (gerar_usuario_aleatorio 3 (novo_sistema Absent JAbsent (fun _ => 1%nat)))
    as [r|] eqn:E; [|vm_compute in E; discriminate E].
  cbn [option_map]. f_equal.
  exact (proj2 (proj2 gerar_usuario_joao) 3%nat
           (novo_sistema Absent JAbsent (fun _ => 1%nat)) r eq_refl E).
Defined.

(** ** load *)

Lemma formato_json_nao_csv : Str.eqb formato_json formato_csv = false.
Proof. vm_compute. reflexivity. Qed.

(** The handler of [carregar_usuarios] logs and prints, or raises from
    [log_event] and changes nothing. *)
Lemma falha_ao_carregar_casos (e : Exn) (w : Sistema) :
  (escrita_log w = None /\ codificavel (erro_ao_carregar e) = true
   /\ falha_ao_carregar e w
      = (None, print (erro_ao_carregar e) (set_log (log w ++ [erro_ao_carregar e]) w)))
  \/ (exists e', falha_ao_carregar e w = (Some e', w)).
Proof.
  unfold falha_ao_carregar.
  destruct (log_event_casos (erro_ao_carregar e) w) as [(L & C & ->)|(e' & -> & N)].
  - left. auto.
  - right. exists e'. auto.
Qed.

Lemma usuarios_falha_ao_carregar (e : Exn) (w : Sistema) :
  usuarios (snd (falha_ao_carregar e w)) = usuarios w.
Proof.
  destruct (falha_ao_carregar_casos e w) as [(_ & _ & ->)|(e' & ->)]; reflexivity.
Qed.

(** A read that raises ends in the handler. *)
Lemma carregar_falha (formato : str) (w : Sistema) (e : Exn) :
  leitura_falha formato w e ->
  carregar_usuarios formato w = retornar None (falha_ao_carregar e w).
Proof.
  intros [(-> & [H|(content & H & L)])|(-> & H)]; unfold carregar_usuarios.
  - rewrite Str_eqb_refl, H. reflexivity.
  - rewrite Str_eqb_refl, H, L. reflexivity.
  - rewrite formato_json_nao_csv, Str_eqb_refl, H. reflexivity.
Qed.

(** C2 (as amended).  When the configured file does not exist,
    [carregar_usuarios] returns an empty list and changes nothing.  When
    reading or parsing the file raises, the exception is caught and the
    list in memory is left as it was in every case: it is empty after the
    failure when it was empty before, as on a new [SistemaCadastro].  The
    handler logs the failure first: when the log can be written and the
    message encoded, the failure is logged and printed and the method
    returns; when the log file cannot be opened, or the message cannot be
    encoded, the exception of [log_event] leaves the method, and nothing is
    logged or printed. *)
Theorem carregar_usuarios_falhas (formato : str) (w : Sistema) :
  let r := carregar_usuarios formato w in
  (arquivo_ausente formato w -> r = (inr (Some []), w))
  /\ (forall e, leitura_falha formato w e ->
        usuarios (snd r) = usuarios w
        /\ (usuarios w = [] -> usuarios (snd r) = [])
        /\ (escrita_log w = None -> codificavel (exn_str e) = true ->
            r = (inr None,
                 print (erro_ao_carregar e) (set_log (log w ++ [erro_ao_carregar e]) w)))
        /\ (forall e', escrita_log w = Some e' -> r = (inl e', w))
        /\ (escrita_log w = None -> codificavel (exn_str e) = false ->
            r = (inl (UnicodeEncodeError (erro_ao_carregar e)), w))).
Proof.
  intros r. subst r. split.
  - intros [(-> & H)|(-> & H)]; unfold carregar_usuarios.
    + rewrite Str_eqb_refl, H. reflexivity.
    + rewrite formato_json_nao_csv, Str_eqb_refl, H. reflexivity.
  - intros e F. rewrite (carregar_falha _ _ _ F). rewrite snd_retornar.
    rewrite usuarios_falha_ao_carregar.
    split; [reflexivity|]. split; [trivial|].
    unfold falha_ao_carregar, log_event. split; [|split].
    + intros L C. rewrite L, erro_ao_carregar_codificavel, C. reflexivity.
    + intros e' L. rewrite L. reflexivity.
    + intros L C. rewrite L, erro_ao_carregar_codificavel, C. reflexivity.
Qed.

Lemma carregar_usuarios_falhas_witness :
  let arquivo := utf8 "Nome" ++ [10] ++ utf8 "Bia,bia@x.co" ++ [10] in
  usuarios (snd (carregar_usuarios formato_csv
                   (novo_sistema (Text arquivo) JAbsent (fun _ => O)))) = [].
Proof.
  intros arquivo.
  apply (proj2 (carregar_usuarios_falhas formato_csv
                  (novo_sistema (Text arquivo) JAbsent (fun _ => O)))
           (KeyError Email)).
  - left. split; [reflexivity|]. right. exists arquivo.
    split; [reflexivity|vm_compute; reflexivity].
  - reflexivity.
Defined.

(** C2 (as stated) fails.  With a record in memory and a CSV file whose
    header has no [Email] column, reading raises [KeyError('Email')] and
    the list in memory still holds the record.  And when, besides, the log
    file cannot be opened, the handler raises: the load raises to the
    caller, and nothing is logged or printed. *)
Lemma carregar_usuarios_nao_esvazia :
  let ana := mkUsuario (PyStr (utf8 "Ana")) (PyStr (utf8 "ana@x.co")) in
  let arquivo := utf8 "Nome" ++ [10] ++ utf8 "Bia,bia@x.co" ++ [10] in
  let w := set_usuarios [ana] (novo_sistema (Text arquivo) JAbsent (fun _ => O)) in
  let negado := OtherError (utf8 "[Errno 13] Permission denied: 'log.txt'") in
  let w' := mkSistema [ana] (Text arquivo) JAbsent None None (Some negado) [] []
                      (fun _ => O) O in
  leitura_falha formato_csv w (KeyError Email)
  /\ usuarios (snd (carregar_usuarios formato_csv w)) = [ana]
  /\ usuarios (snd (carregar_usuarios formato_csv w)) <> []
  /\ leitura_falha formato_csv w' (KeyError Email)
  /\ carregar_usuarios formato_csv w' = (inl negado, w').
Proof.
  intros ana arquivo w negado w'.
  assert (L : csv_load arquivo = inl (KeyError Email)) by (vm_compute; reflexivity).
  assert (F : leitura_falha formato_csv w (KeyError Email)).
  { left. split; [reflexivity|]. right. exists arquivo. split; [reflexivity|exact L]. }
  assert (F' : leitura_falha formato_csv w' (KeyError Email)).
  { left. split; [reflexivity|]. right. exists arquivo. split; [reflexivity|exact L]. }
  split; [exact F|].
  assert (U : usuarios (snd (carregar_usuarios formato_csv w)) = [ana])
    by (vm_compute; reflexivity).
  rewrite U. split; [reflexivity|]. split; [intros H; discriminate H|].
  split; [exact F'|]. vm_compute. reflexivity.
Qed.

(** ** save then load *)

(** C6, on the failing input.  A record whose name holds a carriage return
    is registered and saved; the file is written with [newline=''] but read
    without it, so the carriage return comes back as a line feed and the
    list loaded is not the list saved. *)
Theorem csv_ida_e_volta_cr :
  let nome_cr := utf8 "a" ++ [13] ++ utf8 "b" in
  let nome_lf := utf8 "a" ++ [10] ++ utf8 "b" in
  let w0 := novo_sistema Absent JAbsent (fun _ => O) in
  let w1 := snd (cadastrar_usuario nome_cr (utf8 "a@b.co") w0) in
  usuarios w1 = [mkUsuario (PyStr nome_cr) (PyStr (utf8 "a@b.co"))]
  /\ arq_csv w1 = Text (csv_dump (usuarios w1))
  /\ usuarios (snd (carregar_usuarios formato_csv (snd (salvar_usuarios formato_csv w1))))
     = [mkUsuario (PyStr nome_lf) (PyStr (utf8 "a@b.co"))]
  /\ usuarios (snd (carregar_usuarios formato_csv (snd (salvar_usuarios formato_csv w1))))
     <> usuarios w1.
Proof.
  intros nome_cr nome_lf w0 w1.
  assert (U1 : usuarios w1 = [mkUsuario (PyStr nome_cr) (PyStr (utf8 "a@b.co"))])
    by (vm_compute; reflexivity).
  assert (U2 : usuarios (snd (carregar_usuarios formato_csv
                                (snd (salvar_usuarios formato_csv w1))))
               = [mkUsuario (PyStr nome_lf) (PyStr (utf8 "a@b.co"))])
    by (vm_compute; reflexivity).
  split; [exact U1|]. split; [vm_compute; reflexivity|]. split; [exact U2|].
  rewrite U1, U2. intros H. vm_compute in H. discriminate H.
Qed.

(** ** The round trip through the CSV file, without carriage returns *)

Section Leitor.
Import Csv.

Lemma readlines_nonempty (t : str) : t <> [] -> readlines t <> [].
Proof.
  destruct t as [|c t]; [contradiction|]. intros _. cbn [readlines].
  destruct (c =? LF); [discriminate|]. destruct (readlines t); discriminate.
Qed.

(** A character other than a line feed is fed to the machine and the line goes on. *)
Lemma rows_char (r : reader) (c : N) (t : str) :
  (c =? LF) = false -> t <> [] ->
  rows r (readlines (c :: t))
  = match parse_process_char r (Ch c) with
    | inl e => ([], Some e)
    | inr r' => rows r' (readlines t)
    end.
Proof.
  intros Hc Ht. cbn [readlines]. rewrite Hc.
  pose proof (readlines_nonempty t Ht) as Hl.
  destruct (readlines t) as [|l ls]; [contradiction|].
  cbn [rows List.map app feed]. unfold bind.
  destruct (parse_process_char r (Ch c)); reflexivity.
Qed.

(** A line feed ends the line: the machine is fed the line feed, then the
    end of the line, and the row is complete if it is back in [START_RECORD]. *)
Lemma rows_lf (r : reader) (t : str) :
  rows r (readlines (LF :: t))
  = match feed r [Ch LF; EOL] with
    | inl e => ([], Some e)
    | inr r' =>
        if state_eqb (st r') START_RECORD
        then let (rs, e) := rows parse_reset (readlines t) in (fields r' :: rs, e)
        else rows r' (readlines t)
    end.
Proof. reflexivity. Qed.

Lemma rows_feed_text (x : str) :
  forall r r' t,
    feed_text r x = Some r' -> t <> [] ->
    rows r (readlines (x ++ t)) = rows r' (readlines t).
Proof.
  induction x as [|c x IH]; intros r r' t H Ht; cbn [feed_text] in H.
  - now injection H as <-.
  - cbn [app]. destruct (parse_process_char r (Ch c)) as [e|r1] eqn:P; [discriminate|].
    destruct (c =? LF) eqn:Hc.
    + apply N.eqb_eq in Hc. subst c. rewrite rows_lf. cbn [feed]. unfold bind. rewrite P.
      destruct (parse_process_char r1 EOL) as [e|r2]; [discriminate|].
      destruct (state_eqb (st r2) START_RECORD); [discriminate|]. now apply IH.
    + rewrite rows_char, P; auto. destruct x; [assumption|discriminate].
Qed.

Lemma feed_text_app (x y : str) :
  forall r r', feed_text r x = Some r' -> feed_text r (x ++ y) = feed_text r' y.
Proof.
  induction x as [|c x IH]; intros r r' H; cbn [feed_text app] in *.
  - now injection H as <-.
  - destruct (parse_process_char r (Ch c)) as [e|r1]; [discriminate|].
    destruct (c =? LF).
    + destruct (parse_process_char r1 EOL) as [e|r2]; [discriminate|].
      destruct (state_eqb (st r2) START_RECORD); [discriminate|]. now apply IH.
    + now apply IH.
Qed.

Lemma parse_add_char_ok (s : state) (fs : list str) (f : str) (c : N) :
  N.of_nat (List.length f) < field_limit ->
  parse_add_char (mkReader s fs f) c = inr (mkReader s fs (f ++ [c])).
Proof.
  intros H. unfold parse_add_char. cbn [field st fields].
  apply N.leb_gt in H. rewrite H. reflexivity.
Qed.

Lemma limite_cons (f : str) (c : N) (s : str) :
  N.of_nat (List.length (f ++ c :: s)) <= field_limit ->
  N.of_nat (List.length f) < field_limit
  /\ N.of_nat (List.length ((f ++ [c]) ++ s)) <= field_limit.
Proof.
  rewrite <- app_assoc. cbn [app]. rewrite length_app. cbn [List.length]. lia.
Qed.

Lemma special_false (c : N) :
  special c = false ->
  (c =? delimiter) = false /\ (c =? quotechar) = false
  /\ (c =? LF) = false /\ (c =? CR) = false.
Proof.
  unfold special, lineterminator. cbn [existsb].
  rewrite !orb_false_iff. intros ((A & B) & (R & E & _)). auto.
Qed.

(** The steps of the machine that reading a written field takes. *)

Lemma passo_abre_aspas (fs : list str) (f : str) :
  parse_process_char (mkReader START_FIELD fs f) (Ch quotechar)
  = inr (mkReader IN_QUOTED_FIELD fs f).
Proof. reflexivity. Qed.

Lemma passo_aspas (fs : list str) (f : str) :
  parse_process_char (mkReader IN_QUOTED_FIELD fs f) (Ch quotechar)
  = inr (mkReader QUOTE_IN_QUOTED_FIELD fs f).
Proof. reflexivity. Qed.

Lemma passo_aspas_dobradas (fs : list str) (f : str) :
  N.of_nat (List.length f) < field_limit ->
  parse_process_char (mkReader QUOTE_IN_QUOTED_FIELD fs f) (Ch quotechar)
  = inr (mkReader IN_QUOTED_FIELD fs (f ++ [quotechar])).
Proof.
  intros L. unfold parse_process_char. cbn [st]. rewrite N.eqb_refl.
  rewrite parse_add_char_ok by assumption. reflexivity.
Qed.

Lemma passo_entre_aspas (fs : list str) (f : str) (c : N) :
  (c =? quotechar) = false -> N.of_nat (List.length f) < field_limit ->
  parse_process_char (mkReader IN_QUOTED_FIELD fs f) (Ch c)
  = inr (mkReader IN_QUOTED_FIELD fs (f ++ [c])).
Proof.
  intros Q L. unfold parse_process_char. cbn [st]. rewrite Q.
  now apply parse_add_char_ok.
Qed.

Lemma passo_fim_de_linha_entre_aspas (fs : list str) (f : str) :
  parse_process_char (mkReader IN_QUOTED_FIELD fs f) EOL
  = inr (mkReader IN_QUOTED_FIELD fs f).
Proof. reflexivity. Qed.

Lemma passo_primeiro (fs : list str) (c : N) :
  special c = false -> N.of_nat (List.length (@nil N)) < field_limit ->
  parse_process_char (mkReader START_FIELD fs []) (Ch c)
  = inr (mkReader IN_FIELD fs [c]).
Proof.
  intros Hc L. apply special_false in Hc as (D & Q & E & R).
  unfold parse_process_char, start_field. cbn [st is_newline].
  rewrite E, R, Q, D, parse_add_char_ok by assumption. reflexivity.
Qed.

Lemma passo_simples (fs : list str) (f : str) (c : N) :
  special c = false -> N.of_nat (List.length f) < field_limit ->
  parse_process_char (mkReader IN_FIELD fs f) (Ch c)
  = inr (mkReader IN_FIELD fs (f ++ [c])).
Proof.
  intros Hc L. apply special_false in Hc as (D & Q & E & R).
  unfold parse_process_char. cbn [st is_newline].
  rewrite E, R, D. cbn [orb]. now apply parse_add_char_ok.
Qed.

(** Inside quotes the machine rebuilds the field from its escaped text. *)
Lemma feed_text_quoted (fs : list str) (s : str) :
  forall f,
    N.of_nat (List.length (f ++ s)) <= field_limit ->
    feed_text (mkReader IN_QUOTED_FIELD fs f) (escape s)
    = Some (mkReader IN_QUOTED_FIELD fs (f ++ s)).
Proof.
  induction s as [|c s IH]; intros f L.
  - now rewrite app_nil_r.
  - apply limite_cons in L as [L1 L2].
    replace (f ++ c :: s) with ((f ++ [c]) ++ s) by (now rewrite <- app_assoc).
    unfold escape. cbn [flat_map]. fold (escape s).
    destruct (c =? quotechar) eqn:Q.
    + apply N.eqb_eq in Q. subst c. cbn [app feed_text].
      rewrite passo_aspas.
      replace (quotechar =? LF) with false by reflexivity.
      rewrite passo_aspas_dobradas by assumption. now apply IH.
    + cbn [app feed_text]. rewrite passo_entre_aspas by assumption.
      destruct (c =? LF) eqn:E.
      * rewrite passo_fim_de_linha_entre_aspas. cbn [st state_eqb]. now apply IH.
      * now apply IH.
Qed.

(** Outside quotes the machine copies a field without special characters. *)
Lemma feed_text_unquoted (fs : list str) (s : str) :
  forall f,
    existsb special s = false ->
    N.of_nat (List.length (f ++ s)) <= field_limit ->
    feed_text (mkReader IN_FIELD fs f) s = Some (mkReader IN_FIELD fs (f ++ s)).
Proof.
  induction s as [|c s IH]; intros f Hs L.
  - now rewrite app_nil_r.
  - apply limite_cons in L as [L1 L2].
    replace (f ++ c :: s) with ((f ++ [c]) ++ s) by (now rewrite <- app_assoc).
    cbn [existsb] in Hs. apply orb_false_iff in Hs as [Hc Hs].
    cbn [feed_text]. rewrite passo_simples by assumption.
    apply special_false in Hc as (_ & _ & E & _). rewrite E. now apply IH.
Qed.

Lemma feed_text_field (fs : list str) (s : str) :
  N.of_nat (List.length s) <= field_limit ->
  exists r, feed_text (mkReader START_FIELD fs []) (write_field s) = Some r
            /\ campo_lido fs s r.
Proof.
  intros L. unfold write_field. destruct (existsb special s) eqn:Hs.
  - exists (mkReader QUOTE_IN_QUOTED_FIELD fs s). split; [|constructor].
    cbn [feed_text]. rewrite passo_abre_aspas.
    replace (quotechar =? LF) with false by reflexivity.
    rewrite (feed_text_app _ _ _ _ (feed_text_quoted fs s [] L)).
    cbn [app feed_text]. rewrite passo_aspas.
    replace (quotechar =? LF) with false by reflexivity. reflexivity.
  - destruct s as [|c s].
    + exists (mkReader START_FIELD fs []). split; [reflexivity|now constructor].
    + exists (mkReader IN_FIELD fs (c :: s)). split; [|constructor].
      cbn [existsb] in Hs. apply orb_false_iff in Hs as [Hc Hs].
      pose proof (limite_cons [] c s L) as [L1 L2].
      cbn [feed_text]. rewrite passo_primeiro by assumption.
      apply special_false in Hc as (_ & _ & E & _). rewrite E.
      now apply (feed_text_unquoted fs s [c]).
Qed.

Lemma campo_lido_delimiter (fs : list str) (s : str) (r : reader) :
  campo_lido fs s r ->
  parse_process_char r (Ch delimiter) = inr (mkReader START_FIELD (fs ++ [s]) []).
Proof.
  intros [->| |]; reflexivity.
Qed.

Lemma campo_lido_fim (fs : list str) (s : str) (r : reader) :
  campo_lido fs s r ->
  feed r [Ch LF; EOL] = inr (mkReader START_RECORD (fs ++ [s]) []).
Proof.
  intros [->| |]; reflexivity.
Qed.

Lemma passo_inicio_de_linha (c : N) :
  (c =? LF) = false -> (c =? CR) = false ->
  parse_process_char parse_reset (Ch c)
  = parse_process_char (mkReader START_FIELD [] []) (Ch c).
Proof.
  intros E R. unfold parse_process_char, parse_reset. cbn [st is_newline].
  rewrite E, R. reflexivity.
Qed.

(** A row never starts with a bare newline. *)
Lemma linha_primeiro (n e : str) :
  exists c x, linha n e = c :: x /\ (c =? LF) = false /\ (c =? CR) = false.
Proof.
  unfold linha, write_field. destruct (existsb special n) eqn:Hs.
  - eexists. eexists. split; [reflexivity|]. split; reflexivity.
  - destruct n as [|c n].
    + eexists. eexists. split; [reflexivity|]. split; reflexivity.
    + cbn [existsb] in Hs. apply orb_false_iff in Hs as [Hc _].
      apply special_false in Hc as (_ & _ & E & R).
      eexists. eexists. split; [reflexivity|]. now split.
Qed.

Lemma feed_text_linha (n e : str) :
  N.of_nat (List.length n) <= field_limit ->
  N.of_nat (List.length e) <= field_limit ->
  exists r, feed_text parse_reset (linha n e) = Some r /\ campo_lido [n] e r.
Proof.
  intros Ln Le.
  destruct (feed_text_field [] n Ln) as (r1 & F1 & C1).
  destruct (feed_text_field ([] ++ [n]) e Le) as (r2 & F2 & C2).
  exists r2. split; [|exact C2].
  assert (S : feed_text (mkReader START_FIELD [] []) (linha n e) = Some r2).
  { unfold linha. rewrite (feed_text_app _ _ _ _ F1). cbn [feed_text].
    rewrite (campo_lido_delimiter _ _ _ C1).
    replace (delimiter =? LF) with false by reflexivity. exact F2. }
  destruct (linha_primeiro n e) as (c & x & Hl & E & R).
  rewrite Hl in *. cbn [feed_text] in *.
  rewrite passo_inicio_de_linha by assumption. exact S.
Qed.

(** A written row is read back as its two fields. *)
Lemma rows_linha (n e t : str) :
  N.of_nat (List.length n) <= field_limit ->
  N.of_nat (List.length e) <= field_limit ->
  rows parse_reset (readlines (linha n e ++ LF :: t))
  = let (rs, err) := rows parse_reset (readlines t) in ([n; e] :: rs, err).
Proof.
  intros Ln Le. destruct (feed_text_linha n e Ln Le) as (r & F & C).
  rewrite (rows_feed_text _ _ _ _ F) by discriminate.
  rewrite rows_lf, (campo_lido_fim _ _ _ C). reflexivity.
Qed.

Lemma universal_newlines_sem_cr (x t : str) :
  ~ In CR x -> universal_newlines (x ++ t) = x ++ universal_newlines t.
Proof.
  induction x as [|c x IH]; intros H; [reflexivity|].
  cbn [app universal_newlines].
  destruct (c =? CR) eqn:E.
  - apply N.eqb_eq in E. exfalso. apply H. now left.
  - f_equal. apply IH. intros Hin. apply H. now right.
Qed.

Lemma write_field_sem_cr (s : str) : ~ In CR s -> ~ In CR (write_field s).
Proof.
  intros H. unfold write_field. destruct (existsb special s); [|exact H].
  intros [E|Hin]; [discriminate E|].
  apply in_app_iff in Hin as [Hin|[E|[]]]; [|discriminate E].
  unfold escape in Hin. apply in_flat_map in Hin as (c & Hc & Hin).
  destruct (c =? quotechar).
  - destruct Hin as [E|[E|[]]]; discriminate E.
  - destruct Hin as [E|[]]. apply H. rewrite <- E. exact Hc.
Qed.

Lemma linha_sem_cr (n e : str) : ~ In CR n -> ~ In CR e -> ~ In CR (linha n e).
Proof.
  intros Hn He. unfold linha. intros Hin.
  apply in_app_iff in Hin as [Hin|[E|Hin]].
  - now apply (write_field_sem_cr n).
  - discriminate E.
  - now apply (write_field_sem_cr e).
Qed.

(** The line terminator of a row is read as one line feed. *)
Lemma universal_newlines_writerow (a b : PyVal) (t : str) :
  ~ In CR (field_text a) -> ~ In CR (field_text b) ->
  universal_newlines (writerow [a; b] ++ t)
  = linha (field_text a) (field_text b) ++ LF :: universal_newlines t.
Proof.
  intros Ha Hb. unfold writerow. cbn [List.map join]. fold (linha (field_text a) (field_text b)).
  rewrite <- app_assoc, universal_newlines_sem_cr by (now apply linha_sem_cr).
  reflexivity.
Qed.

End Leitor.

Lemma campo_fiel_texto (v : PyVal) :
  campo_fiel v ->
  v = PyStr (Csv.field_text v) /\ ~ In Csv.CR (Csv.field_text v)
  /\ N.of_nat (List.length (Csv.field_text v)) <= Csv.field_limit.
Proof. intros (s & -> & H1 & H2). cbn [Csv.field_text]. auto. Qed.

Lemma universal_newlines_texto (us : list Usuario) :
  Forall registro_fiel us ->
  Csv.universal_newlines (flat_map (fun u => Csv.writerow [nome u; email u]) us) = texto us.
Proof.
  induction 1 as [|u us [Hn He] _ IH]; [reflexivity|].
  apply campo_fiel_texto in Hn as (_ & Hn & _). apply campo_fiel_texto in He as (_ & He & _).
  cbn [flat_map texto]. rewrite universal_newlines_writerow by assumption.
  rewrite IH, <- app_assoc. reflexivity.
Qed.

Lemma rows_texto (us : list Usuario) :
  Forall registro_fiel us ->
  Csv.rows Csv.parse_reset (Csv.readlines (texto us))
  = (List.map (fun u => [Csv.field_text (nome u); Csv.field_text (email u)]) us, None).
Proof.
  induction 1 as [|u us [Hn He] _ IH]; [reflexivity|].
  apply campo_fiel_texto in Hn as (_ & _ & Hn). apply campo_fiel_texto in He as (_ & _ & He).
  cbn [texto flat_map List.map]. fold (texto us).
  rewrite <- app_assoc. cbn [app]. rewrite rows_linha, IH by assumption. reflexivity.
Qed.

Lemma cabecalho_fiel : campo_fiel (PyStr Nome) /\ campo_fiel (PyStr Email).
Proof.
  split; eexists; (split; [reflexivity|]); split;
    try (apply N.leb_le; vm_compute; reflexivity);
    intros H; vm_compute in H; repeat (destruct H as [H|H]; [discriminate H|]); exact H.
Qed.

Lemma linha_lida (n e : str) :
  Csv.getitem Nome (Csv.dict_row [Nome; Email] [n; e]) = inr (PyStr n)
  /\ Csv.getitem Email (Csv.dict_row [Nome; Email] [n; e]) = inr (PyStr e).
Proof.
  unfold Csv.getitem, Csv.dict_row.
  cbn [List.map combine skipn List.length app fold_left fst snd].
  rewrite !Str_eqb_refl.
  replace (Str.eqb Email Nome) with false by (vm_compute; reflexivity).
  replace (Str.eqb Nome Email) with false by (vm_compute; reflexivity).
  split; reflexivity.
Qed.

Lemma comprehension_texto (us : list Usuario) :
  Forall registro_fiel us ->
  comprehension [Nome; Email]
    (List.map (fun u => [Csv.field_text (nome u); Csv.field_text (email u)]) us) None
  = inr us.
Proof.
  induction 1 as [|u us [Hn He] _ IH]; [reflexivity|].
  apply campo_fiel_texto in Hn as (Hn & _). apply campo_fiel_texto in He as (He & _).
  cbn [List.map comprehension].
  destruct (linha_lida (Csv.field_text (nome u)) (Csv.field_text (email u))) as [G1 G2].
  rewrite G1, G2, IH. cbn [bind]. rewrite <- Hn, <- He. now destruct u.
Qed.

(** Saved and loaded again, a list with no carriage return in its fields
    (and fields within the limit of the reader) is read back as it was. *)
Lemma csv_ida_e_volta_sem_cr (us : list Usuario) :
  Forall registro_fiel us -> csv_load (csv_dump us) = inr us.
Proof.
  intros H. unfold csv_load, csv_dump.
  destruct cabecalho_fiel as [Hn He].
  apply campo_fiel_texto in Hn as (_ & Cn & Ln). apply campo_fiel_texto in He as (_ & Ce & Le).
  rewrite universal_newlines_writerow by assumption.
  rewrite universal_newlines_texto by assumption.
  rewrite rows_linha, rows_texto by assumption.
  now apply comprehension_texto.
Qed.

Lemma salvar_e_carregar_sem_cr (w : Sistema) :
  escrita_csv w = None ->
  Forall registro_fiel (usuarios w) -> Forall registro_codificavel (usuarios w) ->
  usuarios (snd (carregar_usuarios formato_csv (snd (salvar_usuarios formato_csv w))))
  = usuarios w.
Proof.
  intros Hw H C. rewrite salvar_ok by assumption. cbn [snd]. unfold carregar_usuarios.
  rewrite Str_eqb_refl. cbn [arq_csv set_arq_csv].
  rewrite csv_ida_e_volta_sem_cr by assumption. reflexivity.
Qed.

(* ================================================================= *)
(** * Further properties *)

Opaque nenhum_cadastrado separador sem_lower.

(** ** Names *)

Lemma lstrip_vazio (s : str) : Str.lstrip s = [] <-> forallb Str.isspace s = true.
Proof.
  induction s as [|c s IH]; simpl; [tauto|].
  destruct (Str.isspace c); simpl; [exact IH|]. split; discriminate.
Qed.

Lemma lstrip_cabeca (s : str) (c : N) (r : str) :
  Str.lstrip s = c :: r -> Str.isspace c = false.
Proof.
  induction s as [|x s IH]; simpl; [discriminate|].
  destruct (Str.isspace x) eqn:E; [exact IH|]. intros H. injection H as <- _. exact E.
Qed.

Lemma forallb_rev {A} (f : A -> bool) (l : list A) :
  forallb f (rev l) = forallb f l.
Proof.
  induction l as [|x l IH]; [reflexivity|]. simpl.
  rewrite forallb_app, IH. simpl. rewrite andb_true_r. apply andb_comm.
Qed.

Lemma strip_vazio (s : str) : Str.strip s = [] <-> forallb Str.isspace s = true.
Proof.
  unfold Str.strip, Str.rstrip. split.
  - intros H. apply (f_equal (@rev N)) in H. rewrite rev_involutive in H. simpl in H.
    apply lstrip_vazio in H. rewrite forallb_rev in H.
    destruct (Str.lstrip s) as [|c r] eqn:E; [now apply lstrip_vazio|].
    apply lstrip_cabeca in E. simpl in H. rewrite E in H. discriminate H.
  - intros H. apply lstrip_vazio in H. rewrite H. reflexivity.
Qed.

(** X1.  [validar_nome] accepts a name exactly when it holds a character
    that is not whitespace; trimming comes first, so the empty string and
    strings of spaces, tabs or line breaks only are rejected. *)
Theorem validar_nome_caractere (s : str) :
  validar_nome s = true <-> exists c, In c s /\ Str.isspace c = false.
Proof.
  unfold validar_nome. split.
  - intros H. destruct (forallb Str.isspace s) eqn:F.
    + apply strip_vazio in F. rewrite F in H. discriminate H.
    + assert (G : ~ (forall c, In c s -> Str.isspace c = true)).
      { intros G. apply forallb_forall in G. congruence. }
      clear F H. induction s as [|x s IH]; [exfalso; apply G; intros c []|].
      destruct (Str.isspace x) eqn:E.
      * destruct IH as (c & Hc & Hs).
        { intros K. apply G. intros c [<-|Hc]; auto. }
        exists c. split; [now right|exact Hs].
      * exists x. split; [now left|exact E].
  - intros (c & Hc & Hs). destruct (Str.strip s) as [|x r] eqn:E; [|reflexivity].
    apply strip_vazio in E. rewrite forallb_forall in E. rewrite (E c Hc) in Hs.
    discriminate Hs.
Qed.

Lemma validar_nome_caractere_witness : validar_nome (utf8 " Ana ") = true.
Proof.
  apply (proj2 (validar_nome_caractere (utf8 " Ana "))).
  exists (chr "A"). split; [vm_compute; tauto|vm_compute; reflexivity].
Defined.

(** ** Emails *)

(** X2.  An email [validar_email] accepts holds exactly one at sign and
    neither a space nor a carriage return. *)
Theorem validar_email_uma_arroba (s : str) :
  validar_email s = true ->
  count_occ N.eq_dec s (chr "@") = 1%nat
  /\ ~ In (chr " ") s /\ ~ In Csv.CR s.
Proof.
  intros H. split; [|split; [|now apply validar_email_sem_cr]].
  - pose proof H as F. apply validar_email_spec in F.
    destruct F as (l & d & t & fim & -> & _ & Hl & _ & Hd & _ & Ht & Hf).
    assert (Z : forall ranges x, Sre.in_set ranges (chr "@") = false ->
                forallb (Sre.in_set ranges) x = true ->
                count_occ N.eq_dec x (chr "@") = 0%nat).
    { intros ranges x K Hx. apply count_occ_not_In. intros Hin.
      rewrite forallb_forall in Hx. rewrite (Hx _ Hin) in K. discriminate K. }
    rewrite count_occ_app, (Z set_local l) by (auto; vm_compute; reflexivity).
    rewrite count_occ_cons_eq by reflexivity.
    rewrite count_occ_app, (Z set_domain d) by (auto; vm_compute; reflexivity).
    rewrite count_occ_cons_neq by (intros E; vm_compute in E; discriminate E).
    rewrite count_occ_app, (Z set_alpha t) by (auto; vm_compute; reflexivity).
    destruct Hf as [-> | ->]; reflexivity.
  - intros Hin. destruct (validar_email_caracteres s H _ Hin) as [E|[E|E]];
      vm_compute in E; discriminate E.
Qed.

Lemma validar_email_uma_arroba_witness :
  count_occ N.eq_dec (utf8 "ana@example.com") (chr "@") = 1%nat.
Proof.
  apply (validar_email_uma_arroba (utf8 "ana@example.com")). vm_compute. reflexivity.
Defined.

(** ** Saving and loading *)

(** X3.  When the CSV file can be written, every field of the list can be
    encoded and no field holds a carriage return (nor exceeds the field
    limit of the reader), saving writes the table of the list and logs or
    prints nothing, and loading then changes nothing more: the list read
    back is the list saved, fields with commas, quotes and line feeds
    included. *)
Theorem salvar_carregar_ida_e_volta (w : Sistema) :
  escrita_csv w = None ->
  Forall registro_fiel (usuarios w) ->
  Forall registro_codificavel (usuarios w) ->
  salvar_usuarios formato_csv w = (None, set_arq_csv (Text (csv_dump (usuarios w))) w)
  /\ carregar_usuarios formato_csv (snd (salvar_usuarios formato_csv w))
     = (inr None, snd (salvar_usuarios formato_csv w)).
Proof.
  intros Hw H C. rewrite salvar_ok by assumption. split; [reflexivity|].
  cbn [snd]. unfold carregar_usuarios.
  rewrite Str_eqb_refl. cbn [arq_csv set_arq_csv].
  rewrite csv_ida_e_volta_sem_cr by assumption. reflexivity.
Qed.

Lemma campo_fiel_curto (s : str) :
  forallb (fun c => negb (c =? Csv.CR)) s = true ->
  (N.of_nat (List.length s) <=? Csv.field_limit) = true ->
  campo_fiel (PyStr s).
Proof.
  intros H L. exists s. split; [reflexivity|]. split; [|now apply N.leb_le].
  intros Hin. rewrite forallb_forall in H. specialize (H _ Hin).
  unfold Csv.CR in H. rewrite N.eqb_refl in H. discriminate H.
Qed.

Lemma salvar_carregar_ida_e_volta_witness :
  let u := mkUsuario (PyStr (utf8 "Silva, Ana" ++ [34; 10] ++ utf8 "x"))
                     (PyStr (utf8 "ana@x.co")) in
  let w := set_usuarios [u] (novo_sistema Absent JAbsent (fun _ => O)) in
  usuarios (snd (carregar_usuarios formato_csv (snd (salvar_usuarios formato_csv w)))) = [u].
Proof.
  intros u w.
  rewrite (proj2 (salvar_carregar_ida_e_volta w eq_refl
                    ltac:(constructor; [|constructor];
                          split; apply campo_fiel_curto; vm_compute; reflexivity)
                    ltac:(constructor; [|constructor]; split; vm_compute; reflexivity))).
  cbn [snd]. apply usuarios_salvar.
Defined.

(** When the CSV file cannot be opened, the three statements leave it as it
    was. *)
Lemma concluir_arquivo_fechado (registro sucesso : str) (w : Sistema) (e : Exn) :
  escrita_csv w = Some e -> arq_csv (snd (concluir registro sucesso w)) = arq_csv w.
Proof.
  intros H. unfold concluir. rewrite (salvar_falha w e H).
  destruct (falha_ao_salvar_casos e w) as [(_ & _ & ->)|(e' & -> & _)]; cbn [depois];
    [|reflexivity].
  destruct (log_event_casos registro
              (print (erro_ao_salvar e) (set_log (log w ++ [erro_ao_salvar e]) w)))
    as [(_ & _ & ->)|(e' & -> & _)]; reflexivity.
Qed.

(** And when the log can be written, the failure to save is logged and
    printed before the line and the success message of the operation. *)
Lemma concluir_nao_salvo (registro sucesso : str) (w : Sistema) (e : Exn) :
  escrita_csv w = Some e -> escrita_log w = None ->
  codificavel (exn_str e) = true -> codificavel registro = true ->
  let r := concluir registro sucesso w in
  fst r = None
  /\ usuarios (snd r) = usuarios w
  /\ arq_csv (snd r) = arq_csv w
  /\ log (snd r) = log w ++ [erro_ao_salvar e; registro]
  /\ saida (snd r) = saida w ++ [erro_ao_salvar e; utf8 "Sucesso: " ++ sucesso].
Proof.
  intros Hc Hl He Hr. cbv zeta. unfold concluir. rewrite (salvar_falha w e Hc).
  unfold falha_ao_salvar.
  rewrite log_event_ok by (try assumption; now rewrite erro_ao_salvar_codificavel).
  cbn [depois]. rewrite log_event_ok by assumption.
  cbn [depois fst snd usuarios arq_csv log saida mensagem_sucesso print set_log].
  rewrite <- !app_assoc. repeat split; reflexivity.
Qed.

(** X4.  When the CSV file cannot be opened for writing, while the log can
    be written and the name and the message of the failure encoded, a valid
    registration still returns [True] and reports success: the record is
    in the list in memory, the file is as it was, and the failure to save
    is logged and printed before the success message. *)
Theorem cadastrar_com_falha_ao_salvar (nome_ email_ : str) (w : Sistema) (e : Exn) :
  escrita_csv w = Some e -> escrita_log w = None ->
  codificavel (exn_str e) = true -> codificavel nome_ = true ->
  validar_nome nome_ = true -> validar_email email_ = true ->
  sem_email email_ (usuarios w) ->
  fst (cadastrar_usuario nome_ email_ w) = inr true
  /\ usuarios (snd (cadastrar_usuario nome_ email_ w))
     = usuarios w ++ [mkUsuario (PyStr nome_) (PyStr email_)]
  /\ arq_csv (snd (cadastrar_usuario nome_ email_ w)) = arq_csv w
  /\ log (snd (cadastrar_usuario nome_ email_ w))
     = log w ++ [erro_ao_salvar e; log_cadastrado nome_ email_]
  /\ saida (snd (cadastrar_usuario nome_ email_ w))
     = saida w ++ [erro_ao_salvar e; utf8 "Sucesso: " ++ cadastrado_com_sucesso nome_].
Proof.
  intros Hw Hl Hce Hcn Hn He Hs. apply email_cadastrado_false in Hs.
  rewrite cadastrar_sucesso by assumption. rewrite snd_retornar.
  destruct (concluir_nao_salvo (log_cadastrado nome_ email_) (cadastrado_com_sucesso nome_)
              (set_usuarios (usuarios w ++ [mkUsuario (PyStr nome_) (PyStr email_)]) w)
              e Hw Hl Hce) as (F & U & A & L & S).
  { rewrite log_cadastrado_codificavel, Hcn. now apply validar_email_codificavel. }
  split; [now apply fst_retornar|]. repeat split; assumption.
Qed.

Lemma cadastrar_com_falha_ao_salvar_witness :
  let w := mkSistema [] Absent JAbsent (Some (OtherError (utf8 "Permission denied")))
                     None None [] [] (fun _ => O) O in
  fst (cadastrar_usuario (utf8 "Ana") (utf8 "ana@x.co") w) = inr true
  /\ arq_csv (snd (cadastrar_usuario (utf8 "Ana") (utf8 "ana@x.co") w)) = Absent.
Proof.
  intros w.
  destruct (cadastrar_com_falha_ao_salvar (utf8 "Ana") (utf8 "ana@x.co") w
              (OtherError (utf8 "Permission denied")))
    as (H1 & _ & H3 & _); try (vm_compute; reflexivity).
  - intros x [].
  - split; [exact H1|exact H3].
Defined.

(** X5.  Loading replaces the list in memory by what the file holds: when
    a registration could not be saved, the next [carregar_usuarios] (as
    the listing of the menu does) drops the new record and goes back to the
    list of the file. *)
Theorem recarregar_descarta_nao_salvo (nome_ email_ : str) (w : Sistema) (e : Exn) :
  escrita_csv w = Some e ->
  sincronizado w ->
  Forall registro_fiel (usuarios w) ->
  validar_nome nome_ = true -> validar_email email_ = true ->
  sem_email email_ (usuarios w) ->
  let w1 := snd (cadastrar_usuario nome_ email_ w) in
  usuarios w1 = usuarios w ++ [mkUsuario (PyStr nome_) (PyStr email_)]
  /\ usuarios (snd (carregar_usuarios formato_csv w1)) = usuarios w.
Proof.
  intros Hw Hs Hf Hn He Hno w1. subst w1.
  split; [now apply usuarios_cadastrar_sucesso|].
  apply email_cadastrado_false in Hno.
  rewrite cadastrar_sucesso by assumption. rewrite snd_retornar.
  unfold carregar_usuarios. rewrite Str_eqb_refl.
  rewrite (concluir_arquivo_fechado _ _ (set_usuarios _ w) e Hw).
  cbn [arq_csv set_usuarios]. rewrite Hs, csv_ida_e_volta_sem_cr by assumption.
  reflexivity.
Qed.

Lemma recarregar_descarta_nao_salvo_witness :
  let w := mkSistema [] (Text (csv_dump [])) JAbsent
                     (Some (OtherError (utf8 "Permission denied")))
                     None None [] [] (fun _ => O) O in
  usuarios (snd (carregar_usuarios formato_csv
                   (snd (cadastrar_usuario (utf8 "Ana") (utf8 "ana@x.co") w)))) = [].
Proof.
  intros w.
  apply (recarregar_descarta_nao_salvo (utf8 "Ana") (utf8 "ana@x.co") w
           (OtherError (utf8 "Permission denied")));
    try reflexivity; try (vm_compute; reflexivity).
  - constructor.
  - intros x [].
Defined.

Lemma universal_newlines_id (x : str) :
  ~ In Csv.CR x -> Csv.universal_newlines x = x.
Proof.
  intros H. rewrite <- (app_nil_r x) at 1.
  rewrite universal_newlines_sem_cr by assumption. now rewrite app_nil_r.
Qed.

Lemma feed_text_campo_inicio (n : str) :
  n <> [] -> N.of_nat (List.length n) <= Csv.field_limit ->
  exists r, feed_text Csv.parse_reset (Csv.write_field n) = Some r
            /\ campo_lido [] n r.
Proof.
  intros Hn L. destruct (feed_text_field [] n L) as (r & F & C).
  exists r. split; [|exact C].
  assert (P : exists c x, Csv.write_field n = c :: x
                          /\ (c =? Csv.LF) = false /\ (c =? Csv.CR) = false).
  { unfold Csv.write_field. destruct (existsb Csv.special n) eqn:Hs.
    - eexists. eexists. split; [reflexivity|]. split; reflexivity.
    - destruct n as [|c n]; [contradiction|].
      cbn [existsb] in Hs. apply orb_false_iff in Hs as [Hc _].
      apply special_false in Hc as (_ & _ & E & R).
      eexists. eexists. split; [reflexivity|]. now split. }
  destruct P as (c & x & Hw & E & R). rewrite Hw in *. cbn [feed_text] in *.
  rewrite passo_inicio_de_linha by assumption. exact F.
Qed.

(** The rows of a file with a header, a blank line and a row of one field. *)
Lemma rows_linha_curta (n : str) :
  n <> [] -> N.of_nat (List.length n) <= Csv.field_limit ->
  Csv.rows Csv.parse_reset
    (Csv.readlines (linha Nome Email ++ Csv.LF :: Csv.LF :: Csv.write_field n ++ [Csv.LF]))
  = ([[Nome; Email]; []; [n]], None).
Proof.
  intros Hn L. destruct cabecalho_fiel as [Cn Ce].
  apply campo_fiel_texto in Cn as (_ & _ & Ln). apply campo_fiel_texto in Ce as (_ & _ & Le).
  rewrite rows_linha by assumption. rewrite rows_lf.
  replace (Csv.feed Csv.parse_reset [Csv.Ch Csv.LF; Csv.EOL])
    with (@inr Exn _ Csv.parse_reset) by reflexivity.
  cbn [Csv.st Csv.parse_reset Csv.state_eqb Csv.fields].
  destruct (feed_text_campo_inicio n Hn L) as (r & F & C).
  rewrite (rows_feed_text _ _ _ _ F) by discriminate.
  rewrite rows_lf, (campo_lido_fim _ _ _ C). reflexivity.
Qed.

(** X6.  A blank line of the CSV file is skipped, and a row that has a
    name but no second field is loaded as a record whose email is [None];
    saved and loaded again, that email comes back as the empty string. *)
Theorem linha_curta_sem_email (n : str) :
  n <> [] -> ~ In Csv.CR n -> N.of_nat (List.length n) <= Csv.field_limit ->
  csv_load (Csv.writerow [PyStr Nome; PyStr Email] ++ [Csv.LF]
              ++ Csv.write_field n ++ [Csv.LF])
  = inr [mkUsuario (PyStr n) PyNone]
  /\ csv_load (csv_dump [mkUsuario (PyStr n) PyNone])
     = inr [mkUsuario (PyStr n) (PyStr [])].
Proof.
  intros Hn Hcr L. split.
  - unfold csv_load. destruct cabecalho_fiel as [Cn Ce].
    apply campo_fiel_texto in Cn as (_ & Cn & _). apply campo_fiel_texto in Ce as (_ & Ce & _).
    rewrite universal_newlines_writerow by assumption.
    rewrite universal_newlines_id.
    2:{ intros Hin. cbn [app] in Hin. destruct Hin as [E|Hin]; [discriminate E|].
        apply in_app_iff in Hin as [Hin|[E|[]]]; [|discriminate E].
        now apply (write_field_sem_cr n). }
    cbn [app Csv.field_text]. rewrite rows_linha_curta by assumption.
    cbn [comprehension]. unfold Csv.getitem, Csv.dict_row.
    cbn [List.map combine skipn List.length app fold_left fst snd].
    rewrite !Str_eqb_refl.
    replace (Str.eqb Email Nome) with false by (vm_compute; reflexivity).
    replace (Str.eqb Nome Email) with false by (vm_compute; reflexivity).
    reflexivity.
  - change (csv_dump [mkUsuario (PyStr n) PyNone])
      with (csv_dump [mkUsuario (PyStr n) (PyStr [])]).
    apply csv_ida_e_volta_sem_cr. constructor; [|constructor].
    split; [now exists n|]. exists []. split; [reflexivity|]. split; [intros []|].
    apply N.leb_le. reflexivity.
Qed.

Lemma linha_curta_sem_email_witness :
  csv_load (Csv.writerow [PyStr Nome; PyStr Email] ++ [Csv.LF]
              ++ Csv.write_field (utf8 "Ana") ++ [Csv.LF])
  = inr [mkUsuario (PyStr (utf8 "Ana")) PyNone].
Proof.
  apply (linha_curta_sem_email (utf8 "Ana")).
  - intros E. vm_compute in E. discriminate E.
  - intros H. vm_compute in H.
    repeat (destruct H as [H|H]; [discriminate H|]). exact H.
  - apply N.leb_le. vm_compute. reflexivity.
Defined.

(** ** create, delete and their compositions *)

(** Removing changes neither what can be written nor, but by its lines, the log. *)
Lemma escrita_apagar (email_ : str) (w : Sistema) :
  escrita_csv (snd (apagar_usuario email_ w)) = escrita_csv w
  /\ escrita_log (snd (apagar_usuario email_ w)) = escrita_log w.
Proof.
  destruct (primeiro_ou_nenhum email_ (usuarios w)) as [Hno|(antes & u & depois_ & Hp)].
  - rewrite apagar_nenhum by assumption. split; reflexivity.
  - rewrite (apagar_primeiro _ _ _ _ _ Hp).
    destruct (concluir_geral (log_removido email_) (removido_com_sucesso email_)
                (set_usuarios (antes ++ depois_) w)) as (_ & A & B & _).
    split; assumption.
Qed.

(** X7.  Removing by its email a record that has just been registered gives
    back the list as it was before the registration. *)
Theorem cadastrar_depois_apagar (nome_ email_ : str) (w : Sistema) :
  fst (cadastrar_usuario nome_ email_ w) = inr true ->
  usuarios (snd (apagar_usuario email_ (snd (cadastrar_usuario nome_ email_ w))))
  = usuarios w.
Proof.
  intros F.
  destruct (cadastrar_casos nome_ email_ w)
    as [(_ & C)|[(_ & _ & C)|[(_ & _ & _ & C)|(Hn & He & Hd & _ & U)]]];
    try (rewrite C in F; cbn [fst] in F; discriminate F).
  apply email_cadastrado_false in Hd.
  rewrite (usuarios_apagar_primeiro email_ _ (usuarios w)
             (mkUsuario (PyStr nome_) (PyStr email_)) []).
  - apply app_nil_r.
  - split; [exact U|]. split; [exact Hd|reflexivity].
Qed.

Lemma cadastrar_depois_apagar_witness :
  let w := set_usuarios [mkUsuario (PyStr (utf8 "Bia")) (PyStr (utf8 "bia@x.co"))]
             (novo_sistema Absent JAbsent (fun _ => O)) in
  usuarios (snd (apagar_usuario (utf8 "ana@x.co")
                   (snd (cadastrar_usuario (utf8 "Ana") (utf8 "ana@x.co") w))))
  = usuarios w.
Proof.
  intros w. apply cadastrar_depois_apagar. vm_compute. reflexivity.
Defined.

(** X8.  On a list with pairwise-distinct emails, [apagar_usuario] leaves
    no record with the email, so the email can be registered again: a
    valid registration with it appends its record, and returns [True] when
    the log can be written and the name (and the message of a failure to
    open the CSV file) encoded.  With duplicated emails only the first
    record goes and the email stays taken. *)
Theorem apagar_libera_email (email_ : str) (w : Sistema) :
  let w1 := snd (apagar_usuario email_ w) in
  (emails_distintos (usuarios w) ->
   sem_email email_ (usuarios w1)
   /\ forall nome_, validar_nome nome_ = true -> validar_email email_ = true ->
        usuarios (snd (cadastrar_usuario nome_ email_ w1))
        = usuarios w1 ++ [mkUsuario (PyStr nome_) (PyStr email_)]
        /\ (escrita_log w = None -> erro_codificavel (escrita_csv w) ->
            codificavel nome_ = true ->
            fst (cadastrar_usuario nome_ email_ w1) = inr true))
  /\ (forall antes u depois_,
        primeiro_com_email email_ (usuarios w) antes u depois_ ->
        ~ sem_email email_ depois_ ->
        forall nome_, fst (cadastrar_usuario nome_ email_ w1) = inr false).
Proof.
  intros w1. subst w1. split.
  - intros D.
    assert (S : sem_email email_ (usuarios (snd (apagar_usuario email_ w)))).
    { destruct (primeiro_ou_nenhum email_ (usuarios w)) as [Hno|(antes & u & depois_ & Hp)].
      - now rewrite usuarios_apagar_nenhum.
      - rewrite (usuarios_apagar_primeiro _ _ _ _ _ Hp).
        destruct Hp as (E & Hno & Hu). unfold emails_distintos in D.
        rewrite E, emails_app in D. cbn [emails List.map] in D. rewrite Hu in D.
        apply NoDup_remove_2 in D. apply sem_email_emails. now rewrite emails_app. }
    split; [exact S|]. intros nome_ Hn He.
    split; [now apply usuarios_cadastrar_sucesso|].
    intros Hl Hc Hcod. destruct (escrita_apagar email_ w) as [A B].
    apply cadastrar_retorna; auto; [now rewrite B|now rewrite A].
  - intros antes u depois_ Hp Hd nome_.
    assert (T : email_cadastrado email_ (usuarios (snd (apagar_usuario email_ w))) = true).
    { destruct (email_cadastrado email_ (usuarios (snd (apagar_usuario email_ w)))) eqn:T;
        [reflexivity|].
      exfalso. apply Hd. apply email_cadastrado_false in T.
      rewrite (usuarios_apagar_primeiro _ _ _ _ _ Hp) in T.
      intros x Hx. apply T. apply in_app_iff. now right. }
    unfold cadastrar_usuario.
    destruct (validar_nome nome_); [|reflexivity].
    destruct (validar_email email_); [|reflexivity].
    rewrite T. reflexivity.
Qed.

Lemma apagar_libera_email_witness :
  let w := set_usuarios [mkUsuario (PyStr (utf8 "Ana")) (PyStr (utf8 "ana@x.co"))]
             (novo_sistema Absent JAbsent (fun _ => O)) in
  fst (cadastrar_usuario (utf8 "Outra") (utf8 "ana@x.co")
         (snd (apagar_usuario (utf8 "ana@x.co") w))) = inr true.
Proof.
  intros w.
  destruct (proj1 (apagar_libera_email (utf8 "ana@x.co") w)) as [_ H].
  - unfold emails_distintos. cbn [emails List.map usuarios w set_usuarios email].
    constructor; [intros []|constructor].
  - apply (H (utf8 "Outra")).
    + vm_compute. reflexivity.
    + vm_compute. reflexivity.
    + reflexivity.
    + intros e K. discriminate K.
    + vm_compute. reflexivity.
Defined.

(** ** Sequences of calls *)

Lemma set_cursor_id (w : Sistema) : set_cursor (cursor w) w = w.
Proof. now destruct w. Qed.

Lemma set_cursor_set_cursor (c c' : nat) (w : Sistema) :
  set_cursor c (set_cursor c' w) = set_cursor c w.
Proof. reflexivity. Qed.

(** Drawing changes the cursor of the generator and nothing else. *)
Lemma random_choices_cursor {A} (d : A) (xs : list A) (k : nat) :
  forall w, exists c, snd (random_choices d xs k w) = set_cursor c w.
Proof.
  induction k as [|k IH]; intros w; cbn [random_choices].
  - exists (cursor w). symmetry. apply set_cursor_id.
  - unfold random_choice.
    destruct (IH (set_cursor (S (cursor w)) w)) as (c & E).
    destruct (random_choices d xs k (set_cursor (S (cursor w)) w)) as [r w2].
    cbn [snd] in *. exists c. now rewrite E.
Qed.

Lemma gerar_email_cursor (nome_ : str) (w : Sistema) :
  exists c, snd (gerar_email_aleatorio nome_ w) = set_cursor c w.
Proof.
  unfold gerar_email_aleatorio.
  destruct (random_choices_cursor 0 ascii_lowercase 5 w) as (c & E).
  destruct (random_choices 0 ascii_lowercase 5 w) as [letras w1]. now exists c.
Qed.

Lemma sortear_email_cursor (nome_ : str) (fuel : nat) :
  forall email_ w email' w',
    sortear_email fuel nome_ email_ w = Some (email', w') ->
    exists c, w' = set_cursor c w.
Proof.
  induction fuel as [|fuel IH]; intros email_ w email' w' H; cbn [sortear_email] in H.
  - destruct (email_cadastrado email_ (usuarios w)); [discriminate|].
    injection H as _ <-. exists (cursor w). symmetry. apply set_cursor_id.
  - destruct (email_cadastrado email_ (usuarios w)).
    + destruct (gerar_email_cursor nome_ w) as (c & E).
      destruct (gerar_email_aleatorio nome_ w) as [e1 w1]. cbn [snd] in E. subst w1.
      destruct (IH _ _ _ _ H) as (c' & ->). now exists c'.
    + injection H as _ <-. exists (cursor w). symmetry. apply set_cursor_id.
Qed.

Lemma descartar_retornar {A} (v : A) (r : option Exn * Sistema) :
  descartar (retornar v r) = r.
Proof. destruct r as [[e|] w]; reflexivity. Qed.

(** The names of [gerar_nome_aleatorio] hold no surrogate. *)
Lemma nomes_codificaveis :
  forallb (fun n => forallb (fun s => codificavel (n ++ utf8 " " ++ s)) sobrenomes) nomes
  = true.
Proof. vm_compute. reflexivity. Qed.

Lemma gerar_nome_codificavel (w : Sistema) :
  codificavel (fst (gerar_nome_aleatorio w)) = true.
Proof.
  unfold gerar_nome_aleatorio.
  assert (Hn : nomes <> []) by (intros E; vm_compute in E; discriminate E).
  assert (Hs : sobrenomes <> []) by (intros E; vm_compute in E; discriminate E).
  pose proof (random_choice_In [] nomes w Hn) as I1.
  destruct (random_choice [] nomes w) as [n w1]. cbn [fst] in I1.
  pose proof (random_choice_In [] sobrenomes w1 Hs) as I2.
  destruct (random_choice [] sobrenomes w1) as [s w2]. cbn [fst] in *.
  pose proof (proj1 (forallb_forall _ _) nomes_codificaveis n I1) as H1. cbv beta in H1.
  exact (proj1 (forallb_forall _ _) H1 s I2).
Qed.

(** A registration ends in one of two ways: a failure, which only prints a
    message, or the new record in the list followed by saving, logging and
    the success message. *)
Lemma cadastrar_formas (nome_ email_ : str) (w : Sistema) (c : nat) :
  (exists m, descartar (cadastrar_usuario nome_ email_ (set_cursor c w))
             = (None, mensagem_erro m (set_cursor c w)))
  \/ (exists a b,
         descartar (cadastrar_usuario nome_ email_ (set_cursor c w))
         = concluir b a
             (set_usuarios (usuarios w ++ [mkUsuario (PyStr nome_) (PyStr email_)])
                (set_cursor c w))
         /\ validar_email email_ = true).
Proof.
  unfold cadastrar_usuario.
  destruct (validar_nome nome_); [|left; eexists; reflexivity].
  destruct (validar_email email_); [|left; eexists; reflexivity].
  destruct (email_cadastrado email_ (usuarios (set_cursor c w)));
    [left; eexists; reflexivity|].
  right. cbn [negb]. rewrite descartar_retornar. eexists. eexists.
  split; reflexivity.
Qed.

(** A call ends in one of two ways: a failure, which only prints a
    message, or a change of the list followed by saving, logging and the
    success message; the records of the new list can be encoded when those
    of the old list and the name given can. *)
Lemma executar_formas (o : operacao) (w : Sistema) (r : option Exn * Sistema) :
  executar o w = Some r ->
  (exists m c, r = (None, mensagem_erro m (set_cursor c w)))
  \/ (exists a b us c,
         r = concluir b a (set_usuarios us (set_cursor c w))
         /\ (Forall registro_codificavel (usuarios w) -> operacao_codificavel o ->
             Forall registro_codificavel us)).
Proof.
  assert (K : forall nome_ email_ c, codificavel nome_ = true ->
    (exists m c', descartar (cadastrar_usuario nome_ email_ (set_cursor c w))
                  = (None, mensagem_erro m (set_cursor c' w)))
    \/ (exists a b us c',
           descartar (cadastrar_usuario nome_ email_ (set_cursor c w))
           = concluir b a (set_usuarios us (set_cursor c' w))
           /\ (Forall registro_codificavel (usuarios w) -> Forall registro_codificavel us))).
  { intros nome_ email_ c Hcod.
    destruct (cadastrar_formas nome_ email_ w c) as [(m & ->)|(a & b & -> & He)].
    - left. now exists m, c.
    - right. exists a, b, (usuarios w ++ [mkUsuario (PyStr nome_) (PyStr email_)]), c.
      split; [reflexivity|]. intros Hu. apply Forall_app. split; [exact Hu|].
      constructor; [|constructor]. split; [exact Hcod|].
      now apply validar_email_codificavel. }
  destruct o as [nome_ email_|email_|email_ nn ne|fuel]; cbn [executar]; intros H.
  - injection H as <-.
    assert (W : cadastrar_usuario nome_ email_ w
                = cadastrar_usuario nome_ email_ (set_cursor (cursor w) w))
      by (now rewrite set_cursor_id).
    rewrite W. clear W.
    destruct (codificavel nome_) eqn:Hcod.
    + destruct (K nome_ email_ (cursor w) Hcod) as [L|(a & b & us & c & E & F)];
        [now left|].
      right. exists a, b, us, c. split; [exact E|]. intros Hu _. now apply F.
    + destruct (cadastrar_formas nome_ email_ w (cursor w)) as [(m & ->)|(a & b & -> & _)].
      * left. now exists m, (cursor w).
      * right. do 4 eexists. split; [reflexivity|]. intros _ Ho.
        cbn [operacao_codificavel] in Ho. rewrite Hcod in Ho. discriminate Ho.
  - injection H as <-.
    destruct (primeiro_ou_nenhum email_ (usuarios w)) as [Hno|(antes & u & depois_ & Hp)].
    + left. exists (nao_encontrado email_), (cursor w).
      rewrite apagar_nenhum by assumption. now rewrite set_cursor_id.
    + right. exists (removido_com_sucesso email_), (log_removido email_),
        (antes ++ depois_), (cursor w).
      rewrite (apagar_primeiro _ _ _ _ _ Hp), set_cursor_id. split; [reflexivity|].
      intros Hu _. destruct Hp as (E & _). rewrite E in Hu.
      apply Forall_app in Hu as [Ha Hd]. apply Forall_app. split; [exact Ha|].
      now inversion Hd.
  - injection H as <-.
    destruct (primeiro_ou_nenhum email_ (usuarios w)) as [Hno|(antes & u & depois_ & Hp)].
    + left. exists (nao_encontrado email_), (cursor w).
      rewrite atualizar_nenhum by assumption. now rewrite set_cursor_id.
    + right. exists (atualizado_com_sucesso email_),
        (log_atualizado email_ (atualizado nn ne u)),
        (antes ++ atualizado nn ne u :: depois_), (cursor w).
      rewrite (atualizar_primeiro _ _ _ _ _ _ _ Hp), set_cursor_id. split; [reflexivity|].
      intros Hu Ho. destruct Hp as (E & _). rewrite E in Hu.
      apply Forall_app in Hu as [Ha Hd]. apply Forall_cons_iff in Hd as [Hcu Hd].
      apply Forall_app. split; [exact Ha|]. constructor; [|exact Hd].
      apply atualizado_codificavel; [exact Hcu|].
      intros s' ->. exact Ho.
  - unfold gerar_usuario_aleatorio in H.
    pose proof (gerar_nome_codificavel w) as Hcod.
    assert (N1 : exists c, snd (gerar_nome_aleatorio w) = set_cursor c w)
      by (eexists; reflexivity).
    destruct N1 as (c1 & N1).
    destruct (gerar_nome_aleatorio w) as [nome_ w1]. cbn [fst snd] in N1, Hcod. subst w1.
    destruct (gerar_email_cursor nome_ (set_cursor c1 w)) as (c2 & N2).
    destruct (gerar_email_aleatorio nome_ (set_cursor c1 w)) as [email_ w2].
    cbn [snd] in N2. subst w2.
    destruct (sortear_email fuel nome_ email_ _) as [[email' w3]|] eqn:S; [|discriminate].
    injection H as <-.
    apply sortear_email_cursor in S as (c3 & ->).
    destruct (K nome_ email' c3 Hcod) as [L|(a & b & us & c & E & F)]; [now left|].
    right. exists a, b, us, c. split; [exact E|]. intros Hu _. now apply F.
Qed.

(** Whatever happens, a call leaves what can be written as it is and adds
    two lines to the log at most. *)
Lemma executar_geral (o : operacao) (w : Sistema) (r : option Exn * Sistema) :
  executar o w = Some r ->
  escrita_csv (snd r) = escrita_csv w
  /\ escrita_log (snd r) = escrita_log w
  /\ exists l, log (snd r) = log w ++ l /\ (List.length l <= 2)%nat.
Proof.
  intros H. apply executar_formas in H as [(m & c & ->)|(a & b & us & c & -> & _)].
  - cbn [snd]. repeat split. exists []. split; [symmetry; apply app_nil_r|cbn; lia].
  - destruct (concluir_geral b a (set_usuarios us (set_cursor c w))) as (_ & A & B & L).
    repeat split; assumption.
Qed.

(** While the CSV file can be written and the records and the names
    encoded, a call leaves the file holding the table of the list, if it
    held it before, and adds one line to the log at most. *)
Lemma executar_salva (o : operacao) (w : Sistema) (r : option Exn * Sistema) :
  executar o w = Some r ->
  escrita_csv w = None -> Forall registro_codificavel (usuarios w) ->
  operacao_codificavel o ->
  escrita_csv (snd r) = None
  /\ Forall registro_codificavel (usuarios (snd r))
  /\ (sincronizado w -> sincronizado (snd r))
  /\ exists l, log (snd r) = log w ++ l /\ (List.length l <= 1)%nat.
Proof.
  intros H Hc Hu Ho.
  apply executar_formas in H as [(m & c & ->)|(a & b & us & c & -> & F)].
  - cbn [snd]. repeat split; auto. exists []. split; [symmetry; apply app_nil_r|cbn; lia].
  - specialize (F Hu Ho).
    destruct (concluir_geral b a (set_usuarios us (set_cursor c w))) as (U & A & _).
    destruct (concluir_salva b a (set_usuarios us (set_cursor c w)) Hc F) as (S & L).
    cbn [usuarios set_usuarios] in U, S.
    split; [now rewrite A|]. split; [now rewrite U|]. split; [|exact L].
    intros _. unfold sincronizado. now rewrite S, U.
Qed.

(** The first call of a sequence and the rest. *)
Lemma executar_todas_cons (o : operacao) (os : list operacao) (w : Sistema)
      (r : option Exn * Sistema) :
  executar_todas (o :: os) w = Some r ->
  exists r1, executar o w = Some r1
             /\ ((exists e, fst r1 = Some e /\ r = r1)
                 \/ (fst r1 = None /\ executar_todas os (snd r1) = Some r)).
Proof.
  cbn [executar_todas]. destruct (executar o w) as [[[e|] w1]|]; intros H.
  - injection H as <-. eexists. split; [reflexivity|]. left. now exists e.
  - eexists. split; [reflexivity|]. right. now split.
  - discriminate H.
Qed.

(** X10.  While the CSV file can be written and the records of the list
    and the names given can be encoded, every sequence of registrations,
    removals, updates and random registrations, run to its end or to the
    first call that raises, leaves the file holding the table of the list
    in memory, if it held it before. *)
Theorem sequencia_sincronizada (os : list operacao) :
  forall w r,
    escrita_csv w = None -> sincronizado w ->
    Forall registro_codificavel (usuarios w) -> Forall operacao_codificavel os ->
    executar_todas os w = Some r ->
    sincronizado (snd r) /\ escrita_csv (snd r) = None
    /\ Forall registro_codificavel (usuarios (snd r)).
Proof.
  induction os as [|o os IH]; intros w r Hw Hs Hu Ho H.
  - cbn [executar_todas] in H. injection H as <-. now repeat split.
  - apply Forall_cons_iff in Ho as [Ho Hos].
    apply executar_todas_cons in H as (r1 & E & [(e & _ & ->)|(_ & H)]);
      destruct (executar_salva o w r1 E Hw Hu Ho) as (A & B & C & _).
    + split; [now apply C|]. now split.
    + apply (IH (snd r1) r); auto.
Qed.

Lemma sequencia_sincronizada_witness :
  let w := novo_sistema (Text (csv_dump [])) JAbsent (fun _ => O) in
  let os := [Cadastrar (utf8 "Ana") (utf8 "ana@x.co");
             Atualizar (utf8 "ana@x.co") (Some (utf8 "Ana Maria")) None] in
  exists r, executar_todas os w = Some r /\ sincronizado (snd r).
Proof.
  intros w os.
  destruct (executar_todas os w) as [r|] eqn:E; [|vm_compute in E; discriminate E].
  exists r. split; [reflexivity|].
  apply (sequencia_sincronizada os w r); try reflexivity; [constructor| |exact E].
  repeat constructor; vm_compute; reflexivity.
Defined.

(** X11.  The log is only appended to: after any sequence of calls the old
    log is a prefix of the new one, and a call adds two lines at most (the
    failure to save and the line of the operation); while the CSV file can
    be written and the records of the list and the names given can be
    encoded, a call adds one line at most. *)
Theorem sequencia_log (os : list operacao) :
  forall w r,
    executar_todas os w = Some r ->
    (exists l, log (snd r) = log w ++ l /\ (List.length l <= 2 * List.length os)%nat)
    /\ (escrita_csv w = None -> Forall registro_codificavel (usuarios w) ->
        Forall operacao_codificavel os ->
        exists l, log (snd r) = log w ++ l /\ (List.length l <= List.length os)%nat).
Proof.
  induction os as [|o os IH]; intros w r H.
  - cbn [executar_todas] in H. injection H as <-. cbn [snd].
    split; [|intros _ _ _]; exists []; (split; [symmetry; apply app_nil_r|cbn; lia]).
  - apply executar_todas_cons in H as (r1 & E & [(e & _ & ->)|(_ & H)]).
    + split.
      * destruct (executar_geral o w r1 E) as (_ & _ & l & L & B).
        exists l. split; [exact L|cbn [List.length]; lia].
      * intros Hw Hu Ho. apply Forall_cons_iff in Ho as [Ho _].
        destruct (executar_salva o w r1 E Hw Hu Ho) as (_ & _ & _ & l & L & B).
        exists l. split; [exact L|cbn [List.length]; lia].
    + destruct (IH _ _ H) as ((l2 & L2 & B2) & G). split.
      * destruct (executar_geral o w r1 E) as (_ & _ & l & L & B).
        exists (l ++ l2). split; [now rewrite L2, L, app_assoc|].
        rewrite length_app. cbn [List.length]. lia.
      * intros Hw Hu Ho. apply Forall_cons_iff in Ho as [Ho Hos].
        destruct (executar_salva o w r1 E Hw Hu Ho) as (A & B & _ & l & L & Bl).
        destruct (G A B Hos) as (l3 & L3 & B3).
        exists (l ++ l3). split; [now rewrite L3, L, app_assoc|].
        rewrite length_app. cbn [List.length]. lia.
Qed.

Lemma sequencia_log_witness :
  let w := novo_sistema Absent JAbsent (fun _ => O) in
  let os := [Cadastrar (utf8 "Ana") (utf8 "ana@x.co"); Apagar (utf8 "nao@x.co")] in
  exists r l, executar_todas os w = Some r
              /\ log (snd r) = log w ++ l /\ (List.length l <= List.length os)%nat.
Proof.
  intros w os.
  destruct (executar_todas os w) as [r|] eqn:E; [|vm_compute in E; discriminate E].
  destruct (proj2 (sequencia_log os w r E)) as (l & L & B).
  - reflexivity.
  - constructor.
  - repeat constructor.
  - exists r, l. split; [reflexivity|]. split; assumption.
Defined.

Lemma email_atualizado (novo_nome novo_email : option str) (u : Usuario) :
  aceito validar_email novo_email = false ->
  email (atualizado novo_nome novo_email u) = email u.
Proof.
  intros H. unfold atualizado.
  destruct novo_email as [s|]; [rewrite H|];
    (destruct novo_nome as [t|]; [destruct (aceito validar_nome (Some t))|]; reflexivity).
Qed.

(** An update that assigns no email leaves the emails of the list as they are. *)
Lemma emails_atualizar (email_ : str) (novo_nome novo_email : option str) (w : Sistema) :
  aceito validar_email novo_email = false ->
  emails (usuarios (snd (atualizar_usuario email_ novo_nome novo_email w)))
  = emails (usuarios w).
Proof.
  intros H.
  destruct (primeiro_ou_nenhum email_ (usuarios w)) as [Hno|(antes & u & depois_ & Hp)].
  - rewrite atualizar_nenhum by assumption. reflexivity.
  - rewrite (atualizar_primeiro _ _ _ _ _ _ _ Hp).
    rewrite (proj1 (concluir_geral _ _ (set_usuarios _ w))). cbn [usuarios set_usuarios].
    destruct Hp as (E & _). rewrite E, !emails_app. cbn [emails List.map].
    now rewrite email_atualizado.
Qed.

(** X9.  Every sequence of registrations, removals, random registrations
    and updates that assign no email keeps the emails of the list pairwise
    distinct. *)
Theorem sequencia_emails_distintos (os : list operacao) :
  Forall sem_novo_email os ->
  forall w r,
    emails_distintos (usuarios w) ->
    executar_todas os w = Some r ->
    emails_distintos (usuarios (snd r)).
Proof.
  induction 1 as [|o os Ho _ IH]; intros w r D H.
  - cbn [executar_todas] in H. now injection H as <-.
  - apply executar_todas_cons in H as (r1 & E & H).
    assert (D1 : emails_distintos (usuarios (snd r1))).
    { destruct o as [nome_ email_|email_|email_ nn ne|fuel]; cbn [executar] in E.
      + injection E as <-. rewrite snd_descartar. now apply cadastrar_preserva_distintos.
      + injection E as <-. now apply apagar_preserva_distintos.
      + injection E as <-. unfold emails_distintos.
        now rewrite emails_atualizar.
      + now apply (gerar_preserva_distintos fuel w). }
    destruct H as [(e & _ & ->)|(_ & H)]; [exact D1|].
    now apply (IH (snd r1) r).
Qed.

Lemma sequencia_emails_distintos_witness :
  let w := novo_sistema Absent JAbsent (fun _ => O) in
  let os := [Cadastrar (utf8 "Ana") (utf8 "ana@x.co");
             Cadastrar (utf8 "Bia") (utf8 "bia@x.co");
             Atualizar (utf8 "ana@x.co") (Some (utf8 "Ana Maria")) None] in
  exists r, executar_todas os w = Some r /\ emails_distintos (usuarios (snd r)).
Proof.
  intros w os.
  destruct (executar_todas os w) as [r|] eqn:E; [|vm_compute in E; discriminate E].
  exists r. split; [reflexivity|].
  apply (sequencia_emails_distintos os ltac:(repeat constructor) w r); [constructor|exact E].
Defined.

(** ** Random users *)

(** X12.  When [random.choice(nomes)] returns any name but ["João"] and
    the loop of [gerar_usuario_aleatorio] ends, exactly one record is
    appended to the list; its name and its email pass the validations and
    no record had that email. *)
Theorem gerar_usuario_ascii (fuel : nat) (w : Sistema) (r : option Exn * Sistema) :
  Nat.modulo (rnd w (cursor w)) 8 <> 1%nat ->
  gerar_usuario_aleatorio fuel w = Some r ->
  exists nome_ email_,
    usuarios (snd r) = usuarios w ++ [mkUsuario (PyStr nome_) (PyStr email_)]
    /\ validar_nome nome_ = true /\ validar_email email_ = true
    /\ sem_email email_ (usuarios w).
Proof.
  intros Hj H. unfold gerar_usuario_aleatorio in H.
  destruct (gerar_nome_ascii w Hj) as (Vn & Hl).
  pose proof (usuarios_gerar_nome w) as U1.
  destruct (gerar_nome_aleatorio w) as [nome_ w1]. cbn [fst snd] in Vn, Hl, U1.
  assert (Hne : nome_ <> []) by (intros ->; vm_compute in Vn; discriminate Vn).
  pose proof (usuarios_gerar_email nome_ w1) as U2.
  pose proof (gerar_email_valido nome_ w1 Hl Hne) as V.
  destruct (gerar_email_aleatorio nome_ w1) as [email_ w2]. cbn [fst snd] in U2, V.
  destruct (sortear_email fuel nome_ email_ w2) as [[email' w3]|] eqn:S; [|discriminate].
  injection H as <-.
  destruct (sortear_email_spec (fun e => validar_email e = true) nome_ fuel
              (fun w => gerar_email_valido nome_ w Hl Hne) _ _ _ _ V S) as (V' & U3 & Hno).
  exists nome_, email'.
  rewrite snd_descartar, usuarios_cadastrar_sucesso by assumption.
  rewrite U3, U2, U1 in *. repeat split; auto.
Qed.

Lemma gerar_usuario_ascii_witness :
  exists nome_ email_,
    option_map (fun r => usuarios (snd r))
      (gerar_usuario_aleatorio 0 (novo_sistema Absent JAbsent (fun _ => 2%nat)))
    = Some ([] ++ [mkUsuario (PyStr nome_) (PyStr email_)]).
Proof.
  destruct (gerar_usuario_aleatorio 0 (novo_sistema Absent JAbsent (fun _ => 2%nat)))
    as [r|] eqn:E; [|vm_compute in E; discriminate E].
  assert (J : Nat.modulo (rnd (novo_sistema Absent JAbsent (fun _ => 2%nat))
                              (cursor (novo_sistema Absent JAbsent (fun _ => 2%nat)))) 8
              <> 1%nat)
    by (intros K; vm_compute in K; discriminate K).
  destruct (gerar_usuario_ascii 0 _ r J E) as (n & e & U & _).
  exists n, e. cbn [option_map]. now rewrite U.
Defined.

(** ** Listing *)

Lemma length_ljust (width : nat) (s : str) :
  List.length (ljust width s) = Nat.max width (List.length s).
Proof. unfold ljust. rewrite length_app, repeat_length. lia. Qed.

Lemma saida_imprimir_todas (ls : list str) :
  forall w, saida (imprimir_todas ls w) = saida w ++ ls.
Proof.
  induction ls as [|l ls IH]; intros w; cbn [imprimir_todas fold_left].
  - now rewrite app_nil_r.
  - fold (imprimir_todas ls (print l w)). rewrite IH. cbn [saida print].
    now rewrite <- app_assoc.
Qed.

Lemma usuarios_imprimir_todas (ls : list str) :
  forall w, usuarios (imprimir_todas ls w) = usuarios w
            /\ arq_csv (imprimir_todas ls w) = arq_csv w
            /\ log (imprimir_todas ls w) = log w.
Proof.
  induction ls as [|l ls IH]; intros w; cbn [imprimir_todas fold_left]; [auto|].
  fold (imprimir_todas ls (print l w)).
  destruct (IH (print l w)) as (A & B & C).
  split; [exact A|]. split; [exact B|exact C].
Qed.

Lemma linha_tabela_texto (u : Usuario) :
  todos_texto u -> linha_tabela u = inr (linha_de u).
Proof.
  intros ((n & Hn) & (e & He)). unfold linha_tabela, linha_de. now rewrite Hn, He.
Qed.

Lemma listar_linhas_texto (us : list Usuario) :
  Forall todos_texto us ->
  forall w, listar_linhas us w = (None, imprimir_todas (List.map linha_de us) w).
Proof.
  induction 1 as [|u us Hu _ IH]; intros w; cbn [listar_linhas List.map]; [reflexivity|].
  rewrite linha_tabela_texto by assumption. apply IH.
Qed.

Lemma imprimir_todas_app (a b : list str) (w : Sistema) :
  imprimir_todas (a ++ b) w = imprimir_todas b (imprimir_todas a w).
Proof. unfold imprimir_todas. apply fold_left_app. Qed.

(** X13.  On a list whose attributes are all strings, [listar_usuarios]
    raises nothing and changes nothing but the output (the list, the CSV
    file and the log are as before): it prints the single
    line "no user" for the empty list, and otherwise the three lines of the
    heading and one line per record, in the order of the list.  A field is
    padded to 30 characters and never cut: the line of a record is 63
    characters wide exactly when both its fields have at most 30. *)
Theorem listar_usuarios_tabela (w : Sistema) :
  Forall todos_texto (usuarios w) ->
  fst (listar_usuarios w) = None
  /\ usuarios (snd (listar_usuarios w)) = usuarios w
  /\ arq_csv (snd (listar_usuarios w)) = arq_csv w
  /\ saida (snd (listar_usuarios w))
     = saida w ++ match usuarios w with
                  | [] => [nenhum_cadastrado]
                  | _ :: _ => cabecalho_tabela ++ List.map linha_de (usuarios w)
                  end
  /\ (forall u, (List.length (linha_de u) = 63)%nat
                <-> (List.length (Csv.field_text (nome u)) <= 30)%nat
                    /\ (List.length (Csv.field_text (email u)) <= 30)%nat)
  /\ log (snd (listar_usuarios w)) = log w.
Proof.
  intros H. split; [|split; [|split; [|split; [|split]]]].
  - unfold listar_usuarios. destruct (usuarios w) as [|u us] eqn:E; [reflexivity|].
    now rewrite listar_linhas_texto.
  - unfold listar_usuarios. destruct (usuarios w) as [|u us] eqn:E; [exact E|].
    rewrite listar_linhas_texto by assumption. cbn [snd].
    fold (imprimir_todas cabecalho_tabela w). rewrite <- imprimir_todas_app.
    rewrite (proj1 (usuarios_imprimir_todas _ w)). exact E.
  - unfold listar_usuarios. destruct (usuarios w) as [|u us] eqn:E; [reflexivity|].
    rewrite listar_linhas_texto by assumption. cbn [snd].
    fold (imprimir_todas cabecalho_tabela w). rewrite <- imprimir_todas_app.
    apply usuarios_imprimir_todas.
  - unfold listar_usuarios. destruct (usuarios w) as [|u us] eqn:E; [reflexivity|].
    rewrite listar_linhas_texto by assumption. cbn [snd].
    fold (imprimir_todas cabecalho_tabela w). rewrite <- imprimir_todas_app.
    apply saida_imprimir_todas.
  - intros u. unfold linha_de. rewrite !length_app, !length_ljust.
    replace (List.length separador) with 3%nat by (vm_compute; reflexivity). lia.
  - unfold listar_usuarios. destruct (usuarios w) as [|u us] eqn:E; [reflexivity|].
    rewrite listar_linhas_texto by assumption. cbn [snd].
    fold (imprimir_todas cabecalho_tabela w). rewrite <- imprimir_todas_app.
    apply usuarios_imprimir_todas.
Qed.

Lemma listar_usuarios_tabela_witness :
  let u := mkUsuario (PyStr (utf8 "Ana")) (PyStr (utf8 "ana@x.co")) in
  saida (snd (listar_usuarios (set_usuarios [u] (novo_sistema Absent JAbsent (fun _ => O)))))
  = [] ++ cabecalho_tabela ++ [linha_de u].
Proof.
  intros u.
  assert (T : Forall todos_texto
                (usuarios (set_usuarios [u] (novo_sistema Absent JAbsent (fun _ => O))))).
  { constructor; [|constructor]. split; eexists; reflexivity. }
  exact (proj1 (proj2 (proj2 (proj2 (listar_usuarios_tabela _ T))))).
Defined.

(** X14.  A record with an attribute that is [None] (as [carregar_usuarios]
    makes from a short row) stops the listing: the heading and the lines of
    the records before it are printed, then the formatting of [None] raises
    and the exception leaves [listar_usuarios]. *)
Theorem listar_usuarios_none (w : Sistema) (antes : list Usuario) (u : Usuario)
        (depois : list Usuario) :
  usuarios w = antes ++ u :: depois ->
  Forall todos_texto antes ->
  nome u = PyNone \/ email u = PyNone ->
  listar_usuarios w
  = (Some (OtherError (utf8 "unsupported format string passed to NoneType.__format__")),
     imprimir_todas (cabecalho_tabela ++ List.map linha_de antes) w).
Proof.
  intros E Ha Hu.
  assert (L : forall w0, listar_linhas (antes ++ u :: depois) w0
              = (Some (OtherError (utf8 "unsupported format string passed to NoneType.__format__")),
                 imprimir_todas (List.map linha_de antes) w0)).
  { clear E. induction Ha as [|x antes Hx _ IH]; intros w0; cbn [app listar_linhas List.map].
    - unfold linha_tabela. destruct Hu as [Hu|Hu].
      + rewrite Hu. reflexivity.
      + rewrite Hu. destruct (nome u); reflexivity.
    - rewrite linha_tabela_texto by assumption. apply IH. }
  unfold listar_usuarios. rewrite E. rewrite imprimir_todas_app.
  destruct antes as [|a antes]; cbn [app] in *; rewrite L; reflexivity.
Qed.

Lemma listar_usuarios_none_witness :
  fst (listar_usuarios
         (set_usuarios [mkUsuario (PyStr (utf8 "Ana")) PyNone]
            (novo_sistema Absent JAbsent (fun _ => O))))
  = Some (OtherError (utf8 "unsupported format string passed to NoneType.__format__")).
Proof.
  rewrite (listar_usuarios_none _ [] (mkUsuario (PyStr (utf8 "Ana")) PyNone) []).
  - reflexivity.
  - reflexivity.
  - constructor.
  - now right.
Defined.

(** ** Search *)

Section BuscaFacts.
Variable lower : str -> str.

Lemma comeca_com_refl (x : str) : comeca_com x x = true.
Proof. induction x as [|c x IH]; [reflexivity|]. simpl. now rewrite N.eqb_refl. Qed.

Lemma contido_refl (x : str) : contido x x = true.
Proof. destruct x; simpl; [reflexivity|]. now rewrite N.eqb_refl, comeca_com_refl. Qed.

Lemma criterio_casa_texto (criterio : str) (u : Usuario) :
  todos_texto u -> criterio_casa lower criterio u = inr (casa_texto lower criterio u).
Proof.
  intros ((n & Hn) & (e & He)). unfold criterio_casa, casa_texto, lower_de.
  rewrite Hn, He. cbn [bind Csv.field_text].
  destruct (contido (lower criterio) (lower n)); reflexivity.
Qed.

Lemma encontrados_texto (criterio : str) (us : list Usuario) :
  Forall todos_texto us ->
  encontrados lower criterio us = inr (List.filter (casa_texto lower criterio) us).
Proof.
  induction 1 as [|u us Hu _ IH]; cbn [encontrados List.filter]; [reflexivity|].
  rewrite criterio_casa_texto, IH by assumption. reflexivity.
Qed.

Lemma imprimir_encontrados (achados : list Usuario) :
  forall w, fold_left (fun w' u => print (usuario_encontrado u) w') achados w
            = imprimir_todas (List.map usuario_encontrado achados) w.
Proof.
  induction achados as [|u r IH]; intros w; [reflexivity|].
  cbn [fold_left List.map imprimir_todas]. apply IH.
Qed.

(** X15.  On a list whose attributes are all strings, [buscar_usuario]
    raises nothing and changes nothing but the output; it prints the
    records whose name or email contains the criterion, both taken in lower
    case, in the order of the list, or the not-found message when there is
    none.  Every record whose name or email equals the criterion up to
    case is among those found, so the search finds whatever the exact
    comparison of [apagar_usuario] and [atualizar_usuario] finds. *)
Theorem buscar_usuario_texto (criterio : str) (w : Sistema) :
  Forall todos_texto (usuarios w) ->
  buscar_usuario lower criterio w
  = (None,
     match List.filter (casa_texto lower criterio) (usuarios w) with
     | [] => mensagem_erro (nao_encontrado_com criterio) w
     | achados =>
         imprimir_todas
           (resultados_da_busca criterio :: List.map usuario_encontrado achados) w
     end)
  /\ (forall u s,
        In u (usuarios w) ->
        nome u = PyStr s \/ email u = PyStr s ->
        lower s = lower criterio ->
        In u (List.filter (casa_texto lower criterio) (usuarios w))).
Proof.
  intros H. split.
  - unfold buscar_usuario. rewrite encontrados_texto by assumption.
    destruct (List.filter (casa_texto lower criterio) (usuarios w)) as [|a r];
      [reflexivity|].
    rewrite imprimir_encontrados. reflexivity.
  - intros u s Hin Hs Hl. apply filter_In. split; [exact Hin|].
    unfold casa_texto. destruct Hs as [Hs|Hs]; rewrite Hs; cbn [Csv.field_text];
      rewrite Hl, contido_refl; [reflexivity|apply orb_true_r].
Qed.

Lemma sem_lower_apenas (criterio : str) (u : Usuario) (e : Exn) :
  criterio_casa lower criterio u = inl e -> e = sem_lower.
Proof.
  unfold criterio_casa, lower_de.
  destruct (nome u) as [|n]; cbn [bind]; [intros H; now injection H as <-|].
  destruct (contido (lower criterio) (lower n)); [discriminate|].
  destruct (email u) as [|m]; cbn [bind]; [intros H; now injection H as <-|discriminate].
Qed.

(** X16.  A record whose name is [None], or whose email is [None] while
    its name does not contain the criterion, makes [buscar_usuario] raise
    wherever the record stands in the list: nothing is printed and the
    exception leaves the method. *)
Theorem buscar_usuario_none (criterio : str) (w : Sistema) (u : Usuario) :
  In u (usuarios w) ->
  nome u = PyNone
  \/ (email u = PyNone
      /\ forall n, nome u = PyStr n -> contido (lower criterio) (lower n) = false) ->
  buscar_usuario lower criterio w = (Some sem_lower, w).
Proof.
  intros Hin Hu.
  assert (C : criterio_casa lower criterio u = inl sem_lower).
  { unfold criterio_casa, lower_de. destruct Hu as [Hu|[He Hn]].
    - rewrite Hu. reflexivity.
    - destruct (nome u) as [|n]; [reflexivity|]. cbn [bind].
      rewrite (Hn n eq_refl), He. reflexivity. }
  assert (E : encontrados lower criterio (usuarios w) = inl sem_lower).
  { revert Hin. generalize (usuarios w) as us.
    induction us as [|x us IH]; intros Hin; [destruct Hin|]. cbn [encontrados].
    destruct (criterio_casa lower criterio x) as [e|b] eqn:K.
    - apply sem_lower_apenas in K. subst e. reflexivity.
    - destruct Hin as [->|Hin]; [rewrite C in K; discriminate K|].
      cbn [bind]. rewrite (IH Hin). reflexivity. }
  unfold buscar_usuario. rewrite E. reflexivity.
Qed.

End BuscaFacts.

Lemma buscar_usuario_texto_witness :
  let u := mkUsuario (PyStr (utf8 "Ana")) (PyStr (utf8 "Ana@Example.com")) in
  let w := set_usuarios [u] (novo_sistema Absent JAbsent (fun _ => O)) in
  In u (List.filter (casa_texto Str.lower (utf8 "ana@example.COM")) (usuarios w)).
Proof.
  intros u w.
  apply (proj2 (buscar_usuario_texto Str.lower (utf8 "ana@example.COM") w
                  ltac:(constructor; [split; eexists; reflexivity|constructor]))
           u (utf8 "Ana@Example.com")).
  - now left.
  - now right.
  - vm_compute. reflexivity.
Defined.

Lemma buscar_usuario_none_witness :
  let w := set_usuarios [mkUsuario (PyStr (utf8 "Ana")) PyNone]
             (novo_sistema Absent JAbsent (fun _ => O)) in
  buscar_usuario Str.lower (utf8 "bia") w = (Some sem_lower, w).
Proof.
  intros w.
  apply (buscar_usuario_none Str.lower (utf8 "bia") w (mkUsuario (PyStr (utf8 "Ana")) PyNone)).
  - now left.
  - right. split; [reflexivity|]. intros n H. injection H as <-. vm_compute. reflexivity.
Defined.

(** ** A run of the menu *)

Opaque pede_opcao pede_nome pede_email pede_email_remover pede_criterio
       pede_email_atualizar pede_novo_nome pede_novo_email saindo opcao_invalida
       titulo_menu opcoes.

Lemma mesmo_estado_refl (w : Sistema) : mesmo_estado w w.
Proof. repeat split. Qed.

Lemma mesmo_estado_trans (a b c : Sistema) :
  mesmo_estado a b -> mesmo_estado b c -> mesmo_estado a c.
Proof. intros (A1 & A2 & A3 & A4) (B1 & B2 & B3 & B4). repeat split; congruence. Qed.

Lemma mesmo_estado_print (m : str) (w : Sistema) : mesmo_estado w (print m w).
Proof. repeat split. Qed.

Lemma mesmo_estado_set_cursor (c : nat) (w : Sistema) : mesmo_estado w (set_cursor c w).
Proof. repeat split. Qed.

Lemma mesmo_estado_imprimir_todas (ls : list str) :
  forall w, mesmo_estado w (imprimir_todas ls w).
Proof.
  induction ls as [|l ls IH]; intros w; [apply mesmo_estado_refl|].
  cbn [imprimir_todas fold_left]. fold (imprimir_todas ls (print l w)).
  apply (mesmo_estado_trans _ (print l w)); [apply mesmo_estado_print|apply IH].
Qed.

Lemma estado_fiel_mesmo (w w' : Sistema) :
  mesmo_estado w w' -> estado_fiel w -> estado_fiel w'.
Proof.
  intros (U & A & E & L) (H1 & H2 & H3 & H4 & H5). unfold estado_fiel, sincronizado in *.
  rewrite U, A, E, L. auto.
Qed.

(** From such a state the three statements that end an operation raise
    nothing and lead to such a state. *)
Lemma estado_fiel_concluir (a b : str) (us : list Usuario) (w : Sistema) :
  escrita_csv w = None -> escrita_log w = None ->
  Forall registro_fiel us -> Forall registro_codificavel us -> codificavel b = true ->
  exists w', concluir b a (set_usuarios us w) = (None, w') /\ estado_fiel w'.
Proof.
  intros Hw Hl Hf Hc Hb.
  rewrite (concluir_ok b a (set_usuarios us w) Hw Hl Hc Hb).
  eexists. split; [reflexivity|]. unfold estado_fiel, sincronizado, concluido.
  cbn [usuarios arq_csv escrita_csv escrita_log mensagem_sucesso print set_log set_arq_csv
       set_usuarios].
  repeat split; auto.
Qed.

Lemma estado_fiel_cadastrar (nome_ email_ : str) (w : Sistema) :
  estado_fiel w ->
  entrada_fiel nome_ ->
  (validar_email email_ = true -> campo_fiel (PyStr email_)) ->
  exists w', descartar (cadastrar_usuario nome_ email_ w) = (None, w') /\ estado_fiel w'.
Proof.
  intros H [Fn Cn] Fe.
  destruct (cadastrar_casos nome_ email_ w)
    as [(_ & C)|[(_ & _ & C)|[(_ & _ & _ & C)|(Hn & He & Hd & _ & _)]]];
    try (rewrite C; eexists; split; [reflexivity|];
         apply (estado_fiel_mesmo w); [apply mesmo_estado_print|exact H]).
  rewrite cadastrar_sucesso by assumption. rewrite descartar_retornar.
  destruct H as (Hw & Hl & Hf & Hc & _). apply estado_fiel_concluir; auto.
  - apply Forall_app. split; [exact Hf|]. constructor; [|constructor].
    split; [exact Fn|now apply Fe].
  - apply Forall_app. split; [exact Hc|]. constructor; [|constructor].
    split; [exact Cn|now apply validar_email_codificavel].
  - rewrite log_cadastrado_codificavel, Cn. now apply validar_email_codificavel.
Qed.

Lemma estado_fiel_apagar (email_ : str) (w : Sistema) :
  estado_fiel w ->
  exists w', apagar_usuario email_ w = (None, w') /\ estado_fiel w'.
Proof.
  intros H.
  destruct (primeiro_ou_nenhum email_ (usuarios w)) as [Hno|(antes & u & depois_ & Hp)].
  - rewrite apagar_nenhum by assumption. eexists. split; [reflexivity|].
    apply (estado_fiel_mesmo w); [apply mesmo_estado_print|exact H].
  - rewrite (apagar_primeiro _ _ _ _ _ Hp). destruct Hp as (E & _ & Hu).
    destruct H as (Hw & Hl & Hf & Hc & _). rewrite E in Hf, Hc.
    apply Forall_app in Hf as [Fa Fd]. apply Forall_cons_iff in Fd as [_ Fd].
    apply Forall_app in Hc as [Ca Cd]. apply Forall_cons_iff in Cd as [Cu Cd].
    apply estado_fiel_concluir; auto.
    + apply Forall_app. now split.
    + apply Forall_app. now split.
    + rewrite log_removido_codificavel. exact (email_codificavel email_ u Cu Hu).
Qed.

Lemma atualizado_fiel (novo_nome novo_email : option str) (u : Usuario) :
  registro_fiel u ->
  (forall s, novo_nome = Some s -> entrada_fiel s) ->
  (forall s, novo_email = Some s -> entrada_fiel s) ->
  registro_fiel (atualizado novo_nome novo_email u).
Proof.
  intros [Hn He] Fn Fe. unfold atualizado, registro_fiel.
  destruct novo_nome as [s|]; [destruct (aceito validar_nome (Some s))|];
    (destruct novo_email as [t|]; [destruct (aceito validar_email (Some t))|]);
    cbn [nome email]; split;
    first [exact Hn | exact He | exact (proj1 (Fn _ eq_refl)) | exact (proj1 (Fe _ eq_refl))].
Qed.

Lemma estado_fiel_atualizar (email_ : str) (novo_nome novo_email : option str) (w : Sistema) :
  estado_fiel w ->
  (forall s, novo_nome = Some s -> entrada_fiel s) ->
  (forall s, novo_email = Some s -> entrada_fiel s) ->
  exists w', atualizar_usuario email_ novo_nome novo_email w = (None, w')
             /\ estado_fiel w'.
Proof.
  intros H Fn Fe.
  destruct (primeiro_ou_nenhum email_ (usuarios w)) as [Hno|(antes & u & depois_ & Hp)].
  - rewrite atualizar_nenhum by assumption. eexists. split; [reflexivity|].
    apply (estado_fiel_mesmo w); [apply mesmo_estado_print|exact H].
  - rewrite (atualizar_primeiro _ _ _ _ _ _ _ Hp). destruct Hp as (E & _ & Hu).
    destruct H as (Hw & Hl & Hf & Hc & _). rewrite E in Hf, Hc.
    apply Forall_app in Hf as [Fa Fd]. apply Forall_cons_iff in Fd as [Fu Fd].
    apply Forall_app in Hc as [Ca Cd]. apply Forall_cons_iff in Cd as [Cu Cd].
    assert (Cu' : registro_codificavel (atualizado novo_nome novo_email u)).
    { apply atualizado_codificavel; [exact Cu|]. intros s K. exact (proj2 (Fn s K)). }
    apply estado_fiel_concluir; auto.
    + apply Forall_app. split; [exact Fa|]. constructor; [|exact Fd].
      now apply atualizado_fiel.
    + apply Forall_app. split; [exact Ca|]. now constructor.
    + apply log_atualizado_codificavel; [|exact Cu'].
      exact (email_codificavel email_ u Cu Hu).
Qed.

Lemma estado_fiel_carregar (w : Sistema) :
  estado_fiel w ->
  exists w', descartar (carregar_usuarios formato_csv w) = (None, w')
             /\ estado_fiel w' /\ usuarios w' = usuarios w.
Proof.
  intros H. pose proof H as (Hw & Hl & Hf & Hc & [S|[A U]]); unfold carregar_usuarios;
    rewrite Str_eqb_refl.
  - rewrite S, csv_ida_e_volta_sem_cr by assumption. eexists. split; [reflexivity|].
    split; [|reflexivity].
    apply (estado_fiel_mesmo w); [repeat split|exact H].
  - rewrite A. eexists. split; [reflexivity|]. now split.
Qed.

Lemma lstrip_sufixo (s : str) : exists p, s = p ++ Str.lstrip s.
Proof.
  induction s as [|c s (p & IH)]; [now exists []|]. simpl.
  destruct (Str.isspace c); [|now exists []].
  exists (c :: p). simpl. now f_equal.
Qed.

Lemma strip_In (s : str) (c : N) : In c (Str.strip s) -> In c s.
Proof.
  unfold Str.strip, Str.rstrip. intros H. apply in_rev in H.
  destruct (lstrip_sufixo (rev (Str.lstrip s))) as (p & E).
  assert (H1 : In c (rev (Str.lstrip s))) by (rewrite E; apply in_app_iff; now right).
  apply in_rev in H1. destruct (lstrip_sufixo s) as (q & F).
  rewrite F. apply in_app_iff. now right.
Qed.

Lemma strip_length (s : str) : (List.length (Str.strip s) <= List.length s)%nat.
Proof.
  unfold Str.strip, Str.rstrip. rewrite length_rev.
  destruct (lstrip_sufixo (rev (Str.lstrip s))) as (p & E).
  apply (f_equal (@List.length N)) in E. rewrite length_app, length_rev in E.
  destruct (lstrip_sufixo s) as (q & F).
  apply (f_equal (@List.length N)) in F. rewrite length_app in F. lia.
Qed.

Lemma strip_ou_none_fiel (s t : str) :
  entrada_fiel s -> strip_ou_none s = Some t -> entrada_fiel t.
Proof.
  intros [(x & E & Hcr & Hl) Hc] H. injection E as <-.
  assert (T : t = Str.strip s).
  { unfold strip_ou_none in H. destruct (Str.strip s); [discriminate|].
    now injection H as <-. }
  subst t. split.
  - exists (Str.strip s). split; [reflexivity|]. split.
    + intros Hin. apply Hcr. now apply strip_In.
    + pose proof (strip_length s). lia.
  - apply forallb_forall. intros c Hin. apply strip_In in Hin.
    exact (proj1 (forallb_forall _ _) Hc c Hin).
Qed.

(** The names and the emails of [gerar_usuario_aleatorio] are short and
    hold no carriage return. *)
Lemma nomes_curtos :
  forallb (fun n =>
    forallb (fun s =>
      let nome_ := n ++ utf8 " " ++ s in
      (List.length nome_ <=? 40)%nat && forallb (fun c => negb (c =? Csv.CR)) nome_)
      sobrenomes) nomes = true.
Proof. vm_compute. reflexivity. Qed.

Lemma campo_fiel_ate_100 (s : str) :
  (List.length s <= 100)%nat -> ~ In Csv.CR s -> campo_fiel (PyStr s).
Proof.
  intros L H. exists s. split; [reflexivity|]. split; [exact H|].
  unfold Csv.field_limit. lia.
Qed.

Lemma gerar_nome_fiel (w : Sistema) :
  (List.length (fst (gerar_nome_aleatorio w)) <= 40)%nat
  /\ ~ In Csv.CR (fst (gerar_nome_aleatorio w)).
Proof.
  unfold gerar_nome_aleatorio.
  assert (Hn : nomes <> []) by (intros E; vm_compute in E; discriminate E).
  assert (Hs : sobrenomes <> []) by (intros E; vm_compute in E; discriminate E).
  pose proof (random_choice_In [] nomes w Hn) as I1.
  destruct (random_choice [] nomes w) as [n w1]. cbn [fst] in I1.
  pose proof (random_choice_In [] sobrenomes w1 Hs) as I2.
  destruct (random_choice [] sobrenomes w1) as [s w2]. cbn [fst] in *.
  pose proof (proj1 (forallb_forall _ _) nomes_curtos n I1) as H1. cbv beta in H1.
  pose proof (proj1 (forallb_forall _ _) H1 s I2) as H2. cbv beta zeta in H2.
  apply andb_true_iff in H2 as [L C]. apply Nat.leb_le in L. split; [exact L|].
  intros Hin. rewrite forallb_forall in C. specialize (C _ Hin).
  unfold Csv.CR in C. rewrite N.eqb_refl in C. discriminate C.
Qed.

Lemma gerar_email_length (nome_ : str) (w : Sistema) :
  List.length (fst (gerar_email_aleatorio nome_ w)) = (List.length nome_ + 15)%nat.
Proof.
  unfold gerar_email_aleatorio.
  assert (Hxs : ascii_lowercase <> []) by (intros E; vm_compute in E; discriminate E).
  destruct (random_choices_In 0 ascii_lowercase 5 Hxs w) as [L _].
  destruct (random_choices 0 ascii_lowercase 5 w) as [letras w1]. cbn [fst] in *.
  unfold Str.lower, Str.replace_char. rewrite !length_app, !length_map, L.
  replace (List.length (utf8 "@")) with 1%nat by (vm_compute; reflexivity).
  replace (List.length (utf8 "gmail.com")) with 9%nat by (vm_compute; reflexivity).
  lia.
Qed.

Lemma estado_fiel_gerar (fuel : nat) (w : Sistema) (r : option Exn * Sistema) :
  estado_fiel w -> gerar_usuario_aleatorio fuel w = Some r ->
  exists w', r = (None, w') /\ estado_fiel w'.
Proof.
  intros H G. unfold gerar_usuario_aleatorio in G.
  destruct (gerar_nome_fiel w) as [Ln Cn].
  pose proof (gerar_nome_codificavel w) as Kn.
  assert (N1 : exists c, snd (gerar_nome_aleatorio w) = set_cursor c w)
    by (eexists; reflexivity).
  destruct N1 as (c1 & N1).
  destruct (gerar_nome_aleatorio w) as [nome_ w1]. cbn [fst snd] in *. subst w1.
  destruct (gerar_email_cursor nome_ (set_cursor c1 w)) as (c2 & N2).
  pose proof (gerar_email_length nome_ (set_cursor c1 w)) as Le.
  destruct (gerar_email_aleatorio nome_ (set_cursor c1 w)) as [email_ w2].
  cbn [fst snd] in *. subst w2.
  destruct (sortear_email fuel nome_ email_ _) as [[email' w3]|] eqn:S; [|discriminate].
  injection G as <-.
  destruct (sortear_email_spec (fun e => List.length e = (List.length nome_ + 15)%nat)
              nome_ fuel (gerar_email_length nome_) _ _ _ _ Le S) as (L' & _ & _).
  apply sortear_email_cursor in S as (c3 & ->).
  apply estado_fiel_cadastrar.
  - apply (estado_fiel_mesmo w); [repeat split|exact H].
  - split; [|exact Kn]. apply campo_fiel_ate_100; [lia|exact Cn].
  - intros V. apply campo_fiel_ate_100; [lia|now apply validar_email_sem_cr].
Qed.

Lemma registro_fiel_texto (u : Usuario) : registro_fiel u -> todos_texto u.
Proof. intros [(n & Hn & _) (e & He & _)]. split; eexists; eassumption. Qed.

Lemma listar_fiel (w : Sistema) :
  Forall registro_fiel (usuarios w) ->
  exists w', listar_usuarios w = (None, w') /\ mesmo_estado w w'.
Proof.
  intros H.
  assert (T : Forall todos_texto (usuarios w))
    by (eapply Forall_impl; [apply registro_fiel_texto|exact H]).
  unfold listar_usuarios. destruct (usuarios w) as [|u us] eqn:E.
  - eexists. split; [reflexivity|apply mesmo_estado_print].
  - rewrite listar_linhas_texto by assumption. eexists. split; [reflexivity|].
    fold (imprimir_todas cabecalho_tabela w).
    eapply mesmo_estado_trans; apply mesmo_estado_imprimir_todas.
Qed.

Lemma buscar_fiel (lower : str -> str) (criterio : str) (w : Sistema) :
  Forall registro_fiel (usuarios w) ->
  exists w', buscar_usuario lower criterio w = (None, w') /\ mesmo_estado w w'.
Proof.
  intros H.
  assert (T : Forall todos_texto (usuarios w))
    by (eapply Forall_impl; [apply registro_fiel_texto|exact H]).
  unfold buscar_usuario. rewrite encontrados_texto by assumption.
  destruct (List.filter (casa_texto lower criterio) (usuarios w)) as [|a r].
  - eexists. split; [reflexivity|apply mesmo_estado_print].
  - eexists. split; [reflexivity|]. rewrite imprimir_encontrados.
    eapply mesmo_estado_trans; [apply mesmo_estado_print|apply mesmo_estado_imprimir_todas].
Qed.

Lemma recarregar_fiel (w : Sistema) :
  estado_fiel w -> usuarios (snd (carregar_usuarios formato_csv w)) = usuarios w.
Proof.
  intros (_ & _ & Ff & _ & [Sy|[A U]]); unfold carregar_usuarios; rewrite Str_eqb_refl.
  - rewrite Sy, csv_ida_e_volta_sem_cr by assumption. reflexivity.
  - rewrite A. reflexivity.
Qed.

Section MenuFacts.
Variable lower : str -> str.
Variable fuel : nat.

(** What a turn of the menu keeps, and what it consumes. *)
Lemma menu_passo_fiel (entrada : list str) (w : Sistema) :
  Forall entrada_fiel entrada -> estado_fiel w ->
  match menu_passo lower fuel entrada w with
  | inl f =>
      estado_fiel (fim_mundo f) /\ so_fim_da_entrada f
      /\ (forall w', f = EmLaco w' -> gerar_usuario_aleatorio fuel w' = None)
  | inr (entrada', w') =>
      estado_fiel w' /\ Forall entrada_fiel entrada'
      /\ (List.length entrada' < List.length entrada)%nat
  end.
Proof.
  intros He H. unfold menu_passo.
  assert (P : forall m w0, estado_fiel w0 -> estado_fiel (print m w0)).
  { intros m w0 K. apply (estado_fiel_mesmo w0); [apply mesmo_estado_print|exact K]. }
  assert (H0 : estado_fiel (imprimir_todas (titulo_menu :: opcoes) w)).
  { apply (estado_fiel_mesmo w); [apply mesmo_estado_imprimir_todas|exact H]. }
  assert (EOF : forall m w0, estado_fiel w0 ->
            estado_fiel (fim_mundo (Levantou EOFError (print m w0)))
            /\ so_fim_da_entrada (Levantou EOFError (print m w0))
            /\ (forall w', Levantou EOFError (print m w0) = EmLaco w' ->
                           gerar_usuario_aleatorio fuel w' = None)).
  { intros m w0 K. split; [now apply P|]. split; [reflexivity|]. intros w' D. discriminate D. }
  destruct entrada as [|escolha r1]; cbn [ler]; [now apply EOF|].
  apply Forall_cons_iff in He as [_ He].
  set (w1 := print pede_opcao (imprimir_todas (titulo_menu :: opcoes) w)).
  assert (H1 : estado_fiel w1) by (now apply P).
  destruct (Str.eqb escolha (utf8 "1")).
  { destruct r1 as [|nome_ r2]; cbn [ler]; [now apply EOF|].
    apply Forall_cons_iff in He as [Fn He].
    destruct r2 as [|email_ r3]; cbn [ler]; [apply EOF; now apply P|].
    apply Forall_cons_iff in He as [Fe He].
    destruct (estado_fiel_cadastrar nome_ email_ (print pede_email (print pede_nome w1)))
      as (w' & -> & K); [now apply P; apply P|exact Fn|intros _; exact (proj1 Fe)|].
    cbn [chamar]. split; [exact K|]. split; [exact He|cbn [List.length]; lia]. }
  destruct (Str.eqb escolha (utf8 "2")).
  { destruct (estado_fiel_carregar w1 H1) as (w2 & -> & H2 & _). cbn [depois].
    destruct (listar_fiel w2 (proj1 (proj2 (proj2 H2)))) as (w3 & -> & M). cbn [chamar].
    split; [now apply (estado_fiel_mesmo _ _ M)|]. split; [exact He|cbn [List.length]; lia]. }
  destruct (Str.eqb escolha (utf8 "3")).
  { destruct r1 as [|email_ r2]; cbn [ler]; [now apply EOF|].
    apply Forall_cons_iff in He as [_ He].
    destruct (estado_fiel_apagar email_ (print pede_email_remover w1))
      as (w' & -> & K); [now apply P|].
    cbn [chamar]. split; [exact K|]. split; [exact He|cbn [List.length]; lia]. }
  destruct (Str.eqb escolha (utf8 "4")).
  { destruct r1 as [|criterio r2]; cbn [ler]; [now apply EOF|].
    apply Forall_cons_iff in He as [_ He].
    assert (H2 : estado_fiel (print pede_criterio w1)) by (now apply P).
    destruct (buscar_fiel lower criterio _ (proj1 (proj2 (proj2 H2)))) as (w3 & -> & M).
    cbn [chamar].
    split; [now apply (estado_fiel_mesmo _ _ M)|]. split; [exact He|cbn [List.length]; lia]. }
  destruct (Str.eqb escolha (utf8 "5")).
  { destruct r1 as [|email_ r2]; cbn [ler]; [now apply EOF|].
    apply Forall_cons_iff in He as [_ He].
    destruct r2 as [|nn r3]; cbn [ler]; [apply EOF; now apply P|].
    apply Forall_cons_iff in He as [Fn He].
    destruct r3 as [|ne r4]; cbn [ler]; [apply EOF; now apply P; apply P|].
    apply Forall_cons_iff in He as [Fe He].
    destruct (estado_fiel_atualizar email_ (strip_ou_none nn) (strip_ou_none ne)
                (print pede_novo_email (print pede_novo_nome (print pede_email_atualizar w1))))
      as (w' & -> & K).
    - now apply P; apply P; apply P.
    - intros s K. now apply (strip_ou_none_fiel nn).
    - intros s K. now apply (strip_ou_none_fiel ne).
    - cbn [chamar]. split; [exact K|]. split; [exact He|cbn [List.length]; lia]. }
  destruct (Str.eqb escolha (utf8 "6")).
  { destruct (gerar_usuario_aleatorio fuel w1) as [r|] eqn:G.
    - destruct (estado_fiel_gerar fuel w1 r H1 G) as (w' & -> & K). cbn [chamar].
      split; [exact K|]. split; [exact He|cbn [List.length]; lia].
    - split; [exact H1|]. split; [exact I|]. intros w' D. now injection D as <-. }
  destruct (Str.eqb escolha (utf8 "7")).
  { split; [now apply P|]. split; [exact I|]. intros w' D. discriminate D. }
  split; [now apply P|]. split; [exact He|cbn [List.length]; lia].
Qed.

Lemma menu_laco_fiel (passos : nat) :
  forall entrada w,
    (List.length entrada < passos)%nat ->
    Forall entrada_fiel entrada -> estado_fiel w ->
    estado_fiel (fim_mundo (menu_laco lower fuel passos entrada w))
    /\ so_fim_da_entrada (menu_laco lower fuel passos entrada w)
    /\ (forall w', menu_laco lower fuel passos entrada w = EmLaco w' ->
                   gerar_usuario_aleatorio fuel w' = None).
Proof.
  induction passos as [|p IH]; intros entrada w L He H; [lia|].
  cbn [menu_laco]. pose proof (menu_passo_fiel entrada w He H) as S.
  destruct (menu_passo lower fuel entrada w) as [f|[entrada' w']]; [exact S|].
  destruct S as (H' & He' & L'). apply IH; [lia|exact He'|exact H'].
Qed.

(** X17.  A run of the program whose CSV file and log can be written, whose
    CSV file is absent or holds the table of a list without carriage
    returns and without surrogates, and whose input lines hold no carriage
    return and no surrogate (and fit the field limit of the reader), never
    raises from loading, listing, searching, saving or logging: it ends by
    option 7, by the end of the input, or inside the retry loop of
    [gerar_usuario_aleatorio].  When it ends the file still can be written
    and holds the table of the list in memory (or is still absent with an
    empty list), so loading then gives back exactly the list in memory. *)
Theorem principal_fiel (entrada : list str) (w : Sistema) :
  escrita_csv w = None -> escrita_log w = None ->
  arq_csv w = Absent
  \/ (exists us, arq_csv w = Text (csv_dump us)
                 /\ Forall registro_fiel us /\ Forall registro_codificavel us) ->
  Forall entrada_fiel entrada ->
  so_fim_da_entrada (principal lower fuel entrada w)
  /\ (forall w', principal lower fuel entrada w = EmLaco w' ->
                 gerar_usuario_aleatorio fuel w' = None)
  /\ estado_fiel (fim_mundo (principal lower fuel entrada w))
  /\ usuarios (snd (carregar_usuarios formato_csv (fim_mundo (principal lower fuel entrada w))))
     = usuarios (fim_mundo (principal lower fuel entrada w)).
Proof.
  intros Hw Hl Ha He.
  assert (H0 : exists v w1, carregar_usuarios formato_csv (set_usuarios [] w) = (inr v, w1)
                            /\ estado_fiel w1).
  { unfold carregar_usuarios. rewrite Str_eqb_refl. cbn [arq_csv set_usuarios].
    destruct Ha as [A|(us & A & F & C)]; rewrite A.
    - eexists. eexists. split; [reflexivity|].
      split; [exact Hw|]. split; [exact Hl|]. split; [constructor|].
      split; [constructor|]. right. now split.
    - rewrite csv_ida_e_volta_sem_cr by assumption.
      eexists. eexists. split; [reflexivity|].
      split; [exact Hw|]. split; [exact Hl|]. split; [exact F|]. split; [exact C|].
      left. exact A. }
  destruct H0 as (v & w1 & E & H1).
  unfold principal, menu. rewrite E.
  destruct (menu_laco_fiel (S (List.length entrada)) entrada w1 ltac:(lia) He H1)
    as (F & S & G).
  split; [exact S|]. split; [exact G|]. split; [exact F|].
  now apply recarregar_fiel.
Qed.

End MenuFacts.

Lemma principal_fiel_witness :
  let entrada := List.map utf8 ["1"; "Ana, a primeira"; "ana@x.co"; "2"; "4"; "ANA"; "7"]%string in
  let f := principal Str.lower 0 entrada (novo_sistema Absent JAbsent (fun _ => O)) in
  usuarios (snd (carregar_usuarios formato_csv (fim_mundo f))) = usuarios (fim_mundo f).
Proof.
  intros entrada f.
  apply (principal_fiel Str.lower 0 entrada (novo_sistema Absent JAbsent (fun _ => O))).
  - reflexivity.
  - reflexivity.
  - now left.
  - repeat constructor; try (apply campo_fiel_curto); vm_compute; reflexivity.
Defined.

(** ** What loading can raise *)

Section ErrosDoLeitor.
Import Csv.

Lemma parse_add_char_erro (r : reader) (c : N) (e : Exn) :
  parse_add_char r c = inl e -> e = campo_grande.
Proof.
  unfold parse_add_char. destruct (field_limit <=? N.of_nat (List.length (field r)));
    [|discriminate]. intros H. now injection H as <-.
Qed.

Lemma parse_add_char_st (r r' : reader) (c : N) :
  parse_add_char r c = inr r' -> st r' = st r.
Proof.
  unfold parse_add_char. destruct (field_limit <=? N.of_nat (List.length (field r)));
    [discriminate|]. intros H. now injection H as <-.
Qed.

(** Outside [EAT_CRNL] a character that is not a newline can only overflow
    the field, and does not lead to [EAT_CRNL]. *)
Lemma passo_caractere (r : reader) (c : N) :
  st r <> EAT_CRNL -> is_newline (Ch c) = false ->
  match parse_process_char r (Ch c) with
  | inl e => e = campo_grande
  | inr r' => st r' <> EAT_CRNL
  end.
Proof.
  intros Hs Hc.
  assert (A : forall r0 s, match parse_add_char r0 c with
                           | inl e => e = campo_grande
                           | inr r' => st (set_state r' s) = s
                           end).
  { intros r0 s. destruct (parse_add_char r0 c) eqn:K; [now apply parse_add_char_erro in K|].
    reflexivity. }
  assert (B : match parse_add_char r c with
              | inl e => e = campo_grande
              | inr r' => st r' = st r
              end).
  { destruct (parse_add_char r c) eqn:K;
      [now apply parse_add_char_erro in K|now apply parse_add_char_st in K]. }
  assert (SF : forall r0, match start_field r0 (Ch c) with
                          | inl e => e = campo_grande
                          | inr r' => st r' <> EAT_CRNL \/ st r' = st r0
                          end).
  { intros r0. unfold start_field. rewrite Hc.
    destruct (c =? quotechar); [left; discriminate|].
    destruct (c =? delimiter); [right; reflexivity|].
    specialize (A r0 IN_FIELD). destruct (parse_add_char r0 c); [exact A|].
    cbn [bind]. left. rewrite A. discriminate. }
  unfold parse_process_char. destruct (st r) eqn:S; try contradiction.
  - rewrite Hc. specialize (SF (set_state r START_FIELD)).
    destruct (start_field (set_state r START_FIELD) (Ch c)); [exact SF|].
    destruct SF as [K|K]; [exact K|]. rewrite K. discriminate.
  - specialize (SF r). destruct (start_field r (Ch c)); [exact SF|].
    destruct SF as [K|K]; [exact K|]. rewrite K, S. discriminate.
  - rewrite Hc. destruct (c =? delimiter); [discriminate|].
    destruct (parse_add_char r c); [exact B|]. rewrite B. discriminate.
  - destruct (c =? quotechar); [discriminate|].
    destruct (parse_add_char r c); [exact B|]. rewrite B. discriminate.
  - destruct (c =? quotechar).
    + specialize (A r IN_QUOTED_FIELD). destruct (parse_add_char r c); [exact A|].
      cbn [bind]. rewrite A. discriminate.
    + destruct (c =? delimiter); [discriminate|]. rewrite Hc.
      specialize (A r IN_FIELD). destruct (parse_add_char r c); [exact A|].
      cbn [bind]. rewrite A. discriminate.
Qed.

(** A line feed outside [EAT_CRNL] can only overflow the field (inside quotes). *)
Lemma passo_lf (r : reader) (e : Exn) :
  st r <> EAT_CRNL -> parse_process_char r (Ch LF) = inl e -> e = campo_grande.
Proof.
  intros Hs. unfold parse_process_char, start_field.
  destruct (st r) eqn:S; try contradiction; cbn [is_newline];
    replace (LF =? LF) with true by reflexivity;
    replace (LF =? quotechar) with false by reflexivity;
    replace (LF =? delimiter) with false by reflexivity;
    cbn [orb]; try discriminate.
  apply parse_add_char_erro.
Qed.

(** The end of a line raises nothing and leaves the machine out of [EAT_CRNL]. *)
Lemma passo_eol (r : reader) :
  exists r', parse_process_char r EOL = inr r' /\ st r' <> EAT_CRNL.
Proof.
  unfold parse_process_char, start_field, end_of_line.
  destruct (st r) eqn:S; eexists; (split; [reflexivity|]); cbn [st set_state parse_save_field];
    try discriminate; rewrite S; discriminate.
Qed.

Lemma feed_corpo (corpo : str) :
  Forall (fun c => is_newline (Ch c) = false) corpo ->
  forall r resto,
    st r <> EAT_CRNL ->
    match feed r (List.map Ch corpo ++ resto) with
    | inl e =>
        e = campo_grande
        \/ exists r', st r' <> EAT_CRNL /\ feed r' resto = inl e
    | inr r2 => exists r', st r' <> EAT_CRNL /\ feed r' resto = inr r2
    end.
Proof.
  induction 1 as [|c corpo Hc _ IH]; intros r resto Hs; cbn [List.map app].
  - destruct (feed r resto) eqn:K; [right|]; exists r; auto.
  - cbn [feed]. pose proof (passo_caractere r c Hs Hc) as P.
    destruct (parse_process_char r (Ch c)) as [e|r1]; [now left|]. cbn [bind].
    now apply IH.
Qed.

(** Over a line of a text file the machine can only overflow a field, and
    it is out of [EAT_CRNL] at the end of the line. *)
Lemma feed_linha (l : str) (r : reader) :
  linha_de_arquivo l -> st r <> EAT_CRNL ->
  match feed r (List.map Ch l ++ [EOL]) with
  | inl e => e = campo_grande
  | inr r' => st r' <> EAT_CRNL
  end.
Proof.
  intros (corpo & [-> | ->] & Hc) Hs.
  - rewrite map_app, <- app_assoc. cbn [List.map app].
    pose proof (feed_corpo corpo Hc r [Ch LF; EOL] Hs) as F.
    assert (T : forall r', st r' <> EAT_CRNL ->
                match feed r' [Ch LF; EOL] with
                | inl e => e = campo_grande
                | inr r2 => st r2 <> EAT_CRNL
                end).
    { intros r' Hs'. cbn [feed].
      destruct (parse_process_char r' (Ch LF)) as [e|r1] eqn:K;
        [now apply passo_lf in K|]. cbn [bind].
      destruct (passo_eol r1) as (r2 & E & S2). now rewrite E. }
    destruct (feed r (List.map Ch corpo ++ [Ch LF; EOL])) as [e|r2].
    + destruct F as [F|(r' & Hs' & F)]; [exact F|].
      specialize (T r' Hs'). now rewrite F in T.
    + destruct F as (r' & Hs' & F). specialize (T r' Hs'). now rewrite F in T.
  - pose proof (feed_corpo corpo Hc r [EOL] Hs) as F.
    assert (T : forall r', match feed r' [EOL] with
                           | inl e => e = campo_grande
                           | inr r2 => st r2 <> EAT_CRNL
                           end).
    { intros r'. cbn [feed]. destruct (passo_eol r') as (r2 & E & S2). now rewrite E. }
    destruct (feed r (List.map Ch corpo ++ [EOL])) as [e|r2].
    + destruct F as [F|(r' & Hs' & F)]; [exact F|].
      specialize (T r'). now rewrite F in T.
    + destruct F as (r' & Hs' & F). specialize (T r'). now rewrite F in T.
Qed.

Lemma rows_erro (lines : list str) :
  Forall linha_de_arquivo lines ->
  forall r rs e,
    st r <> EAT_CRNL -> rows r lines = (rs, Some e) -> e = campo_grande.
Proof.
  induction 1 as [|l lines Hl _ IH]; intros r rs e Hs H; cbn [rows] in H.
  - destruct (Str.truthy (field r) || state_eqb (st r) IN_QUOTED_FIELD); discriminate.
  - pose proof (feed_linha l r Hl Hs) as F.
    destruct (feed r (List.map Ch l ++ [EOL])) as [e'|r'].
    + injection H as _ <-. exact F.
    + destruct (state_eqb (st r') START_RECORD).
      * destruct (rows parse_reset lines) as [rs' e'] eqn:K.
        injection H as _ ->. apply (IH parse_reset rs' e); [discriminate|exact K].
      * now apply (IH r' rs e).
Qed.

Lemma universal_newlines_sem_cr_geral (n : nat) :
  forall s, (List.length s <= n)%nat -> ~ In CR (universal_newlines s).
Proof.
  induction n as [|n IH]; intros s L.
  - destruct s; [intros []|simpl in L; lia].
  - destruct s as [|c s]; [intros []|]. cbn [universal_newlines]. simpl in L.
    destruct (c =? CR) eqn:E.
    + intros [K|K]; [discriminate K|].
      destruct s as [|c2 s2]; [destruct K|].
      destruct (c2 =? LF); revert K; apply IH; simpl in *; lia.
    + intros [K|K]; [subst c; discriminate E|]. revert K. apply IH. lia.
Qed.

Lemma readlines_linhas (t : str) :
  ~ In CR t -> Forall linha_de_arquivo (readlines t).
Proof.
  induction t as [|c t IH]; intros H; cbn [readlines]; [constructor|].
  assert (Ht : ~ In CR t) by (intros K; apply H; now right).
  assert (Hc : (c =? CR) = false) by (apply N.eqb_neq; intros ->; apply H; now left).
  specialize (IH Ht). destruct (c =? LF) eqn:E.
  - constructor; [|exact IH]. apply N.eqb_eq in E. subst c.
    exists []. split; [now left|constructor].
  - assert (Nc : is_newline (Ch c) = false) by (cbn [is_newline]; now rewrite E, Hc).
    destruct (readlines t) as [|l ls].
    + constructor; [|constructor]. exists [c]. split; [now right|]. now constructor.
    + apply Forall_cons_iff in IH as [Hl Hls].
      destruct Hl as (corpo & [-> | ->] & Hb).
      * constructor; [|exact Hls]. exists (c :: corpo). split; [now left|now constructor].
      * constructor; [|exact Hls]. exists (c :: corpo). split; [now right|now constructor].
Qed.

End ErrosDoLeitor.

Lemma getitem_erro (key : str) (d : list (str * PyVal)) (e : Exn) :
  Csv.getitem key d = inl e -> e = KeyError key.
Proof.
  unfold Csv.getitem.
  destruct (fold_left _ d None); [discriminate|]. intros H. now injection H as <-.
Qed.

Lemma comprehension_erro (fieldnames : list str) (rs : list (list str)) (err : option Exn)
      (e : Exn) :
  comprehension fieldnames rs err = inl e ->
  e = KeyError Nome \/ e = KeyError Email \/ err = Some e.
Proof.
  induction rs as [|row rs IH]; cbn [comprehension].
  - destruct err; [|discriminate]. intros H. injection H as <-. auto.
  - destruct row as [|x row]; [exact IH|].
    destruct (Csv.getitem Nome _) eqn:G1; cbn [bind].
    + intros H. injection H as <-. left. now apply getitem_erro in G1.
    + destruct (Csv.getitem Email _) eqn:G2; cbn [bind].
      * intros H. injection H as <-. right. left. now apply getitem_erro in G2.
      * destruct (comprehension fieldnames rs err); cbn [bind]; [|discriminate].
        intros H. injection H as <-. now apply IH.
Qed.

(** X19.  Whatever the text of the CSV file, parsing it can raise only
    three exceptions: [KeyError('Nome')] or [KeyError('Email')] for a row
    under a header without that column, and the error of the reader for a
    field beyond 131072 characters.  The reader's error for a newline
    inside an unquoted field cannot occur, because the file is read in text
    mode, line by line. *)
Theorem csv_load_erros (content : str) (e : Exn) :
  csv_load content = inl e ->
  e = KeyError Nome \/ e = KeyError Email \/ e = campo_grande.
Proof.
  unfold csv_load. intros H.
  assert (L : Forall linha_de_arquivo (Csv.readlines (Csv.universal_newlines content))).
  { apply readlines_linhas. now apply (universal_newlines_sem_cr_geral (List.length content)). }
  destruct (Csv.rows Csv.parse_reset (Csv.readlines (Csv.universal_newlines content)))
    as [rs err] eqn:R.
  assert (E : forall e', err = Some e' -> e' = campo_grande).
  { intros e' ->. apply (rows_erro _ L Csv.parse_reset rs e'); [discriminate|exact R]. }
  destruct rs as [|fieldnames rs].
  - destruct err as [e'|]; [|discriminate]. injection H as <-. right. right. now apply E.
  - apply comprehension_erro in H as [H|[H|H]]; auto.
Qed.

Lemma csv_load_erros_witness :
  let content := utf8 "Nome" ++ [10] ++ utf8 "Bia,bia@x.co" ++ [10] in
  KeyError Email = KeyError Nome \/ KeyError Email = KeyError Email
  \/ KeyError Email = campo_grande.
Proof.
  intros content. apply (csv_load_erros content). vm_compute. reflexivity.
Defined.

(** The message of what parsing the CSV file can raise can be encoded. *)
Lemma csv_load_erro_codificavel (content : str) (e : Exn) :
  csv_load content = inl e -> codificavel (exn_str e) = true.
Proof.
  unfold csv_load. intros H.
  assert (L : Forall linha_de_arquivo (Csv.readlines (Csv.universal_newlines content))).
  { apply readlines_linhas. now apply (universal_newlines_sem_cr_geral (List.length content)). }
  destruct (Csv.rows Csv.parse_reset (Csv.readlines (Csv.universal_newlines content)))
    as [rs err] eqn:R.
  assert (E : forall e', err = Some e' -> e' = campo_grande).
  { intros e' ->. apply (rows_erro _ L Csv.parse_reset rs e'); [discriminate|exact R]. }
  assert (T : e = KeyError Nome \/ e = KeyError Email \/ e = campo_grande).
  { destruct rs as [|fieldnames rs].
    - destruct err as [e'|]; [|discriminate]. injection H as <-. right. right. now apply E.
    - apply comprehension_erro in H as [H|[H|H]]; auto. }
  destruct T as [->|[->| ->]]; vm_compute; reflexivity.
Qed.

(** X18.  When the CSV file exists but cannot be parsed, while the log can
    be written, the program starts with an empty list and leaves the file
    alone; the first registration with a valid email and a valid name that
    can be encoded then returns [True] and overwrites the file with the
    table of the new record only, so what the file held is lost. *)
Theorem carga_falha_e_cadastro_sobrescreve
        (content : str) (e : Exn) (nome_ email_ : str) (w : Sistema) :
  arq_csv w = Text content -> csv_load content = inl e ->
  escrita_csv w = None -> escrita_log w = None ->
  validar_nome nome_ = true -> codificavel nome_ = true -> validar_email email_ = true ->
  let r0 := carregar_usuarios formato_csv (set_usuarios [] w) in
  let w1 := snd r0 in
  fst r0 = inr None
  /\ usuarios w1 = []
  /\ arq_csv w1 = Text content
  /\ fst (cadastrar_usuario nome_ email_ w1) = inr true
  /\ arq_csv (snd (cadastrar_usuario nome_ email_ w1))
     = Text (csv_dump [mkUsuario (PyStr nome_) (PyStr email_)]).
Proof.
  intros A L Hw Hl Hn Hc He r0 w1.
  assert (W : r0 = (inr None,
                    print (erro_ao_carregar e)
                      (set_log (log w ++ [erro_ao_carregar e]) (set_usuarios [] w)))).
  { subst r0. unfold carregar_usuarios. rewrite Str_eqb_refl.
    cbn [arq_csv set_usuarios]. rewrite A, L. unfold falha_ao_carregar.
    rewrite log_event_ok; [reflexivity|exact Hl|].
    rewrite erro_ao_carregar_codificavel. now apply (csv_load_erro_codificavel content). }
  subst w1. rewrite W. cbn [fst snd].
  split; [reflexivity|]. split; [reflexivity|]. split; [exact A|].
  set (w1 := print (erro_ao_carregar e)
               (set_log (log w ++ [erro_ao_carregar e]) (set_usuarios [] w))).
  assert (D : email_cadastrado email_ (usuarios w1) = false) by reflexivity.
  rewrite cadastrar_sucesso by assumption.
  rewrite (concluir_ok _ _ (set_usuarios _ w1) Hw Hl).
  - split; reflexivity.
  - cbn [usuarios set_usuarios w1 print set_log app]. constructor; [|constructor].
    split; [exact Hc|now apply validar_email_codificavel].
  - rewrite log_cadastrado_codificavel, Hc. now apply validar_email_codificavel.
Qed.

Lemma carga_falha_e_cadastro_sobrescreve_witness :
  let content := utf8 "Nome" ++ [10] ++ utf8 "Bia,bia@x.co" ++ [10] in
  let w := novo_sistema (Text content) JAbsent (fun _ => O) in
  arq_csv (snd (cadastrar_usuario (utf8 "Ana") (utf8 "ana@x.co")
                  (snd (carregar_usuarios formato_csv (set_usuarios [] w)))))
  = Text (csv_dump [mkUsuario (PyStr (utf8 "Ana")) (PyStr (utf8 "ana@x.co"))]).
Proof.
  intros content w.
  apply (carga_falha_e_cadastro_sobrescreve content (KeyError Email)
           (utf8 "Ana") (utf8 "ana@x.co") w);
    try reflexivity; vm_compute; reflexivity.
Defined.
